(** * HikMicro thermal viewer: a shallow embedding of [thermal_camera.py]

    The script has three parts, and the development follows them:
    - start-up discovery of the camera on the USB bus, with one port
      reset and a bounded retry loop (lines 13-91);
    - the per-frame pipeline: Y-channel extraction from the YUYV
      buffer, a three-frame temporal mean, and the contrast-adjustable
      normalisation to 8 bits (lines 164-197);
    - the key handling at the end of each loop iteration, which owns
      the palette index and the contrast factor (lines 246-261).
    Of the overlays, the two computations the script does itself are
    covered: the scaling of the hot and cold spots (lines 216-220) and
    the rows of the scale bar's labels (lines 150-158).

    Numbers are modelled as the interpreter holds them.  A Python
    [float] is an IEEE 754 binary64 value and a NumPy [float32] a
    binary32 value; both are [spec_float]s of the standard library,
    whose operations round to nearest, ties to even, as the hardware
    does.  Python integers are [Z], bytes are [Byte.byte].  Where a
    property holds for too many inputs to run them all, the rounding
    errors are bounded over the real numbers. *)

From Stdlib Require Import Reals Lra.
From Stdlib Require Import ZArith List Bool Lia.
From Stdlib Require Import Strings.String Strings.Ascii Strings.Byte.
From Stdlib Require Import Floats.SpecFloat.
From Stdlib Require Numbers.DecimalString Numbers.DecimalN Numbers.DecimalPos.
From Stdlib Require Import Sorting.Mergesort Structures.Orders.
From Stdlib Require Import Sorting.Sorted Sorting.Permutation.
Import ListNotations.

Local Open Scope Z_scope.

(** ** IEEE 754 arithmetic *)

(** Operations at a given format: [prec] counts the mantissa bits with
    the implicit one, [emax] is the exponent of the infinities.  Every
    operation returns a value in canonical form, so that [SFcompare],
    which compares exponents first, orders the results correctly. *)
Module Ieee.

Section Format.

Variables prec emax : Z.

Definition add : spec_float -> spec_float -> spec_float := SFadd prec emax.
Definition sub : spec_float -> spec_float -> spec_float := SFsub prec emax.
Definition mul : spec_float -> spec_float -> spec_float := SFmul prec emax.
Definition div : spec_float -> spec_float -> spec_float := SFdiv prec emax.

(** The value nearest to the integer [n]. *)
Definition of_Z (n : Z) : spec_float := binary_normalize prec emax n 0 false.

(** Conversion of a value of another format: the nearest value of
this one (exact when the source has no more mantissa bits). *)
Definition round (x : spec_float) : spec_float :=
match x with
| S754_finite s m e => binary_normalize prec emax (cond_Zopp s (Zpos m)) e s
| _ => x
end.

(** The value nearest to the fraction [n / d], as a decimal literal
denotes it. *)
Definition of_ratio (n d : Z) : spec_float := div (of_Z n) (of_Z d).

(** The value nearest to [m * 2^e]. *)
Definition scaled (m e : Z) : spec_float := binary_normalize prec emax m e false.

(** [m * 2^e] is a value of the format: the mantissa has at most
[prec] bits and the exponent lies in the format's range, so that
[scaled m e] stands for it without rounding. *)
Definition fits (m e : Z) : Prop :=
m = 0 \/ (Zdigits2 m <= prec /\ 3 - emax - prec <= e /\ Zdigits2 m + e <= emax).

(** A zero or a finite value in canonical form: what the operations
return as long as nothing overflows. *)
Definition proper (x : spec_float) : bool :=
match x with
| S754_zero _ => true
| S754_finite _ m e => bounded prec emax m e
| _ => false
end.

(** [x] is the whole number [N] of units [2^E], with the sign [s]:
a zero, or a finite value in canonical form of that magnitude. *)
Definition rep (s : bool) (x : spec_float) (N E : Z) : Prop :=
(N = 0 /\ x = S754_zero s) \/
(exists (m : positive) (e : Z),
    x = S754_finite s m e /\ bounded prec emax m e = true /\
    E <= e /\ Zpos m * 2 ^ (e - E) = N).

End Format.

End Ieee.

(** NumPy's [float32]. *)
Module F32.

Definition prec : Z := 24.
Definition emax : Z := 128.
Definition t : Type := spec_float.
Definition add : t -> t -> t := Ieee.add prec emax.
Definition sub : t -> t -> t := Ieee.sub prec emax.
Definition mul : t -> t -> t := Ieee.mul prec emax.
Definition div : t -> t -> t := Ieee.div prec emax.
Definition ltb : t -> t -> bool := SFltb.
Definition of_Z : Z -> t := Ieee.of_Z prec emax.
Definition round : spec_float -> t := Ieee.round prec emax.
Definition of_ratio : Z -> Z -> t := Ieee.of_ratio prec emax.

End F32.

(** Python's [float] and NumPy's [float64]. *)
Module F64.

Definition prec : Z := 53.
Definition emax : Z := 1024.
Definition t : Type := spec_float.
Definition add : t -> t -> t := Ieee.add prec emax.
Definition sub : t -> t -> t := Ieee.sub prec emax.
Definition mul : t -> t -> t := Ieee.mul prec emax.
Definition div : t -> t -> t := Ieee.div prec emax.
Definition ltb : t -> t -> bool := SFltb.
Definition leb : t -> t -> bool := SFleb.
Definition eqb : t -> t -> bool := SFeqb.
Definition of_Z : Z -> t := Ieee.of_Z prec emax.
Definition round : spec_float -> t := Ieee.round prec emax.
Definition of_ratio : Z -> Z -> t := Ieee.of_ratio prec emax.

End F64.

(** Truncation toward zero of a finite value; zero for the others. *)
Definition trunc (x : spec_float) : Z :=
  match x with
  | S754_finite s m e =>
      cond_Zopp s (match e with
                   | Zneg k => Z.shiftr (Zpos m) (Zpos k)
                   | _ => Z.shiftl (Zpos m) e
                   end)
  | _ => 0
  end.

(** The real number a zero or a finite value stands for. *)
Definition value (x : spec_float) : R :=
  match x with
  | S754_finite s m e => (IZR (cond_Zopp s (Zpos m)) * powerRZ 2 e)%R
  | _ => 0%R
  end.

(** Identity of two values, bit for bit (unlike [SFeqb], which is the
    IEEE comparison). *)
Definition sf_same (a b : spec_float) : bool :=
  match a, b with
  | S754_zero s, S754_zero s' => Bool.eqb s s'
  | S754_infinity s, S754_infinity s' => Bool.eqb s s'
  | S754_nan, S754_nan => true
  | S754_finite s m e, S754_finite s' m' e' =>
      Bool.eqb s s' && Pos.eqb m m' && Z.eqb e e'
  | _, _ => false
  end.

(** The integers from 0 up to, not including, [n]. *)
Definition zrange (n : nat) : list Z := map Z.of_nat (seq 0 n).

(** Python's two-argument [min] and [max] on floats: the first
    argument is kept unless the second is strictly better. *)
Definition py_min (a b : F64.t) : F64.t := if F64.ltb b a then b else a.
Definition py_max (a b : F64.t) : F64.t := if F64.ltb a b then b else a.

(** ** Channel extraction (lines 169-177) *)

(** Why an iteration of the main loop is abandoned by [continue]. *)
Inductive dropped : Type :=
| ReadFailed        (* line 166: [cap.read] returned no frame *)
| InsufficientData. (* line 172: the buffer is shorter than h*w*2 *)

Inductive result (A : Type) : Type :=
| Ok (a : A)
| Drop (why : dropped).
Arguments Ok {A} a.
Arguments Drop {A} why.

(** A frame is a grid of binary32 samples, stored by rows. *)
Definition frame := list (list F32.t).

Module Extract.

(** Sensor resolution, line 170. *)
Definition h : nat := 192.
Definition w : nat := 256.

(** [a.reshape(rows, cols)] of a flat array holding rows*cols items. *)
Fixpoint reshape {A} (rows cols : nat) (a : list A) : list (list A) :=
  match rows with
  | O => []
  | S r => firstn cols a :: reshape r cols (skipn cols a)
  end.

(** The slice [0::2]: the items at even offsets. *)
Fixpoint even_offsets {A} (a : list A) : list A :=
  match a with
  | x :: _ :: rest => x :: even_offsets rest
  | _ => a
  end.

(** [astype(np.float32)] of one unsigned byte. *)
Definition float32_of_byte (b : byte) : F32.t :=
  F32.of_Z (Z.of_N (Byte.to_N b)).

(** Lines 172-177 for a sensor of [rows] by [cols] pixels; the
    buffer interleaves Y with U or V, two bytes per pixel. *)
Definition extract_y (rows cols : nat) (raw_bytes : list byte) : result frame :=
  if (List.length raw_bytes <? rows * cols * 2)%nat then Drop InsufficientData
  else
    let frame_data := reshape rows (cols * 2) (firstn (rows * cols * 2) raw_bytes) in
    Ok (map (fun row => map float32_of_byte (even_offsets row)) frame_data).

(** Position (row, column) of a grid. *)
Definition at_ {A} (g : list (list A)) (r c : nat) : option A :=
  match nth_error g r with
  | Some row => nth_error row c
  | None => None
  end.

End Extract.

(** ** Temporal smoothing (lines 110-112, 180-183) *)

Module Smoother.

Definition SMOOTH_FRAMES : nat := 3.

(** Lines 180-182: append, then drop the oldest frame when the
    buffer holds more than [SMOOTH_FRAMES]. *)
Definition push (frame_buffer : list frame) (gray : frame) : list frame :=
  let frame_buffer := frame_buffer ++ [gray] in
  if (SMOOTH_FRAMES <? List.length frame_buffer)%nat then tl frame_buffer
  else frame_buffer.

(** Elementwise combination of two grids of one shape. *)
Fixpoint zip_with {A} (f : A -> A -> A) (a b : list A) : list A :=
  match a, b with
  | x :: a', y :: b' => f x y :: zip_with f a' b'
  | _, _ => []
  end.

Definition add_frames (a b : frame) : frame :=
  zip_with (zip_with F32.add) a b.

(** [np.mean(frames, axis=0)] on binary32 grids: the frames are added
    in order with a binary32 accumulator and the sum is divided by
    their number.  No result for an empty list (NumPy yields NaN). *)
Definition mean (frames : list frame) : option frame :=
  match frames with
  | [] => None
  | f0 :: rest =>
      let total := fold_left add_frames rest f0 in
      let count := F32.of_Z (Z.of_nat (List.length frames)) in
      Some (map (map (fun x => F32.div x count)) total)
  end.

(** The mean as the smoother's contract words it: at one position,
    the samples of the frames added up and divided by their number,
    in binary32. *)
Definition mean_of_samples (x0 : F32.t) (xs : list F32.t) : F32.t :=
  F32.div (fold_left F32.add xs x0) (F32.of_Z (Z.of_nat (S (List.length xs)))).

(** The window as the contract words it: the last min(N, count)
    frames of all those pushed so far. *)
Definition last_frames (n : nat) (pushed : list frame) : list frame :=
  skipn (List.length pushed - Nat.min n (List.length pushed)) pushed.

Definition byte_value (b : byte) : Z := Z.of_N (Byte.to_N b).

Definition byte_sum (bs : list byte) : Z :=
  fold_right Z.add 0 (map byte_value bs).

(** One call of the smoother: the new buffer and its mean. *)
Definition smooth (frame_buffer : list frame) (gray : frame)
  : list frame * option frame :=
  let frame_buffer := push frame_buffer gray in
  (frame_buffer, mean frame_buffer).

(** The buffer after the frames of [history] have gone through the
    loop, oldest first, starting from the empty list of line 112. *)
Definition run (history : list frame) : list frame :=
  fold_left push history [].

End Smoother.

(** ** NumPy scalars and type promotion *)

(** The normalisation mixes NumPy [float32] values with Python numbers.
    Which precision such a mixed operation runs in depends on the NumPy
    generation: NumPy 1 promotes two scalars by their types and lets an
    array's type win over a scalar of the same kind, NumPy 2 (NEP 50)
    treats Python numbers as weakly typed and NumPy scalars as
    strongly typed.  The script pins no version, so the model carries
    the rule as a parameter. *)
Inductive promotion : Type := Legacy | Nep50.

Inductive scalar : Type :=
| PyInt (n : Z)
| PyFloat (x : F64.t)
| Float32 (x : F32.t)
| Float64 (x : F64.t).

Inductive kind : Type := KPy | K32 | K64.

Module Np.

Definition as64 (a : scalar) : F64.t :=
  match a with
  | PyInt n => F64.of_Z n
  | PyFloat x | Float64 x => x
  | Float32 x => F64.round x
  end.

Definition as32 (a : scalar) : F32.t :=
  match a with
  | PyInt n => F32.of_Z n
  | PyFloat x | Float64 x => F32.round x
  | Float32 x => x
  end.

(** Result type of an arithmetic operation on two scalars. *)
Definition scalar_kind (p : promotion) (a b : scalar) : kind :=
  match a, b with
  | (PyInt _ | PyFloat _), (PyInt _ | PyFloat _) => KPy
  | Float64 _, _ | _, Float64 _ => K64
  | Float32 _, Float32 _ => K32
  | Float32 _, _ | _, Float32 _ =>
      match p with Legacy => K64 | Nep50 => K32 end
  end.

(** Result type when the left operand is an array element and the
    right one a scalar. *)
Definition array_kind (p : promotion) (elt s : scalar) : kind :=
  match elt, s with
  | Float32 _, Float64 _ => match p with Legacy => K32 | Nep50 => K64 end
  | Float32 _, _ => K32
  | _, _ => K64
  end.

Definition at_kind (k : kind) (op32 : F32.t -> F32.t -> F32.t)
           (op64 : F64.t -> F64.t -> F64.t) (a b : scalar) : scalar :=
  match k with
  | KPy => PyFloat (op64 (as64 a) (as64 b))
  | K32 => Float32 (op32 (as32 a) (as32 b))
  | K64 => Float64 (op64 (as64 a) (as64 b))
  end.

Definition add (p : promotion) (a b : scalar) : scalar :=
  match a, b with
  | PyInt n, PyInt m => PyInt (n + m)
  | _, _ => at_kind (scalar_kind p a b) F32.add F64.add a b
  end.

Definition sub (p : promotion) (a b : scalar) : scalar :=
  match a, b with
  | PyInt n, PyInt m => PyInt (n - m)
  | _, _ => at_kind (scalar_kind p a b) F32.sub F64.sub a b
  end.

(** True division: two Python integers give a Python float. *)
Definition div (p : promotion) (a b : scalar) : scalar :=
  at_kind (scalar_kind p a b) F32.div F64.div a b.

Definition array_sub (p : promotion) (elt s : scalar) : scalar :=
  at_kind (array_kind p elt s) F32.sub F64.sub elt s.

Definition array_div (p : promotion) (elt s : scalar) : scalar :=
  at_kind (array_kind p elt s) F32.div F64.div elt s.

Definition array_mul (p : promotion) (elt s : scalar) : scalar :=
  at_kind (array_kind p elt s) F32.mul F64.mul elt s.

(** Comparison by value; every value here is exact in binary64. *)
Definition ltb (a b : scalar) : bool := F64.ltb (as64 a) (as64 b).

(** Python's [max(a, b)]: [b] only when [b > a]. *)
Definition max (a b : scalar) : scalar := if ltb a b then b else a.

(** [np.clip(x, 0, 1)] on one element: [minimum(maximum(x, 0), 1)],
    in the element's own type. *)
Definition clip01 (x : scalar) : scalar :=
  match x with
  | Float32 v =>
      Float32 (if F32.ltb v (F32.of_Z 0) then F32.of_Z 0
               else if F32.ltb (F32.of_Z 1) v then F32.of_Z 1 else v)
  | Float64 v =>
      Float64 (if F64.ltb v (F64.of_Z 0) then F64.of_Z 0
               else if F64.ltb (F64.of_Z 1) v then F64.of_Z 1 else v)
  | _ => x
  end.

(** [astype(np.uint8)]: the C conversion truncates toward zero; the
    values converted here lie in [0, 255]. *)
Definition to_uint8 (x : scalar) : Z := trunc (as64 x) mod 256.

End Np.

(** ** Dynamic range normalisation (lines 189-197) *)

Module Normalizer.

Definition pick (better : F32.t -> F32.t -> bool) (a : frame) : option F32.t :=
  match List.concat a with
  | [] => None
  | x :: rest => Some (fold_left (fun acc y => if better y acc then y else acc) rest x)
  end.

(** [thermal.min()] and [thermal.max()]; an empty array raises. *)
Definition amin : frame -> option F32.t := pick F32.ltb.
Definition amax : frame -> option F32.t := pick (fun y acc => F32.ltb acc y).

(** Lines 191-194: the bounds of the mapped window. *)
Definition bounds (p : promotion) (t_min t_max : F32.t) (contrast_boost : F64.t)
  : scalar * scalar :=
  let t_min := Float32 t_min in
  let t_max := Float32 t_max in
  let t_range := Np.max (Np.sub p t_max t_min) (PyInt 1) in
  let t_mid := Np.div p (Np.add p t_min t_max) (PyInt 2) in
  let half := Np.div p (Np.div p t_range (PyInt 2)) (PyFloat contrast_boost) in
  let b_min := Np.sub p t_mid half in
  let b_max := Np.add p t_mid half in
  (b_min, b_max).

(** The divisor of line 196. *)
Definition divisor (p : promotion) (b : scalar * scalar) : scalar :=
  Np.sub p (snd b) (fst b).

(** Lines 196-197 on one sample. *)
Definition pixel (p : promotion) (b : scalar * scalar) (x : F32.t) : Z :=
  let thermal_norm :=
    Np.clip01 (Np.array_div p (Np.array_sub p (Float32 x) (fst b)) (divisor p b)) in
  Np.to_uint8 (Np.array_mul p thermal_norm (PyInt 255)).

(** Lines 189-197: the 8-bit image of a smoothed frame. *)
Definition normalize (p : promotion) (thermal : frame) (contrast_boost : F64.t)
  : option (list (list Z)) :=
  match amin thermal, amax thermal with
  | Some t_min, Some t_max =>
      let b := bounds p t_min t_max contrast_boost in
      Some (map (map (pixel p b)) thermal)
  | _, _ => None
  end.

(** The divisor is not zero (neither sign of it). *)
Definition divisor_nonzero (p : promotion) (b : scalar * scalar) : bool :=
  negb (F64.eqb (Np.as64 (divisor p b)) (F64.of_Z 0)).

(** A sample of the smoothed frame: the mean of one to three bytes. *)
Definition window_mean (v : F32.t) : Prop :=
  exists total count : Z,
    1 <= count <= 3 /\ 0 <= total <= 255 * count /\ v = F32.of_ratio total count.

(** On a frame whose samples all equal [v]: the divisor is not zero
    and the sample maps to 127. *)
Definition flat_ok (p : promotion) (v : F32.t) (contrast_boost : F64.t) : bool :=
  let b := bounds p v v contrast_boost in
  divisor_nonzero p b && (pixel p b v =? 127).

(** On a frame of extremes [lo] and [hi]: the two of them map to 0
    and to 255. *)
Definition ends_ok (p : promotion) (lo hi : F32.t) (contrast_boost : F64.t) : bool :=
  let b := bounds p lo hi contrast_boost in
  (pixel p b lo =? 0) && (pixel p b hi =? 255).

End Normalizer.

(** ** Session state, key handling and the main loop (lines 164-261) *)

Module Session.

(** The palette table of lines 118-125: OpenCV's colormap constant
    and the name shown in the HUD. *)
Definition COLORMAPS : list (Z * string) :=
  [ (14, "Inferno"); (2, "Jet"); (11, "Hot");
    (13, "Magma"); (20, "Turbo"); (15, "Plasma") ]%string.

(** The three variables the loop carries from one iteration to the
    next (lines 112, 126, 133). *)
Record state : Type := {
  frame_buffer : list frame;
  cmap_idx : Z;
  contrast_boost : F64.t
}.

Definition contrast_step : F64.t := F64.of_ratio 2 10.   (* 0.2 *)
Definition contrast_hi   : F64.t := F64.of_Z 5.          (* 5.0 *)
Definition contrast_lo   : F64.t := F64.of_ratio 4 10.   (* 0.4 *)
Definition contrast_init : F64.t := F64.of_Z 1.          (* 1.0 *)

Definition initial : state :=
  {| frame_buffer := []; cmap_idx := 0; contrast_boost := contrast_init |}.

(** Line 257. *)
Definition contrast_up (c : F64.t) : F64.t :=
  py_min (F64.add c contrast_step) contrast_hi.

(** Line 260. *)
Definition contrast_down (c : F64.t) : F64.t :=
  py_max (F64.sub c contrast_step) contrast_lo.

(** Line 254. *)
Definition next_palette (idx : Z) : Z :=
  (idx + 1) mod Z.of_nat (List.length COLORMAPS).

(** Python's [ord] on a one-character string. *)
Definition ord (c : ascii) : Z := Z.of_N (N_of_ascii c).

Inductive control : Type :=
| Continue   (* next iteration *)
| Break      (* line 248: leave the loop *)
| Raise.     (* an exception escapes the loop *)

(** Lines 247-261, on the key code already masked to 8 bits.  The
    snapshot branch writes a file and leaves the state alone. *)
Definition handle_key (key : Z) (st : state) : control * state :=
  if key =? ord "q" then (Break, st)
  else if key =? ord "s" then (Continue, st)
  else if key =? ord "c" then
    (Continue, {| frame_buffer := frame_buffer st;
                  cmap_idx := next_palette (cmap_idx st);
                  contrast_boost := contrast_boost st |})
  else if (key =? ord "+") || (key =? ord "=") then
    (Continue, {| frame_buffer := frame_buffer st;
                  cmap_idx := cmap_idx st;
                  contrast_boost := contrast_up (contrast_boost st) |})
  else if key =? ord "-" then
    (Continue, {| frame_buffer := frame_buffer st;
                  cmap_idx := cmap_idx st;
                  contrast_boost := contrast_down (contrast_boost st) |})
  else (Continue, st).

(** What an iteration hands to the rendering chain (CLAHE, resize,
    bilateral filter, colour map, overlays), which is OpenCV's and is
    not modelled: the 8-bit image and the palette entry. *)
Definition display : Type := (list (list Z) * option (Z * string))%type.

(** One iteration of [while True] (lines 165-261).  [ret] and
    [raw_bytes] are what [cap.read()] and [frame.flatten()] give,
    [waitKey] what [cv2.waitKey(1)] would return; the key is polled
    only when a frame has been displayed. *)
Definition iteration (p : promotion) (st : state)
           (ret : bool) (raw_bytes : list byte) (waitKey : Z)
  : control * state * option display :=
  if negb ret then (Continue, st, None)
  else
    match Extract.extract_y Extract.h Extract.w raw_bytes with
    | Drop _ => (Continue, st, None)
    | Ok gray =>
        let '(buffer, thermal) := Smoother.smooth (frame_buffer st) gray in
        let st := {| frame_buffer := buffer;
                     cmap_idx := cmap_idx st;
                     contrast_boost := contrast_boost st |} in
        match thermal with
        | None => (Raise, st, None)
        | Some thermal =>
            match Normalizer.normalize p thermal (contrast_boost st) with
            | None => (Raise, st, None)
            | Some thermal_8bit =>
                let shown := (thermal_8bit,
                              nth_error COLORMAPS (Z.to_nat (cmap_idx st))) in
                let key := Z.land waitKey 255 in
                let '(ctl, st) := handle_key key st in
                (ctl, st, Some shown)
            end
        end
    end.

(** The state after a sequence of key presses, each on a displayed
    frame; nothing is handled after a quit. *)
Fixpoint press (keys : list Z) (st : state) : state :=
  match keys with
  | [] => st
  | key :: rest =>
      match handle_key key st with
      | (Continue, st') => press rest st'
      | (_, st') => st'
      end
  end.

(** The contrast values the keys can reach from the initial one:
    the closure of [contrast_init] under the two adjustments, found
    by repeated expansion. *)
Definition add_level (c : F64.t) (levels : list F64.t) : list F64.t :=
  if existsb (sf_same c) levels then levels else levels ++ [c].

Definition expand (levels : list F64.t) : list F64.t :=
  fold_left (fun acc c => add_level (contrast_down c) (add_level (contrast_up c) acc))
            levels levels.

Definition contrast_levels : list F64.t :=
  Eval vm_compute in Nat.iter 60 expand [contrast_init].

Definition in_bounds (c : F64.t) : bool :=
  F64.leb contrast_lo c && F64.leb c contrast_hi.

End Session.

(** ** Exhaustive checks of the normalisation *)

(** [flat_ok] under both promotion rules and at every contrast the
    keys can reach. *)
Definition flat_row (v : F32.t) : bool :=
  forallb (fun c => Normalizer.flat_ok Legacy v c && Normalizer.flat_ok Nep50 v c)
          Session.contrast_levels.

(** [ends_ok] under both promotion rules at the initial contrast, for
    whole-number extremes [lo < hi]. *)
Definition ends_cell (lo hi : Z) : bool :=
  if lo <? hi
  then Normalizer.ends_ok Legacy (F32.of_Z lo) (F32.of_Z hi) Session.contrast_init
       && Normalizer.ends_ok Nep50 (F32.of_Z lo) (F32.of_Z hi) Session.contrast_init
  else true.

(** Lines 196-197 on one sample, once the numerator and the divisor
    are binary32 values: divide, clip to [0, 1], scale by 255 and
    convert to 8 bits. *)
Definition finish (num den : F32.t) : Z :=
  Np.to_uint8 (Np.array_mul Legacy (Np.clip01 (Float32 (F32.div num den))) (PyInt 255)).

(** Half-integers [s / 2], and a whole number or a half-integer in
    the type the bounds of line 193 have under each promotion rule. *)
Definition half32 (s : Z) : F32.t := Ieee.scaled F32.prec F32.emax s (-1).
Definition half64 (s : Z) : F64.t := Ieee.scaled F64.prec F64.emax s (-1).

Definition whole_scalar (p : promotion) (n : Z) : scalar :=
  match p with
  | Legacy => Float64 (F64.of_Z n)
  | Nep50 => Float32 (F32.of_Z n)
  end.

Definition half_scalar (p : promotion) (s : Z) : scalar :=
  match p with
  | Legacy => Float64 (half64 s)
  | Nep50 => Float32 (half32 s)
  end.

(** *** Flat frames, contrast by contrast *)

(** On a flat frame the guard of line 191 makes the range the integer
    1, and line 193's [(t_range / 2) / contrast_boost] is a Python
    float that depends on the contrast alone. *)
Definition half_width (c : F64.t) : F64.t :=
  F64.div (F64.div (F64.of_Z 1) (F64.of_Z 2)) c.

(** Numerator and divisor of line 196, as the binary32 division
    receives them, on a flat frame of value [v].  Under NumPy 1 the
    bounds are binary64 values around [v64], the binary64 copy of [v];
    under NEP 50 they are binary32 values at distance [h32], the
    binary32 copy of the half width. *)
Definition cell : Type := (F32.t * F32.t)%type.

Definition legacy_cell (v : F32.t) (v64 half : F64.t) : cell :=
  let b_min := F64.sub v64 half in
  let b_max := F64.add v64 half in
  (F32.sub v (F32.round b_min), F32.round (F64.sub b_max b_min)).

Definition nep50_cell (v h32 : F32.t) : cell :=
  let b_min := F32.sub v h32 in
  let b_max := F32.add v h32 in
  (F32.sub v b_min, F32.sub b_max b_min).

Definition cell_same (a b : cell) : bool :=
  sf_same (fst a) (fst b) && sf_same (snd a) (snd b).

(** The division is by a non-zero number and the pixel is 127. *)
Definition cell_ok (a : cell) : bool :=
  (finish (fst a) (snd a) =? 127)
  && negb (F64.eqb (F64.round (snd a)) (F64.of_Z 0)).

(** The sample values of a smoothed flat frame that are not whole
    numbers of thirds already: the means of three bytes, and the odd
    halves. *)
Definition thirds : list F32.t := map (fun t => F32.of_ratio t 3) (zrange 766).
Definition odd_halves : list F32.t := map (fun k => F32.of_ratio (2 * k + 1) 2) (zrange 255).

(** For one contrast: the half width in both formats and the few
    distinct numerator and divisor pairs the sample values give. *)
Record contrast_row : Type := {
  row_contrast : F64.t;
  row_half : F64.t;
  row_half32 : F32.t;
  row_legacy : list cell;
  row_nep50 : list cell
}.

Definition add_cell (a : cell) (cells : list cell) : list cell :=
  if existsb (cell_same a) cells then cells else cells ++ [a].

Definition make_row (values : list F32.t) (c : F64.t) : contrast_row :=
  let half := half_width c in
  let h32 := F32.round half in
  {| row_contrast := c;
     row_half := half;
     row_half32 := h32;
     row_legacy :=
       fold_left (fun acc v => add_cell (legacy_cell v (F64.round v) half) acc) values [];
     row_nep50 :=
       fold_left (fun acc v => add_cell (nep50_cell v h32) acc) values [] |}.

Definition flat_table : list contrast_row :=
  Eval vm_compute in map (make_row (thirds ++ odd_halves)) Session.contrast_levels.

Definition row_sound (row : contrast_row) : bool :=
  sf_same (half_width (row_contrast row)) (row_half row)
  && sf_same (F32.round (row_half row)) (row_half32 row)
  && forallb cell_ok (row_legacy row)
  && forallb cell_ok (row_nep50 row).

Definition row_covers (v : F32.t) (v64 : F64.t) (row : contrast_row) : bool :=
  existsb (cell_same (legacy_cell v v64 (row_half row))) (row_legacy row)
  && existsb (cell_same (nep50_cell v (row_half32 row))) (row_nep50 row).

(** On a flat frame of value [v]: the range of line 191 is zero
    before the guard, and the midpoint of line 192 is [v] again. *)
Definition mid_ok (v : F32.t) : bool :=
  sf_same (F32.sub v v) (F32.of_Z 0)
  && sf_same (F32.div (F32.add v v) (F32.of_Z 2)) v
  && sf_same (F64.div (F64.round (F32.add v v)) (F64.of_Z 2)) (F64.round v).

Definition flat_cover (v : F32.t) : bool :=
  mid_ok v && forallb (row_covers v (F64.round v)) flat_table.

(** ** Device discovery and recovery (lines 8-91) *)

Module Discovery.

Local Open Scope string_scope.

Definition THERMAL_USB_VID : string := "2bdf".
Definition THERMAL_USB_PID : string := "0102".

(** One match of [/sys/bus/usb/devices/*/idVendor].  An attribute is
    what [open(...).read().strip()] gives, for the two numbers after
    [int(...)]; [None] stands for a read or a conversion that raises. *)
Record usb_entry : Type := {
  devdir : string;
  idVendor : option string;
  idProduct : option string;
  busnum : option Z;
  devnum : option Z
}.

(** One match of [/sys/class/video4linux/video*] with the path
    [os.path.realpath] resolves it to. *)
Record video_entry : Type := {
  vdev : string;
  realpath : string
}.

(** What the two globs see at one moment, in directory order. *)
Record sysfs : Type := {
  usb_devices : list usb_entry;
  video_nodes : list video_entry
}.

(** Lines 38-51. *)
Fixpoint find_thermal_usb_sysfs (devices : list usb_entry) : option string :=
  match devices with
  | [] => None
  | d :: rest =>
      match idVendor d with
      | None => find_thermal_usb_sysfs rest
      | Some vid =>
          if negb (vid =? THERMAL_USB_VID) then find_thermal_usb_sysfs rest
          else
            match idProduct d with
            | None => find_thermal_usb_sysfs rest
            | Some pid =>
                if pid =? THERMAL_USB_PID then Some (devdir d)
                else find_thermal_usb_sysfs rest
            end
      end
  end.

(** [os.path.basename]: what follows the last slash. *)
Fixpoint basename_from (acc path : string) : string :=
  match path with
  | EmptyString => acc
  | String c rest =>
      if Ascii.eqb c "/" then basename_from "" rest
      else basename_from (acc ++ String c "") rest
  end.
Definition basename : string -> string := basename_from "".

(** The operator [in] on strings. *)
Fixpoint contains (needle hay : string) : bool :=
  prefix needle hay ||
  match hay with
  | EmptyString => false
  | String _ rest => contains needle rest
  end.

Module VdevOrder <: TotalLeBool.
Definition t := video_entry.
Definition leb (a b : t) : bool := String.leb (vdev a) (vdev b).
Lemma leb_total : forall a b, leb a b = true \/ leb b a = true.
Proof. intros a b. apply String.leb_total. Qed.
End VdevOrder.
Module VdevSort := Sort VdevOrder.

Fixpoint first_under (usb_basename : string) (nodes : list video_entry)
  : option string :=
  match nodes with
  | [] => None
  | n :: rest =>
      if contains usb_basename (realpath n) then Some ("/dev/" ++ basename (vdev n))
      else first_under usb_basename rest
  end.

(** Lines 54-61. *)
Definition find_thermal_video_device (nodes : list video_entry) (sysfs_dir : string)
  : option string :=
  first_under (basename sysfs_dir) (VdevSort.sort nodes).

(** The format [03d]: the decimal digits, padded with zeros to three
    characters in all; the sign of a negative number counts as one of
    the three and comes first. *)
Definition format_03d (n : Z) : string :=
  let digits := DecimalString.NilZero.string_of_uint (N.to_uint (Z.to_N (Z.abs n))) in
  if (n <? 0)%Z then
    match String.length digits with
    | 1%nat => "-0" ++ digits
    | _ => "-" ++ digits
    end
  else
    match String.length digits with
    | 1%nat => "00" ++ digits
    | 2%nat => "0" ++ digits
    | _ => digits
    end.

(** What the script prints and does to the outside, in order. *)
Inductive message : Type :=
| Searching                    (* line 65 *)
| NotOnUsb                     (* line 69 *)
| FoundUsb (sysfs_dir : string) (* line 72 *)
| NoVideoBound                 (* line 76 *)
| Waiting (attempt : Z)        (* line 85 *)
| CannotFind                   (* line 88 *)
| FoundCamera (device : string) (* line 91 *)
| Resetting (usbfs : string)   (* line 27 *)
| ResetFailed.                 (* line 34 *)

Inductive event : Type :=
| Print (m : message)
| Ioctl (usbfs : string)       (* lines 28-30: the reset of this path is attempted *)
| Sleep (seconds : Z).

(** How start-up ends: the process exits, or goes on to open the
    capture device. *)
Inductive outcome : Type :=
| Exit (status : Z)
| Found (device : string).

Section Controller.

(** The machine outside the script.  [view] is what the globs and
    reads see and [sleep] the passing of time.  [reset] is what lines
    28-30 do on a usbfs path: the world the three calls leave, and
    whether all of them returned.  A call that raises may have acted
    already (the device can drop off the bus in the middle of the
    request), so a failed attempt may change the world as well. *)
Variable World : Type.
Variable view : World -> sysfs.
Variable reset : string -> World -> World * bool.
Variable sleep : Z -> World -> World.

(** Computations that act on the world and log what they do. *)
Definition M (A : Type) : Type := World -> A * World * list event.

Definition ret {A} (a : A) : M A := fun w => (a, w, []).

Definition bind {A B} (m : M A) (k : A -> M B) : M B :=
  fun w =>
    let '(a, w1, log1) := m w in
    let '(b, w2, log2) := k a w1 in
    (b, w2, (log1 ++ log2)%list).

Definition print (m : message) : M unit := fun w => (tt, w, [Print m]).
Definition time_sleep (s : Z) : M unit := fun w => (tt, sleep s w, [Sleep s]).
Definition scan : M (option string) :=
  fun w => (find_thermal_usb_sysfs (usb_devices (view w)), w, []).
Definition resolve (sysfs_dir : string) : M (option string) :=
  fun w => (find_thermal_video_device (video_nodes (view w)) sysfs_dir, w, []).
Definition listing : M (list usb_entry) :=
  fun w => (usb_devices (view w), w, []).
Definition ioctl_reset (usbfs : string) : M bool :=
  fun w => let '(w', ok) := reset usbfs w in (ok, w', [Ioctl usbfs]).

Notation "x <- m ;; k" := (bind m (fun x => k))
  (at level 61, m at next level, right associativity).
Notation "m ;;; k" := (bind m (fun _ => k))
  (at level 61, right associativity).

(** The loop of lines 15-35 over the globbed entries. *)
Fixpoint reset_first (devices : list usb_entry) : M bool :=
  match devices with
  | [] => ret false
  | d :: rest =>
      let failed := print ResetFailed ;;; reset_first rest in
      match idVendor d with
      | None => failed
      | Some vid =>
          if negb (vid =? THERMAL_USB_VID) then reset_first rest
          else
            match idProduct d with
            | None => failed
            | Some pid =>
                if negb (pid =? THERMAL_USB_PID) then reset_first rest
                else
                  match busnum d, devnum d with
                  | Some b, Some n =>
                      let usbfs := "/dev/bus/usb/" ++ format_03d b ++ "/" ++ format_03d n in
                      print (Resetting usbfs) ;;;
                      ok <- ioctl_reset usbfs ;;
                      if ok then time_sleep 2 ;;; ret true else failed
                  | _, _ => failed
                  end
            end
      end
  end.

(** Lines 13-35. *)
Definition usb_reset_thermal : M bool :=
  devices <- listing ;; reset_first devices.

(** One scan followed, when a device matched, by one resolution. *)
Definition probe : M (option string) :=
  sysfs_dir <- scan ;;
  match sysfs_dir with
  | Some s => resolve s
  | None => ret None
  end.

(** Lines 78-85: what is left of [for attempt in range(5)] when
    [remaining] rounds are still to run. *)
Fixpoint wait_for_device (remaining : nat) (attempt : Z) : M (option string) :=
  match remaining with
  | O => ret None
  | S remaining' =>
      time_sleep 1 ;;;
      device <- probe ;;
      match device with
      | Some d => ret (Some d)
      | None =>
          print (Waiting (attempt + 1)) ;;;
          wait_for_device remaining' (attempt + 1)
      end
  end.

(** Lines 75-85. *)
Definition recover : M (option string) :=
  print NoVideoBound ;;;
  _ <- usb_reset_thermal ;;
  wait_for_device 5 0.

(** Lines 65-91. *)
Definition startup : M outcome :=
  print Searching ;;;
  sysfs_dir <- scan ;;
  match sysfs_dir with
  | None => print NotOnUsb ;;; ret (Exit 1)
  | Some s =>
      print (FoundUsb s) ;;;
      device <- resolve s ;;
      device <- match device with
                | Some d => ret (Some d)
                | None => recover
                end ;;
      match device with
      | None => print CannotFind ;;; ret (Exit 1)
      | Some d => print (FoundCamera d) ;;; ret (Found d)
      end
  end.

(** What one probe finds in a given world, as a plain function. *)
Definition resolved (w : World) : option string :=
  match find_thermal_usb_sysfs (usb_devices (view w)) with
  | Some s => find_thermal_video_device (video_nodes (view w)) s
  | None => None
  end.

(** The world [k] one-second sleeps later. *)
Fixpoint after_sleeps (k : nat) (w : World) : World :=
  match k with
  | O => w
  | S k' => after_sleeps k' (sleep 1 w)
  end.

(** The log of [k] rounds that found nothing, the first of them
    being round number [attempt]. *)
Fixpoint waiting_log (attempt : Z) (k : nat) : list event :=
  match k with
  | O => []
  | S k' => Sleep 1 :: Print (Waiting (attempt + 1)) :: waiting_log (attempt + 1) k'
  end.

End Controller.

Arguments ret {World A} a.
Arguments bind {World A B} m k.
Arguments print {World} m.
Arguments time_sleep {World} sleep s.
Arguments scan {World} view.
Arguments resolve {World} view sysfs_dir.
Arguments listing {World} view.
Arguments ioctl_reset {World} reset usbfs.
Arguments reset_first {World} reset sleep devices.
Arguments usb_reset_thermal {World} view reset sleep.
Arguments probe {World} view.
Arguments wait_for_device {World} view sleep remaining attempt.
Arguments recover {World} view reset sleep.
Arguments startup {World} view reset sleep.
Arguments resolved {World} view w.
Arguments after_sleeps {World} sleep k w.

Definition is_ioctl (e : event) : bool :=
  match e with Ioctl _ => true | _ => false end.

(** Both device numbers of an entry can be read. *)
Definition numbered (d : usb_entry) : bool :=
  match busnum d, devnum d with
  | Some _, Some _ => true
  | _, _ => false
  end.

End Discovery.

(** ** A bench world *)

(** A machine with a root hub and, when plugged, the camera as device
    4 on bus 1, port 3.  Its video node is missing until the port has
    been reset and [settle] more seconds have passed. *)
Module Bench.

Import Discovery.
Local Open Scope string_scope.

Record world : Type := {
  plugged : bool;
  settle : option Z
}.

Definition hub : usb_entry :=
  {| devdir := "/sys/bus/usb/devices/usb1";
     idVendor := Some "1d6b"; idProduct := Some "0002";
     busnum := Some 1; devnum := Some 1 |}.

Definition camera : usb_entry :=
  {| devdir := "/sys/bus/usb/devices/1-3";
     idVendor := Some "2bdf"; idProduct := Some "0102";
     busnum := Some 1; devnum := Some 4 |}.

Definition webcam_node : video_entry :=
  {| vdev := "/sys/class/video4linux/video0";
     realpath := "/sys/devices/pci0000:00/0000:00:14.0/usb1/1-7/1-7:1.0/video4linux/video0" |}.

Definition camera_node : video_entry :=
  {| vdev := "/sys/class/video4linux/video2";
     realpath := "/sys/devices/pci0000:00/0000:00:14.0/usb1/1-3/1-3:1.0/video4linux/video2" |}.

Definition bound (w : world) : bool :=
  match settle w with
  | Some t => (t <=? 0)%Z
  | None => false
  end.

Definition view (w : world) : sysfs :=
  {| usb_devices := if plugged w then [hub; camera] else [hub];
     video_nodes := if plugged w && bound w then [camera_node; webcam_node]
                    else [webcam_node] |}.

(** A reset of the camera's usbfs file makes the node appear five
    seconds later; any other path cannot be opened. *)
Definition reset (usbfs : string) (w : world) : world * bool :=
  if plugged w && (usbfs =? "/dev/bus/usb/001/004")
  then ({| plugged := true; settle := Some 5 |}, true)
  else (w, false).

Definition sleep (s : Z) (w : world) : world :=
  {| plugged := plugged w;
     settle := match settle w with Some t => Some (t - s)%Z | None => None end |}.

Definition unplugged : world := {| plugged := false; settle := None |}.
Definition unbound : world := {| plugged := true; settle := None |}.

End Bench.

(** ** Vocabulary of the statements *)

(** An entry of the bus reads as the camera: both identifiers can be
    read and are the camera's. *)
Definition is_camera (d : Discovery.usb_entry) : bool :=
  match Discovery.idVendor d, Discovery.idProduct d with
  | Some vid, Some pid =>
      String.eqb vid Discovery.THERMAL_USB_VID && String.eqb pid Discovery.THERMAL_USB_PID
  | _, _ => false
  end.

(** [needle] occurs in [hay]. *)
Definition occurs_in (needle hay : string) : Prop :=
  exists before after : string, hay = (before ++ needle ++ after)%string.

(** No slash in a file name. *)
Fixpoint slash_free (s : string) : bool :=
  match s with
  | EmptyString => true
  | String c rest => negb (Ascii.eqb c "/") && slash_free rest
  end.

(** The number a string of decimal digits denotes. *)
Definition decimal_value (s : string) : option Z :=
  option_map (fun d => Z.of_N (N.of_uint d)) (DecimalString.NilZero.uint_of_string s).

Definition is_sleep (e : Discovery.event) : bool :=
  match e with Discovery.Sleep _ => true | _ => false end.

(** The note of line 34, and nothing else. *)
Definition is_failure_note (e : Discovery.event) : bool :=
  match e with Discovery.Print Discovery.ResetFailed => true | _ => false end.

(** The frame line 177 builds from a buffer, position by position:
    sample (r, c) is the byte at offset [2 * (r * cols + c)]. *)
Definition luma_grid (rows cols : nat) (raw_bytes : list byte) : frame :=
  map (fun r => map (fun c => Extract.float32_of_byte
                                (nth (2 * (r * cols + c)) raw_bytes x00))
                    (seq 0 cols))
      (seq 0 rows).

(** A grid of [rows] by [cols] items. *)
Definition has_shape {A} (rows cols : nat) (g : list (list A)) : Prop :=
  List.length g = rows /\ Forall (fun row => List.length row = cols) g.

(** The keys the loop binds, as [ord] gives them. *)
Definition bound_keys : list Z :=
  map Session.ord ["q"; "s"; "c"; "+"; "="; "-"]%char.

(** What the loop relies on from one iteration to the next: the
    buffer holds at most [SMOOTH_FRAMES] frames, each of the sensor's
    shape, and the palette index points into [COLORMAPS]. *)
Definition well_formed (st : Session.state) : Prop :=
  Forall (has_shape Extract.h Extract.w) (Session.frame_buffer st) /\
  (List.length (Session.frame_buffer st) <= Smoother.SMOOTH_FRAMES)%nat /\
  0 <= Session.cmap_idx st < Z.of_nat (List.length Session.COLORMAPS).

(** The loop of lines 164-261 over the captures and key codes of its
    first iterations: it goes on while an iteration continues. *)
Fixpoint main_loop (p : promotion) (st : Session.state)
         (captures : list (bool * list byte * Z)) : Session.control * Session.state :=
  match captures with
  | [] => (Session.Continue, st)
  | (ret, raw_bytes, waitKey) :: rest =>
      match Session.iteration p st ret raw_bytes waitKey with
      | (Session.Continue, st', _) => main_loop p st' rest
      | (ctl, st', _) => (ctl, st')
      end
  end.

(** A key sequence for every contrast value the keys can reach, found
    along with the values by the same expansion as [contrast_levels]. *)
Definition add_path (kc : list Z * F64.t) (paths : list (list Z * F64.t))
  : list (list Z * F64.t) :=
  if existsb (fun q => sf_same (snd kc) (snd q)) paths then paths else paths ++ [kc].

Definition expand_paths (paths : list (list Z * F64.t)) : list (list Z * F64.t) :=
  fold_left (fun acc kc =>
               add_path (fst kc ++ [Session.ord "-"], Session.contrast_down (snd kc))
                        (add_path (fst kc ++ [Session.ord "+"], Session.contrast_up (snd kc))
                                  acc))
            paths paths.

Definition contrast_paths : list (list Z * F64.t) :=
  Eval vm_compute in Nat.iter 60 expand_paths [([], Session.contrast_init)].

(** No value occurs twice. *)
Fixpoint distinct (l : list F64.t) : bool :=
  match l with
  | [] => true
  | x :: rest => negb (existsb (sf_same x) rest) && distinct rest
  end.

(** A frame of whole numbers, as the extractor delivers them. *)
Definition whole_frame (zs : list (list Z)) : frame := map (map F32.of_Z) zs.

(** The whole numbers from 0 to 255 with their binary32 values, and
    the check that binary32 orders them as the integers are. *)
Definition whole32 : list (Z * F32.t) := map (fun n => (n, F32.of_Z n)) (zrange 256).

Definition order_row (l : list (Z * F32.t)) (a : Z * F32.t) : bool :=
  forallb (fun b => Bool.eqb (F32.ltb (snd a) (snd b)) (fst a <? fst b)) l.

(** The 8-bit value of a whole-number sample [z] of a frame whose
    extremes are [lo] and [hi], at the initial contrast. *)
Definition stretch (lo hi z : Z) : Z :=
  if lo =? hi then 127 else finish (F32.of_Z (z - lo)) (F32.of_Z (hi - lo)).

(** The seconds a log has slept in all. *)
Definition slept (log : list Discovery.event) : Z :=
  fold_right (fun e total => match e with
                             | Discovery.Sleep s => s + total
                             | _ => total
                             end) 0 log.

(** The luma bytes of a buffer as numbers, position by position, and
    the least and the greatest number of a grid. *)
Definition luma_values (rows cols : nat) (raw_bytes : list byte) : list (list Z) :=
  map (fun r => map (fun c => Smoother.byte_value (nth (2 * (r * cols + c)) raw_bytes x00))
                    (seq 0 cols))
      (seq 0 rows).

Definition grid_min (zs : list (list Z)) : Z :=
  match List.concat zs with
  | [] => 0
  | x :: rest => fold_left Z.min rest x
  end.

Definition grid_max (zs : list (list Z)) : Z :=
  match List.concat zs with
  | [] => 0
  | x :: rest => fold_left Z.max rest x
  end.

(** ** Overlays (lines 108, 136-161, 216-220) *)

Module Overlay.

Local Open Scope string_scope.

Definition OUT_W : Z := 768.
Definition OUT_H : Z := 576.

(** Lines 217-220: a location of the sensor grid, column first as
    [cv2.minMaxLoc] gives it, scaled to the output image.  The factors
    are Python floats, the products are truncated by [int]. *)
Definition display_point (loc : Z * Z) : Z * Z :=
  let sx := F64.div (F64.of_Z OUT_W) (F64.of_Z (Z.of_nat Extract.w)) in
  let sy := F64.div (F64.of_Z OUT_H) (F64.of_Z (Z.of_nat Extract.h)) in
  (trunc (F64.mul (F64.of_Z (fst loc)) sx), trunc (F64.mul (F64.of_Z (snd loc)) sy)).

(** Line 150. *)
Definition labels : list string := ["HOT"; ""; ""; ""; ""; ""; "COLD"].

(** Lines 154-155: the row of label number [i] on a bar of [h] rows. *)
Definition label_row (h i : Z) : Z :=
  let y := trunc (F64.div (F64.of_Z (h * i))
                          (F64.of_Z (Z.of_nat (List.length labels) - 1))) in
  Z.max 12 (Z.min y (h - 5)).

(** Lines 151-158: the labels that are drawn, each with the row of
    its tick mark; the text goes four rows below. *)
Fixpoint drawn_from (h i : Z) (ls : list string) : list (string * Z) :=
  match ls with
  | [] => []
  | label :: rest =>
      if label =? "" then drawn_from h (i + 1) rest
      else (label, label_row h i) :: drawn_from h (i + 1) rest
  end.

Definition drawn_labels (h : Z) : list (string * Z) := drawn_from h 0 labels.

End Overlay.

(** * Properties *)

(** ** Palette cycling *)

Lemma palette_count : Z.of_nat (List.length Session.COLORMAPS) = 6.
Proof. reflexivity. Qed.

Lemma next_palette_range (idx : Z) : 0 <= Session.next_palette idx < 6.
Proof.
  unfold Session.next_palette. rewrite palette_count.
  apply Z.mod_pos_bound. lia.
Qed.

(** C7.  The palette key advances the index by one modulo the six
    entries of [COLORMAPS] and touches nothing else; from any index of
    the table, six presses in a row give the state back. *)
Theorem palette_cycle_order_six (st : Session.state) :
  0 <= Session.cmap_idx st < 6 ->
  List.length Session.COLORMAPS = 6%nat /\
  Session.handle_key (Session.ord "c") st =
    (Session.Continue,
     {| Session.frame_buffer := Session.frame_buffer st;
        Session.cmap_idx := (Session.cmap_idx st + 1) mod 6;
        Session.contrast_boost := Session.contrast_boost st |}) /\
  0 <= (Session.cmap_idx st + 1) mod 6 < 6 /\
  Session.press (repeat (Session.ord "c") 6) st = st.
Proof.
  intros Hidx. destruct st as [fb idx c]. simpl in Hidx.
  split; [reflexivity|]. split; [reflexivity|].
  split; [apply Z.mod_pos_bound; lia|].
  assert (Hcases : idx = 0 \/ idx = 1 \/ idx = 2 \/ idx = 3 \/ idx = 4 \/ idx = 5) by lia.
  destruct Hcases as [-> | [-> | [-> | [-> | [-> | ->]]]]]; reflexivity.
Qed.

Lemma palette_cycle_order_six_witness :
  Session.press (repeat (Session.ord "c") 6) Session.initial = Session.initial.
Proof.
  apply (palette_cycle_order_six Session.initial). simpl. lia.
Defined.

(** ** Key bindings of the contrast *)

(** C10.  The codes of [=] and [+] take the same branch: on every
    state they give the same control and the same next state, whose
    contrast is [min(contrast_boost + 0.2, 5.0)], and a whole iteration
    that reads one or the other ends in the same way. *)
Theorem equals_key_is_contrast_up (p : promotion) (st : Session.state)
        (ret : bool) (raw_bytes : list byte) :
  Session.handle_key (Session.ord "=") st = Session.handle_key (Session.ord "+") st /\
  Session.contrast_boost (snd (Session.handle_key (Session.ord "=") st)) =
    py_min (F64.add (Session.contrast_boost st) Session.contrast_step) Session.contrast_hi /\
  Session.iteration p st ret raw_bytes (Session.ord "=") =
    Session.iteration p st ret raw_bytes (Session.ord "+").
Proof.
  split; [reflexivity|]. split; [reflexivity|].
  unfold Session.iteration.
  destruct (negb ret); [reflexivity|].
  destruct (Extract.extract_y Extract.h Extract.w raw_bytes) as [gray|why]; [|reflexivity].
  destruct (Smoother.smooth (Session.frame_buffer st) gray) as [buffer thermal].
  destruct thermal as [thermal|]; [|reflexivity].
  destruct (Normalizer.normalize p thermal _) as [img|]; reflexivity.
Qed.

(** ** Dropped captures *)

(** C9.  When [cap.read] reports failure, or the flattened buffer is
    shorter than h*w*2 bytes, the iteration continues with the state it
    started from: frame buffer, palette index and contrast are the
    same, nothing is displayed and no key is handled. *)
Theorem dropped_capture_keeps_state (p : promotion) (st : Session.state)
        (ret : bool) (raw_bytes : list byte) (waitKey : Z) :
  ret = false \/ (List.length raw_bytes < Extract.h * Extract.w * 2)%nat ->
  Session.iteration p st ret raw_bytes waitKey = (Session.Continue, st, None).
Proof.
  intros [-> | Hshort]; [reflexivity|].
  unfold Session.iteration, Extract.extract_y.
  destruct (negb ret); [reflexivity|].
  apply Nat.ltb_lt in Hshort. rewrite Hshort. reflexivity.
Qed.

Lemma dropped_capture_keeps_state_witness :
  Session.iteration Nep50 Session.initial true [x00; x01; x02]%byte (Session.ord "+")
  = (Session.Continue, Session.initial, None).
Proof.
  apply dropped_capture_keeps_state. right.
  unfold Extract.h, Extract.w. simpl List.length. lia.
Defined.

(** ** Channel extraction *)

Lemma float32_of_byte_exact (b : byte) :
  trunc (Extract.float32_of_byte b) = Z.of_N (Byte.to_N b).
Proof. destruct b; vm_compute; reflexivity. Qed.

Lemma extract_y_short (rows cols : nat) (raw_bytes : list byte) :
  Extract.extract_y rows cols raw_bytes = Drop InsufficientData <->
  (List.length raw_bytes < rows * cols * 2)%nat.
Proof.
  unfold Extract.extract_y.
  destruct (Nat.ltb_spec (List.length raw_bytes) (rows * cols * 2)) as [Hlt | Hge].
  - split; [intros _; exact Hlt | reflexivity].
  - split; [discriminate | lia].
Qed.

Lemma extract_y_origin (rows cols : nat) (raw_bytes : list byte) :
  (0 < rows)%nat -> (0 < cols)%nat ->
  (rows * cols * 2 <= List.length raw_bytes)%nat ->
  exists gray b0,
    Extract.extract_y rows cols raw_bytes = Ok gray /\
    nth_error raw_bytes 0 = Some b0 /\
    Extract.at_ gray 0 0 = Some (Extract.float32_of_byte b0).
Proof.
  intros Hrows Hcols Hlen. unfold Extract.extract_y.
  destruct (Nat.ltb_spec (List.length raw_bytes) (rows * cols * 2)) as [Hlt | _]; [lia|].
  destruct rows as [|r]; [lia|]. destruct cols as [|c]; [lia|].
  destruct raw_bytes as [|b0 [|b1 rest]]; simpl in Hlen; try lia.
  eexists. exists b0. split; [reflexivity|]. split; [reflexivity|].
  replace (S r * S c * 2)%nat with (S (S ((c + r * S c) * 2))) by lia.
  replace (S c * 2)%nat with (S (S (c * 2))) by lia.
  reflexivity.
Qed.

(** C3.  For a sensor of [rows] by [cols] pixels, extraction drops the
    frame for insufficient data exactly when the buffer holds fewer
    than rows*cols*2 bytes, so also at one byte less than that; on any
    longer buffer it gives a frame whose sample at row 0, column 0 is
    byte 0 of the buffer converted to binary32, a conversion that
    keeps the byte's value. *)
Theorem extract_y_length_guard (rows cols : nat) (raw_bytes : list byte) :
  (0 < rows)%nat -> (0 < cols)%nat ->
  (Extract.extract_y rows cols raw_bytes = Drop InsufficientData <->
   (List.length raw_bytes < rows * cols * 2)%nat) /\
  (List.length raw_bytes = (rows * cols * 2 - 1)%nat ->
   Extract.extract_y rows cols raw_bytes = Drop InsufficientData) /\
  ((rows * cols * 2 <= List.length raw_bytes)%nat ->
   exists gray b0,
     Extract.extract_y rows cols raw_bytes = Ok gray /\
     nth_error raw_bytes 0 = Some b0 /\
     Extract.at_ gray 0 0 = Some (Extract.float32_of_byte b0) /\
     trunc (Extract.float32_of_byte b0) = Z.of_N (Byte.to_N b0)).
Proof.
  intros Hrows Hcols. split; [apply extract_y_short|]. split.
  - intros Hlen. apply extract_y_short.
    assert (0 < rows * cols * 2)%nat by nia. lia.
  - intros Hlen.
    destruct (extract_y_origin rows cols raw_bytes Hrows Hcols Hlen)
      as (gray & b0 & Hok & Hb0 & Hat).
    exists gray, b0. repeat split; try assumption.
    apply float32_of_byte_exact.
Qed.

Lemma extract_y_length_guard_witness :
  Extract.extract_y 1 2 [x07; x80; x09; x80]%byte
  = Ok [[Extract.float32_of_byte x07; Extract.float32_of_byte x09]] /\
  Extract.extract_y 1 2 [x07; x80; x09]%byte = Drop InsufficientData.
Proof.
  assert (Hrows : (0 < 1)%nat) by lia.
  assert (Hcols : (0 < 2)%nat) by lia.
  split.
  - reflexivity.
  - apply (proj1 (proj2 (extract_y_length_guard 1 2 [x07; x80; x09]%byte Hrows Hcols))).
    reflexivity.
Defined.

(** ** Discovery and recovery *)

Section ControllerFacts.

Import Discovery.

Variable World : Type.
Variable view : World -> sysfs.
Variable reset : string -> World -> World * bool.
Variable sleep : Z -> World -> World.

Local Abbreviation probe_ := (probe view).
Local Abbreviation resolved_ := (resolved view).
Local Abbreviation after_ := (Discovery.after_sleeps sleep).
Local Abbreviation wait_ := (Discovery.wait_for_device view sleep).

Lemma probe_resolved (w : World) : probe_ w = (resolved_ w, w, []).
Proof.
  unfold Discovery.probe, Discovery.resolved, bind, scan, resolve, ret.
  destruct (find_thermal_usb_sysfs (usb_devices (view w))); reflexivity.
Qed.

Lemma wait_step (n : nat) (attempt : Z) (w : World) :
  wait_ (S n) attempt w =
  match resolved_ (sleep 1 w) with
  | Some d => (Some d, sleep 1 w, [Sleep 1])
  | None =>
      let '(r, w', log) := wait_ n (attempt + 1) (sleep 1 w) in
      (r, w', Sleep 1 :: Print (Waiting (attempt + 1)) :: log)
  end.
Proof.
  cbn [Discovery.wait_for_device]. unfold bind at 1 2, time_sleep.
  rewrite probe_resolved.
  destruct (resolved_ (sleep 1 w)) as [d|]; [reflexivity|].
  unfold bind, print.
  destruct (Discovery.wait_for_device view sleep n (attempt + 1) (sleep 1 w)) as [[r w'] log].
  reflexivity.
Qed.

(** Every round finds nothing: the loop runs to its end. *)
Lemma wait_exhausted (n : nat) : forall (attempt : Z) (w : World),
  (forall k, (k < n)%nat -> resolved_ (after_ (S k) w) = None) ->
  wait_ n attempt w = (None, after_ n w, waiting_log attempt n).
Proof.
  induction n as [|n IH]; intros attempt w Hnone; [reflexivity|].
  rewrite wait_step.
  pose proof (Hnone 0%nat ltac:(lia)) as H0. cbn [Discovery.after_sleeps] in H0.
  rewrite H0.
  rewrite IH; [reflexivity|].
  intros k Hk. apply (Hnone (S k)). lia.
Qed.

(** Round [k] is the first to find a node: the loop stops there. *)
Lemma wait_found (n : nat) : forall (attempt : Z) (w : World) (k : nat) (d : string),
  (k < n)%nat ->
  resolved_ (after_ (S k) w) = Some d ->
  (forall j, (j < k)%nat -> resolved_ (after_ (S j) w) = None) ->
  wait_ n attempt w =
    (Some d, after_ (S k) w, (waiting_log attempt k ++ [Sleep 1])%list).
Proof.
  induction n as [|n IH]; intros attempt w k d Hk Hd Hbefore; [lia|].
  rewrite wait_step. destruct k as [|k].
  - cbn [Discovery.after_sleeps] in Hd. rewrite Hd. reflexivity.
  - pose proof (Hbefore 0%nat ltac:(lia)) as H0. cbn [Discovery.after_sleeps] in H0.
    rewrite H0.
    rewrite (IH (attempt + 1) (sleep 1 w) k d); [reflexivity | lia | exact Hd |].
    intros j Hj. apply (Hbefore (S j)). lia.
Qed.

(** The loop never sleeps more often than it has rounds. *)
Lemma wait_bounded (n : nat) : forall (attempt : Z) (w : World),
  exists rounds, (rounds <= n)%nat /\
    snd (fst (wait_ n attempt w)) = after_ rounds w.
Proof.
  induction n as [|n IH]; intros attempt w.
  - exists 0%nat. split; [lia | reflexivity].
  - rewrite wait_step. destruct (resolved_ (sleep 1 w)) as [d|].
    + exists 1%nat. split; [lia | reflexivity].
    + destruct (IH (attempt + 1) (sleep 1 w)) as (rounds & Hle & Hw).
      destruct (Discovery.wait_for_device view sleep n (attempt + 1) (sleep 1 w))
        as [[r w'] log].
      exists (S rounds). split; [lia | exact Hw].
Qed.

(** When a device matches and its numbers can be read, the reset
    function reaches the reset request. *)
Lemma reset_first_reaches_ioctl (devices : list usb_entry) :
  forall (w : World) (s : string),
    find_thermal_usb_sysfs devices = Some s ->
    forallb numbered devices = true ->
    exists usbfs, In (Ioctl usbfs) (snd (reset_first reset sleep devices w)).
Proof.
  induction devices as [|d rest IH]; intros w s Hfind Hnum; [discriminate|].
  cbn [forallb] in Hnum. apply andb_true_iff in Hnum. destruct Hnum as [Hd Hrest].
  cbn [find_thermal_usb_sysfs] in Hfind. cbn [reset_first].
  assert (Hfailed : forall s', find_thermal_usb_sysfs rest = Some s' ->
            exists usbfs, In (Ioctl usbfs)
              (snd (bind (print ResetFailed) (fun _ => reset_first reset sleep rest) w))).
  { intros s' Hs'. destruct (IH w s' Hs' Hrest) as [u Hu].
    exists u. unfold bind, print.
    destruct (reset_first reset sleep rest w) as [[ok w'] log].
    right. exact Hu. }
  destruct (idVendor d) as [vid|]; [|eauto].
  destruct (negb (vid =? THERMAL_USB_VID)%string); [eauto|].
  destruct (idProduct d) as [pid|]; [|eauto].
  destruct (pid =? THERMAL_USB_PID)%string; cbn [negb]; [|eauto].
  unfold numbered in Hd.
  destruct (busnum d) as [b|]; [|discriminate].
  destruct (devnum d) as [n|]; [|discriminate].
  eexists. unfold bind at 1 2, print, ioctl_reset.
  destruct (reset _ w) as [w' [|]].
  - unfold bind, time_sleep, ret. right. left. reflexivity.
  - unfold bind, print.
    destruct (reset_first reset sleep rest w') as [[ok w''] log].
    right. left. reflexivity.
Qed.

(** C5.  When no entry of the bus carries the camera's vendor and
    product identifiers, start-up ends with exit status 1 after the
    two messages of lines 65 and 69: the world is as it was, and the
    log holds no reset request and no sleep. *)
Theorem no_matching_device_exits_without_reset (w : World) :
  find_thermal_usb_sysfs (usb_devices (view w)) = None ->
  startup view reset sleep w = (Exit 1, w, [Print Searching; Print NotOnUsb]) /\
  existsb is_ioctl (snd (startup view reset sleep w)) = false.
Proof.
  intros Hscan.
  assert (Hrun : startup view reset sleep w
                 = (Exit 1, w, [Print Searching; Print NotOnUsb])).
  { unfold startup, bind, print, scan, ret. rewrite Hscan. reflexivity. }
  split; [exact Hrun|]. rewrite Hrun. reflexivity.
Qed.

Lemma startup_unbound (w : World) (s : string) :
  find_thermal_usb_sysfs (usb_devices (view w)) = Some s ->
  find_thermal_video_device (video_nodes (view w)) s = None ->
  startup view reset sleep w =
  let '(_, w1, reset_log) := usb_reset_thermal view reset sleep w in
  let '(device, w2, wait_log) := wait_ 5%nat 0 w1 in
  let prefix := [Print Searching; Print (FoundUsb s); Print NoVideoBound] in
  match device with
  | None => (Exit 1, w2, prefix ++ reset_log ++ wait_log ++ [Print CannotFind])
  | Some d => (Found d, w2, prefix ++ reset_log ++ wait_log ++ [Print (FoundCamera d)])
  end%list.
Proof.
  intros Hscan Hnode.
  unfold startup, recover, bind, print, scan, resolve, ret.
  rewrite Hscan, Hnode.
  destruct (usb_reset_thermal view reset sleep w) as [[ok w1] reset_log].
  destruct (Discovery.wait_for_device view sleep 5 0 w1) as [[device w2] wait_log].
  destruct device as [d|]; cbn [app]; rewrite ?app_nil_r, <- ?app_assoc; reflexivity.
Qed.

(** C6.  A device matches but no video node resolves.  Start-up then
    calls the reset function once and polls: each round sleeps one
    second and probes again, five rounds at most.
    - If all five rounds find nothing, it exits with status 1, five
      one-second sleeps after the reset.
    - If round [k] (counted from 0) is the first to resolve a node,
      it ends with that node after exactly [k + 1] sleeps.
    - In every case the number of one-second sleeps is at most 5.
    - When the device numbers of the bus entries can be read, the
      reset function issues the reset request. *)
Theorem unbound_device_reset_then_five_polls (w : World) (s : string) :
  find_thermal_usb_sysfs (usb_devices (view w)) = Some s ->
  find_thermal_video_device (video_nodes (view w)) s = None ->
  let w1 := snd (fst (usb_reset_thermal view reset sleep w)) in
  let reset_log := snd (usb_reset_thermal view reset sleep w) in
  let prefix := [Print Searching; Print (FoundUsb s); Print NoVideoBound] in
  ((forall k, (k < 5)%nat -> resolved_ (after_ (S k) w1) = None) ->
   startup view reset sleep w =
     (Exit 1, after_ 5 w1,
      prefix ++ reset_log ++ waiting_log 0 5 ++ [Print CannotFind])%list) /\
  (forall (k : nat) (d : string),
      (k < 5)%nat ->
      resolved_ (after_ (S k) w1) = Some d ->
      (forall j, (j < k)%nat -> resolved_ (after_ (S j) w1) = None) ->
      startup view reset sleep w =
        (Found d, after_ (S k) w1,
         prefix ++ reset_log ++ (waiting_log 0 k ++ [Sleep 1])
                ++ [Print (FoundCamera d)])%list) /\
  (exists rounds, (rounds <= 5)%nat /\
      snd (fst (startup view reset sleep w)) = after_ rounds w1) /\
  (forallb numbered (usb_devices (view w)) = true ->
   exists usbfs, In (Ioctl usbfs) reset_log).
Proof.
  intros Hscan Hnode w1 reset_log prefix.
  pose proof (startup_unbound w s Hscan Hnode) as Hrun.
  subst w1 reset_log prefix.
  destruct (usb_reset_thermal view reset sleep w) as [[ok w1] reset_log] eqn:Hreset.
  cbn [fst snd]. repeat split.
  - intros Hnone. rewrite Hrun.
    rewrite (wait_exhausted 5 0 w1 Hnone). reflexivity.
  - intros k d Hk Hd Hbefore. rewrite Hrun.
    rewrite (wait_found 5 0 w1 k d Hk Hd Hbefore). reflexivity.
  - destruct (wait_bounded 5 0 w1) as (rounds & Hle & Hw).
    exists rounds. split; [exact Hle|]. rewrite Hrun.
    destruct (Discovery.wait_for_device view sleep 5 0 w1) as [[device w2] wait_log].
    cbn [fst snd] in Hw. destruct device; exact Hw.
  - intros Hnum.
    destruct (reset_first_reaches_ioctl (usb_devices (view w)) w s Hscan Hnum)
      as [usbfs Hin].
    exists usbfs. unfold usb_reset_thermal, bind, listing in Hreset.
    destruct (reset_first reset sleep (usb_devices (view w)) w) as [[ok' w'] log'].
    cbn [snd] in Hin. inversion Hreset; subst. exact Hin.
Qed.

End ControllerFacts.

Lemma no_matching_device_exits_without_reset_witness :
  Discovery.startup Bench.view Bench.reset Bench.sleep Bench.unplugged
  = (Discovery.Exit 1, Bench.unplugged,
     [Discovery.Print Discovery.Searching; Discovery.Print Discovery.NotOnUsb]).
Proof.
  apply (no_matching_device_exits_without_reset
           Bench.world Bench.view Bench.reset Bench.sleep Bench.unplugged).
  reflexivity.
Defined.

(** On the bench the node comes back five seconds after the reset:
    two of them pass inside the reset function, so the first two
    rounds find nothing and the third one resolves. *)
Lemma unbound_device_reset_then_five_polls_witness :
  fst (fst (Discovery.startup Bench.view Bench.reset Bench.sleep Bench.unbound))
  = Discovery.Found "/dev/video2".
Proof.
  pose proof (unbound_device_reset_then_five_polls
                Bench.world Bench.view Bench.reset Bench.sleep Bench.unbound
                "/sys/bus/usb/devices/1-3" eq_refl eq_refl) as H.
  destruct H as [_ [Hfound _]].
  rewrite (Hfound 2%nat "/dev/video2"%string).
  - reflexivity.
  - lia.
  - reflexivity.
  - intros j Hj. destruct j as [|[|j]]; [reflexivity | reflexivity | lia].
Defined.

(** ** Temporal smoothing *)

Lemma push_last_frames (history : list frame) (gray : frame) :
  Smoother.push (Smoother.last_frames Smoother.SMOOTH_FRAMES history) gray
  = Smoother.last_frames Smoother.SMOOTH_FRAMES (history ++ [gray]).
Proof.
  unfold Smoother.push, Smoother.last_frames, Smoother.SMOOTH_FRAMES.
  rewrite !length_app, length_skipn. cbn [List.length].
  destruct (Nat.ltb_spec 3 (List.length history
              - (List.length history - Nat.min 3 (List.length history)) + 1)) as [Hfull | Hroom].
  - assert (Hlen : (3 <= List.length history)%nat) by lia.
    replace (List.length history - Nat.min 3 (List.length history))%nat
      with (List.length history - 3)%nat by lia.
    replace (List.length history + 1 - Nat.min 3 (List.length history + 1))%nat
      with (1 + (List.length history - 3))%nat by lia.
    rewrite <- skipn_skipn.
    rewrite skipn_app.
    replace (List.length history - 3 - List.length history)%nat with 0%nat by lia.
    cbn [skipn].
    destruct (skipn (List.length history - 3) history) as [|x t] eqn:Hskip.
    + apply (f_equal (@List.length frame)) in Hskip.
      rewrite length_skipn in Hskip. cbn in Hskip. lia.
    + reflexivity.
  - replace (List.length history - Nat.min 3 (List.length history))%nat with 0%nat by lia.
    replace (List.length history + 1 - Nat.min 3 (List.length history + 1))%nat
      with 0%nat by lia.
    reflexivity.
Qed.

Lemma run_last_frames (history : list frame) :
  Smoother.run history = Smoother.last_frames Smoother.SMOOTH_FRAMES history.
Proof.
  induction history as [|gray history IH] using rev_ind.
  - reflexivity.
  - unfold Smoother.run in *. rewrite fold_left_app. cbn [fold_left].
    rewrite IH. apply push_last_frames.
Qed.

Lemma length_last_frames (n : nat) (pushed : list frame) :
  List.length (Smoother.last_frames n pushed) = Nat.min n (List.length pushed).
Proof. unfold Smoother.last_frames. rewrite length_skipn. lia. Qed.

Lemma nth_error_zip_with {A} (f : A -> A -> A) (a : list A) :
  forall (b : list A) (i : nat),
    nth_error (Smoother.zip_with f a b) i =
    match nth_error a i, nth_error b i with
    | Some x, Some y => Some (f x y)
    | _, _ => None
    end.
Proof.
  induction a as [|x a IH]; intros b i.
  - destruct i; reflexivity.
  - destruct b as [|y b].
    + destruct i; cbn; [reflexivity|]. destruct (nth_error a i); reflexivity.
    + destruct i; cbn; [reflexivity | apply IH].
Qed.

Lemma at_add_frames (a b : frame) (r c : nat) :
  Extract.at_ (Smoother.add_frames a b) r c =
  match Extract.at_ a r c, Extract.at_ b r c with
  | Some x, Some y => Some (F32.add x y)
  | _, _ => None
  end.
Proof.
  unfold Extract.at_, Smoother.add_frames. rewrite nth_error_zip_with.
  destruct (nth_error a r) as [ra|]; [|reflexivity].
  destruct (nth_error b r) as [rb|].
  - rewrite nth_error_zip_with. reflexivity.
  - destruct (nth_error ra c); reflexivity.
Qed.

Lemma at_fold_add_frames (r c : nat) (rest : list frame) :
  forall (f0 : frame) (x0 : F32.t) (xs : list F32.t),
    Extract.at_ f0 r c = Some x0 ->
    map (fun f => Extract.at_ f r c) rest = map Some xs ->
    Extract.at_ (fold_left Smoother.add_frames rest f0) r c
    = Some (fold_left F32.add xs x0).
Proof.
  induction rest as [|f rest IH]; intros f0 x0 xs H0 Hrest.
  - destruct xs; [exact H0 | discriminate].
  - destruct xs as [|x xs]; [discriminate|].
    cbn [map] in Hrest. injection Hrest as Hf Hrest.
    cbn [fold_left]. apply IH; [|exact Hrest].
    rewrite at_add_frames, H0, Hf. reflexivity.
Qed.

Lemma at_map_map {A B} (g : A -> B) (a : list (list A)) (r c : nat) :
  Extract.at_ (map (map g) a) r c = option_map g (Extract.at_ a r c).
Proof.
  unfold Extract.at_. rewrite nth_error_map.
  destruct (nth_error a r) as [row|]; [|reflexivity].
  cbn [option_map]. apply nth_error_map.
Qed.

(** The mean at one position is the contract's mean of the samples
    the frames hold there. *)
Lemma mean_at (f0 : frame) (rest : list frame) (r c : nat)
      (x0 : F32.t) (xs : list F32.t) :
  Extract.at_ f0 r c = Some x0 ->
  map (fun f => Extract.at_ f r c) rest = map Some xs ->
  exists out,
    Smoother.mean (f0 :: rest) = Some out /\
    Extract.at_ out r c = Some (Smoother.mean_of_samples x0 xs).
Proof.
  intros H0 Hrest. eexists. split; [reflexivity|].
  rewrite at_map_map, (at_fold_add_frames r c rest f0 x0 xs H0 Hrest).
  unfold Smoother.mean_of_samples. cbn [option_map List.length].
  apply (f_equal (@List.length _)) in Hrest. rewrite !length_map in Hrest.
  do 5 f_equal. exact Hrest.
Qed.

(** *** Exactness of the sums *)

Lemma sf_same_eq (a b : spec_float) : sf_same a b = true -> a = b.
Proof.
  destruct a as [s|s| |s m e], b as [s'|s'| |s' m' e']; cbn; try discriminate.
  - intros H. apply Bool.eqb_prop in H. now subst.
  - intros H. apply Bool.eqb_prop in H. now subst.
  - reflexivity.
  - intros H. apply andb_true_iff in H. destruct H as [H He].
    apply andb_true_iff in H. destruct H as [Hs Hm].
    apply Bool.eqb_prop in Hs. apply Pos.eqb_eq in Hm. apply Z.eqb_eq in He.
    now subst.
Qed.

Lemma sf_same_refl (a : spec_float) : sf_same a a = true.
Proof.
  destruct a as [s|s| |s m e]; cbn; rewrite ?Bool.eqb_reflx, ?Pos.eqb_refl, ?Z.eqb_refl;
    reflexivity.
Qed.

Lemma in_zrange (n : nat) (z : Z) : 0 <= z < Z.of_nat n -> In z (zrange n).
Proof.
  intros Hz. unfold zrange. apply in_map_iff. exists (Z.to_nat z).
  split; [lia|]. apply in_seq. lia.
Qed.

Lemma forallb_zrange (P : Z -> bool) (n : nat) :
  forallb P (zrange n) = true -> forall z, 0 <= z < Z.of_nat n -> P z = true.
Proof.
  intros Hall z Hz. rewrite forallb_forall in Hall. apply Hall, in_zrange, Hz.
Qed.


Lemma zrange_forallb (P : Z -> bool) (n : nat) :
  (forall z, 0 <= z < Z.of_nat n -> P z = true) -> forallb P (zrange n) = true.
Proof.
  intros H. apply forallb_forall. intros z Hz. apply H.
  unfold zrange in Hz. apply in_map_iff in Hz. destruct Hz as (k & <- & Hk).
  apply in_seq in Hk. lia.
Qed.

(** *** Sums and differences that need no rounding *)

Lemma iter_pos_nat {A} (f : A -> A) (p : positive) : forall x : A,
  iter_pos f p x = Nat.iter (Pos.to_nat p) f x.
Proof.
  induction p as [p IH | p IH |]; intros x; cbn [iter_pos].
  - rewrite !IH, Pos2Nat.inj_xI, <- Nat.iter_add, <- Nat.iter_succ_r.
    f_equal. lia.
  - rewrite !IH, Pos2Nat.inj_xO, <- Nat.iter_add. f_equal. lia.
  - reflexivity.
Qed.

Lemma iter_pos_succ {A} (f : A -> A) (p : positive) (x : A) :
  iter_pos f (Pos.succ p) x = iter_pos f p (f x).
Proof. rewrite !iter_pos_nat, Pos2Nat.inj_succ, Nat.iter_succ_r. reflexivity. Qed.

Lemma digits2_pos_iter_xO (m : positive) (k : positive) :
  Zpos (digits2_pos (Pos.iter xO m k)) = Zpos (digits2_pos m) + Zpos k.
Proof.
  induction k as [|k IH] using Pos.peano_ind.
  - cbn. lia.
  - rewrite Pos.iter_succ. cbn [digits2_pos]. lia.
Qed.

Lemma Pos_iter_xO_value (m k : positive) :
  Zpos (Pos.iter xO m k) = Zpos m * 2 ^ Zpos k.
Proof.
  induction k as [|k IH] using Pos.peano_ind.
  - cbn. lia.
  - rewrite Pos.iter_succ, Pos2Z.inj_succ, Z.pow_succ_r by lia.
    rewrite Pos2Z.inj_xO, IH. lia.
Qed.

Lemma shl_align_value (m : positive) (e e' : Z) :
  e' <= e ->
  Zpos (fst (shl_align m e e')) = Zpos m * 2 ^ (e - e') /\
  snd (shl_align m e e') = e'.
Proof.
  intros Hle. unfold shl_align.
  destruct (e' - e) as [|d|d] eqn:Hd; cbn [fst snd].
  - replace (e - e') with 0 by lia. split; lia.
  - lia.
  - rewrite Pos_iter_xO_value. replace (e - e') with (Zpos d) by lia. split; reflexivity.
Qed.

Lemma shl_align_digits (m : positive) (e e' : Z) :
  e' <= e ->
  Zpos (digits2_pos (fst (shl_align m e e'))) + e' = Zpos (digits2_pos m) + e.
Proof.
  intros Hle. unfold shl_align.
  destruct (e' - e) as [|d|d] eqn:Hd; cbn [fst snd].
  - lia.
  - lia.
  - rewrite digits2_pos_iter_xO. lia.
Qed.

Lemma shl_align_signed (s : bool) (m : positive) (e e' : Z) :
  e' <= e ->
  cond_Zopp s (Zpos (fst (shl_align m e e'))) = cond_Zopp s (Zpos m) * 2 ^ (e - e').
Proof.
  intros Hle. destruct (shl_align_value m e e' Hle) as [Hval _].
  rewrite Hval. destruct s; cbn [cond_Zopp]; lia.
Qed.

(** The number of bits of a number below [2^k]. *)
Lemma digits2_pos_bound (p : positive) :
  2 ^ (Zpos (digits2_pos p) - 1) <= Zpos p < 2 ^ Zpos (digits2_pos p).
Proof.
  induction p as [p IH | p IH |]; cbn [digits2_pos].
  - rewrite Pos2Z.inj_succ.
    replace (Z.succ (Zpos (digits2_pos p)) - 1) with (Z.succ (Zpos (digits2_pos p) - 1)) by lia.
    rewrite !Z.pow_succ_r by lia. lia.
  - rewrite Pos2Z.inj_succ.
    replace (Z.succ (Zpos (digits2_pos p)) - 1) with (Z.succ (Zpos (digits2_pos p) - 1)) by lia.
    rewrite !Z.pow_succ_r by lia. lia.
  - cbn. lia.
Qed.

Lemma Zdigits2_small (m k : Z) : 0 <= k -> Z.abs m < 2 ^ k -> Zdigits2 m <= k.
Proof.
  intros Hk Hm.
  assert (Hpos : forall p, Zpos p < 2 ^ k -> Zpos (digits2_pos p) <= k).
  { intros p Hp. pose proof (digits2_pos_bound p) as [Hlo _].
    destruct (Z_le_gt_dec (Zpos (digits2_pos p)) k) as [|Hgt]; [assumption|].
    exfalso. assert (2 ^ k <= 2 ^ (Zpos (digits2_pos p) - 1))
      by (apply Z.pow_le_mono_r; lia). lia. }
  destruct m as [|p|p]; cbn [Zdigits2 Z.abs] in *; [lia| |]; apply Hpos; assumption.
Qed.

Section Exactness.

Variables prec emax : Z.

Local Abbreviation scaled_ := (Ieee.scaled prec emax).
Local Abbreviation fits_ := (Ieee.fits prec emax).

Lemma shr_exact_double (m : positive) (e : Z) (n : Z) :
  0 <= n ->
  shr (Build_shr_record (Zpos (xO m)) false false) (e - 1) (n + 1)
  = match n with
    | 0 => (Build_shr_record (Zpos m) false false, e)
    | _ => shr (Build_shr_record (Zpos m) false false) e n
    end.
Proof.
  intros Hn. destruct n as [|p|p]; [| |lia].
  - cbn. f_equal. lia.
  - unfold shr. replace (Zpos p + 1) with (Zpos (Pos.succ p)) by lia.
    rewrite iter_pos_succ. cbn [shr_1 orb]. f_equal. lia.
Qed.


Lemma binary_round_double (s : bool) (m : positive) (e : Z) :
  binary_round prec emax s (xO m) (e - 1) = binary_round prec emax s m e.
Proof.
  unfold binary_round.
  replace (Zpos (digits2_pos (xO m)) + (e - 1)) with (Zpos (digits2_pos m) + e)
    by (cbn [digits2_pos]; lia).
  set (E := fexp prec emax (Zpos (digits2_pos m) + e)).
  unfold shl_align.
  destruct (E - e) as [|d|d] eqn:Hd.
  - replace (E - (e - 1)) with 1 by lia.
    unfold binary_round_aux, shr_fexp.
    replace (Zdigits2 (Zpos (xO m)) + (e - 1)) with (Zpos (digits2_pos m) + e)
      by (cbn [Zdigits2 digits2_pos]; lia).
    cbn [Zdigits2]. fold E.
    replace (E - (e - 1)) with (0 + 1) by lia.
    cbn [shr_record_of_loc]. rewrite shr_exact_double by lia.
    replace (E - e) with 0 by lia. cbn [shr]. reflexivity.
  - replace (E - (e - 1)) with (Zpos (Pos.succ d)) by lia.
    unfold binary_round_aux, shr_fexp.
    replace (Zdigits2 (Zpos (xO m)) + (e - 1)) with (Zpos (digits2_pos m) + e)
      by (cbn [Zdigits2 digits2_pos]; lia).
    cbn [Zdigits2]. fold E.
    replace (E - (e - 1)) with (Zpos d + 1) by lia.
    cbn [shr_record_of_loc]. rewrite shr_exact_double by lia.
    rewrite Hd. reflexivity.
  - destruct (E - (e - 1)) as [|d'|d'] eqn:Hd'; [| lia |].
    + assert (d = 1%positive) by lia. subst d. cbn [Pos.iter].
      replace (e - 1) with E by lia. reflexivity.
    + assert (d = Pos.succ d') by lia. subst d.
      rewrite Pos.iter_succ_r. reflexivity.
Qed.


Lemma binary_normalize_double (M e : Z) (sz : bool) :
  binary_normalize prec emax (2 * M) (e - 1) sz = binary_normalize prec emax M e sz.
Proof. destruct M; cbn [Z.mul binary_normalize Pos.mul]; [reflexivity| |]; apply binary_round_double. Qed.

(** Rescaling mantissa and exponent together does not change the
    rounded value. *)
Lemma binary_normalize_scale (M e : Z) (sz : bool) (k : Z) :
  0 <= k ->
  binary_normalize prec emax (M * 2 ^ k) (e - k) sz = binary_normalize prec emax M e sz.
Proof.
  intros Hk. revert e. pattern k. apply natlike_ind; [| |exact Hk].
  - intros e. rewrite Z.pow_0_r, Z.mul_1_r, Z.sub_0_r. reflexivity.
  - intros j Hj IH e. rewrite Z.pow_succ_r by exact Hj.
    replace (M * (2 * 2 ^ j)) with (2 * (M * 2 ^ j)) by lia.
    replace (e - Z.succ j) with (e - j - 1) by lia.
    rewrite binary_normalize_double. apply IH.
Qed.


(** A number that fits the mantissa is represented as it is: the shape
    of its normal form. *)
Lemma binary_round_shape (s : bool) (m : positive) (e : Z) :
  Zpos (digits2_pos m) <= prec ->
  3 - emax - prec <= e ->
  Zpos (digits2_pos m) + e <= emax ->
  3 <= 2 * emax ->
  let E := fexp prec emax (Zpos (digits2_pos m) + e) in
  binary_round prec emax s m e = S754_finite s (fst (shl_align m e E)) E /\ E <= e.
Proof.
  intros Hd He Htop Hemax E.
  assert (HE : E <= e) by (unfold E, fexp, emin in *; lia).
  split; [|exact HE].
  unfold binary_round. fold E.
  destruct (shl_align_value m e E HE) as [Hval Hexp].
  pose proof (shl_align_digits m e E HE) as Hdig.
  destruct (shl_align m e E) as [mz ez]. cbn [fst snd] in *. subst ez.
  unfold binary_round_aux, shr_fexp. cbn [Zdigits2 shr_record_of_loc].
  rewrite Hdig. fold E. rewrite Z.sub_diag. cbn [shr shr_m loc_of_shr_record round_nearest_even].
  cbn [Zdigits2]. rewrite Hdig. fold E. rewrite Z.sub_diag. cbn [shr shr_m].
  assert (Hfin : (E <=? emax - prec) = true).
  { apply Z.leb_le. unfold E, fexp, emin. lia. }
  rewrite Hfin. reflexivity.
Qed.


Hypothesis emax_large : 3 <= 2 * emax.

Lemma scaled_shape (M e : Z) :
  M <> 0 -> fits_ M e ->
  exists (m : positive) (E : Z),
    scaled_ M e = S754_finite (M <? 0) m E /\ E <= e /\
    cond_Zopp (M <? 0) (Zpos m) = M * 2 ^ (e - E).
Proof.
  intros Hnz [Hz | (Hd & He & Htop)]; [contradiction|].
  destruct M as [|m|m]; [contradiction| |]; cbn [Zdigits2] in Hd, Htop;
    destruct (binary_round_shape false m e Hd He Htop emax_large) as [Hshape HE];
    destruct (binary_round_shape true m e Hd He Htop emax_large) as [Hshape' _];
    set (E := fexp prec emax (Zpos (digits2_pos m) + e)) in *;
    destruct (shl_align_value m e E HE) as [Hval _];
    exists (fst (shl_align m e E)), E; unfold Ieee.scaled; cbn [binary_normalize Z.ltb Z.compare].
  - split; [exact Hshape|]. split; [exact HE|]. cbn [cond_Zopp]. exact Hval.
  - split; [exact Hshape'|]. split; [exact HE|]. cbn [cond_Zopp].
    rewrite Hval. rewrite <- Pos2Z.opp_pos. lia.
Qed.

Lemma scaled_zero (e : Z) : scaled_ 0 e = S754_zero false.
Proof. reflexivity. Qed.

Lemma fits_opp (M e : Z) : fits_ M e -> fits_ (- M) e.
Proof.
  intros [-> | H]; [left; reflexivity|]. right.
  destruct M; cbn [Z.opp Zdigits2] in *; exact H.
Qed.

(** The opposite of a value has the same mantissa and exponent. *)
Lemma scaled_opp (M e : Z) (s : bool) (m : positive) (E : Z) :
  fits_ M e -> scaled_ M e = S754_finite s m E ->
  scaled_ (- M) e = S754_finite (negb s) m E.
Proof.
  intros HM Hval. destruct M as [|b|b]; [discriminate| |];
    destruct HM as [? | (Hd & He & Htop)]; try discriminate; cbn [Zdigits2] in Hd, Htop;
    unfold Ieee.scaled in *; cbn [Z.opp binary_normalize] in *;
    destruct (binary_round_shape false b e Hd He Htop emax_large) as [Hf _];
    destruct (binary_round_shape true b e Hd He Htop emax_large) as [Ht _];
    rewrite Hf in *; rewrite Ht in *; injection Hval as <- <- <-; reflexivity.
Qed.

(** Adding two numbers that need no rounding rounds their exact sum. *)
Lemma SFadd_exact (A B e : Z) :
  fits_ A e -> fits_ B e ->
  SFadd prec emax (scaled_ A e) (scaled_ B e) = scaled_ (A + B) e.
Proof.
  intros HA HB.
  destruct (Z.eq_dec A 0) as [-> | HAnz].
  - rewrite scaled_zero, Z.add_0_l.
    destruct (Z.eq_dec B 0) as [-> | HBnz]; [reflexivity|].
    destruct (scaled_shape B e HBnz HB) as (m & E & -> & _). reflexivity.
  - destruct (scaled_shape A e HAnz HA) as (mA & EA & HNA & HEA & HvA).
    destruct (Z.eq_dec B 0) as [-> | HBnz].
    + rewrite scaled_zero, Z.add_0_r, HNA. reflexivity.
    + destruct (scaled_shape B e HBnz HB) as (mB & EB & HNB & HEB & HvB).
      rewrite HNA, HNB. unfold SFadd. cbv zeta.
      set (ez := Z.min EA EB).
      rewrite (shl_align_signed _ mA EA ez) by (unfold ez; lia).
      rewrite (shl_align_signed _ mB EB ez) by (unfold ez; lia).
      rewrite HvA, HvB.
      replace (A * 2 ^ (e - EA) * 2 ^ (EA - ez) + B * 2 ^ (e - EB) * 2 ^ (EB - ez))
        with ((A + B) * 2 ^ (e - ez)).
      * replace ez with (e - (e - ez)) at 2 by lia.
        apply binary_normalize_scale. unfold ez. lia.
      * rewrite <- !Z.mul_assoc, <- !Z.pow_add_r by (unfold ez; lia).
        replace (e - EA + (EA - ez)) with (e - ez) by lia.
        replace (e - EB + (EB - ez)) with (e - ez) by lia. lia.
Qed.

(** Likewise for the difference. *)
Lemma SFsub_exact (A B e : Z) :
  fits_ A e -> fits_ B e ->
  SFsub prec emax (scaled_ A e) (scaled_ B e) = scaled_ (A - B) e.
Proof.
  intros HA HB.
  destruct (Z.eq_dec B 0) as [-> | HBnz].
  - rewrite scaled_zero, Z.sub_0_r.
    destruct (Z.eq_dec A 0) as [-> | HAnz]; [reflexivity|].
    destruct (scaled_shape A e HAnz HA) as (m & E & -> & _). reflexivity.
  - destruct (scaled_shape B e HBnz HB) as (mB & EB & HNB & HEB & HvB).
    destruct (Z.eq_dec A 0) as [-> | HAnz].
    + rewrite scaled_zero, Z.sub_0_l, HNB. cbn [SFsub].
      symmetry. apply (scaled_opp B e _ _ _ HB HNB).
    + destruct (scaled_shape A e HAnz HA) as (mA & EA & HNA & HEA & HvA).
      rewrite HNA, HNB. unfold SFsub. cbv zeta.
      set (ez := Z.min EA EB).
      rewrite (shl_align_signed _ mA EA ez) by (unfold ez; lia).
      rewrite (shl_align_signed _ mB EB ez) by (unfold ez; lia).
      rewrite HvA, HvB.
      replace (A * 2 ^ (e - EA) * 2 ^ (EA - ez) - B * 2 ^ (e - EB) * 2 ^ (EB - ez))
        with ((A - B) * 2 ^ (e - ez)).
      * replace ez with (e - (e - ez)) at 2 by lia.
        apply binary_normalize_scale. unfold ez. lia.
      * rewrite <- !Z.mul_assoc, <- !Z.pow_add_r by (unfold ez; lia).
        replace (e - EA + (EA - ez)) with (e - ez) by lia.
        replace (e - EB + (EB - ez)) with (e - ez) by lia. lia.
Qed.

End Exactness.

(** Converting a value that needs no rounding to another format
    rounds the same number there. *)
Lemma round_scaled (prec emax prec' emax' : Z) (M e : Z) :
  3 <= 2 * emax ->
  Ieee.fits prec emax M e ->
  Ieee.round prec' emax' (Ieee.scaled prec emax M e) = Ieee.scaled prec' emax' M e.
Proof.
  intros Hemax HM. destruct (Z.eq_dec M 0) as [-> | Hnz]; [reflexivity|].
  destruct (scaled_shape prec emax Hemax M e Hnz HM) as (m & E & -> & HE & Hv).
  cbn [Ieee.round]. rewrite Hv. unfold Ieee.scaled.
  replace E with (e - (e - E)) at 2 by lia.
  rewrite binary_normalize_scale by lia.
  destruct M; [contradiction| |]; reflexivity.
Qed.

(** *** Whole numbers and half-integers *)

Lemma fits_small (prec emax m e k : Z) :
  0 <= k <= prec -> Z.abs m < 2 ^ k -> 3 - emax - prec <= e -> k + e <= emax ->
  Ieee.fits prec emax m e.
Proof.
  intros Hk Hm He Htop. right. pose proof (Zdigits2_small m k ltac:(lia) Hm). lia.
Qed.

Lemma fits32 (m e : Z) : Z.abs m < 2 ^ 24 -> -1 <= e <= 0 -> Ieee.fits F32.prec F32.emax m e.
Proof.
  intros Hm He. apply (fits_small _ _ m e 24); unfold F32.prec, F32.emax; lia.
Qed.

Lemma fits64 (m e : Z) : Z.abs m < 2 ^ 24 -> -1 <= e <= 0 -> Ieee.fits F64.prec F64.emax m e.
Proof.
  intros Hm He. apply (fits_small _ _ m e 24); unfold F64.prec, F64.emax; lia.
Qed.

Lemma emax32_large : 3 <= 2 * F32.emax.
Proof. unfold F32.emax. lia. Qed.

Lemma emax64_large : 3 <= 2 * F64.emax.
Proof. unfold F64.emax. lia. Qed.

(** Whole numbers below [2^24] add and subtract without rounding, in
    both formats, and convert between them unchanged. *)
Lemma F32_add_whole (a b : Z) :
  Z.abs a < 2 ^ 24 -> Z.abs b < 2 ^ 24 ->
  F32.add (F32.of_Z a) (F32.of_Z b) = F32.of_Z (a + b).
Proof.
  intros Ha Hb. apply (SFadd_exact F32.prec F32.emax emax32_large a b 0); apply fits32; lia.
Qed.

Lemma F32_sub_whole (a b : Z) :
  Z.abs a < 2 ^ 24 -> Z.abs b < 2 ^ 24 ->
  F32.sub (F32.of_Z a) (F32.of_Z b) = F32.of_Z (a - b).
Proof.
  intros Ha Hb. apply (SFsub_exact F32.prec F32.emax emax32_large a b 0); apply fits32; lia.
Qed.

Lemma F64_sub_whole (a b : Z) :
  Z.abs a < 2 ^ 24 -> Z.abs b < 2 ^ 24 ->
  F64.sub (F64.of_Z a) (F64.of_Z b) = F64.of_Z (a - b).
Proof.
  intros Ha Hb. apply (SFsub_exact F64.prec F64.emax emax64_large a b 0); apply fits64; lia.
Qed.

Lemma F64_round_whole (a : Z) :
  Z.abs a < 2 ^ 24 -> F64.round (F32.of_Z a) = F64.of_Z a.
Proof.
  intros Ha. apply (round_scaled F32.prec F32.emax F64.prec F64.emax a 0 emax32_large).
  apply fits32; lia.
Qed.

Lemma F32_round_whole (a : Z) :
  Z.abs a < 2 ^ 24 -> F32.round (F64.of_Z a) = F32.of_Z a.
Proof.
  intros Ha. apply (round_scaled F64.prec F64.emax F32.prec F32.emax a 0 emax64_large).
  apply fits64; lia.
Qed.

Lemma half32_add (a b : Z) :
  Z.abs a < 2 ^ 24 -> Z.abs b < 2 ^ 24 -> F32.add (half32 a) (half32 b) = half32 (a + b).
Proof.
  intros Ha Hb. apply (SFadd_exact F32.prec F32.emax emax32_large a b (-1)); apply fits32; lia.
Qed.

Lemma half32_sub (a b : Z) :
  Z.abs a < 2 ^ 24 -> Z.abs b < 2 ^ 24 -> F32.sub (half32 a) (half32 b) = half32 (a - b).
Proof.
  intros Ha Hb. apply (SFsub_exact F32.prec F32.emax emax32_large a b (-1)); apply fits32; lia.
Qed.

Lemma half64_add (a b : Z) :
  Z.abs a < 2 ^ 24 -> Z.abs b < 2 ^ 24 -> F64.add (half64 a) (half64 b) = half64 (a + b).
Proof.
  intros Ha Hb. apply (SFadd_exact F64.prec F64.emax emax64_large a b (-1)); apply fits64; lia.
Qed.

Lemma half64_sub (a b : Z) :
  Z.abs a < 2 ^ 24 -> Z.abs b < 2 ^ 24 -> F64.sub (half64 a) (half64 b) = half64 (a - b).
Proof.
  intros Ha Hb. apply (SFsub_exact F64.prec F64.emax emax64_large a b (-1)); apply fits64; lia.
Qed.

(** An even number of halves is a whole number. *)
Lemma half32_even (n : Z) : half32 (2 * n) = F32.of_Z n.
Proof.
  unfold half32, Ieee.scaled. replace (2 * n) with (n * 2 ^ 1) by lia.
  apply (binary_normalize_scale F32.prec F32.emax n 0 false 1). lia.
Qed.

Lemma half64_even (n : Z) : half64 (2 * n) = F64.of_Z n.
Proof.
  unfold half64, Ieee.scaled. replace (2 * n) with (n * 2 ^ 1) by lia.
  apply (binary_normalize_scale F64.prec F64.emax n 0 false 1). lia.
Qed.

(** Adding a byte to the sum of two bytes is exact in binary32. *)
Lemma add_small_integers_exact (a b : Z) :
  0 <= a <= 510 -> 0 <= b <= 255 ->
  F32.add (F32.of_Z a) (F32.of_Z b) = F32.of_Z (a + b).
Proof.
  intros Ha Hb. apply F32_add_whole; lia.
Qed.

(** Dividing the sum in binary64 and rounding the quotient to binary32,
    as a NumPy that promotes the count to 64 bits does, gives the
    binary32 quotient. *)
Lemma mean_division_any_promotion (total count : Z) :
  0 <= total <= 765 -> 1 <= count <= 3 ->
  F32.round (F64.div (F64.of_Z total) (F64.of_Z count))
  = F32.div (F32.of_Z total) (F32.of_Z count).
Proof.
  intros Ht Hc. apply sf_same_eq.
  assert (Hall : forallb (fun t => forallb (fun c =>
            sf_same (F32.round (F64.div (F64.of_Z t) (F64.of_Z (c + 1))))
                    (F32.div (F32.of_Z t) (F32.of_Z (c + 1))))
            (zrange 3)) (zrange 766) = true) by (vm_compute; reflexivity).
  pose proof (forallb_zrange _ _ Hall total ltac:(lia)) as Hrow. cbv beta in Hrow.
  pose proof (forallb_zrange _ _ Hrow (count - 1) ltac:(lia)) as Hcell.
  cbv beta in Hcell. replace (count - 1 + 1) with count in Hcell by lia.
  exact Hcell.
Qed.

Lemma byte_value_range (b : byte) : 0 <= Smoother.byte_value b <= 255.
Proof.
  destruct b; vm_compute; split; discriminate.
Qed.

(** Up to three byte samples add up without rounding. *)
Lemma fold_add_bytes_exact (b0 : byte) (bs : list byte) :
  (List.length bs <= 2)%nat ->
  fold_left F32.add (map Extract.float32_of_byte bs) (Extract.float32_of_byte b0)
  = F32.of_Z (Smoother.byte_sum (b0 :: bs)).
Proof.
  intros Hlen. unfold Smoother.byte_sum.
  change Extract.float32_of_byte with (fun b => F32.of_Z (Smoother.byte_value b)).
  pose proof (byte_value_range b0) as H0.
  destruct bs as [|b1 [|b2 [|b3 bs]]]; cbn [map fold_left fold_right List.length] in *.
  - f_equal. lia.
  - pose proof (byte_value_range b1) as H1.
    rewrite add_small_integers_exact by lia. f_equal. lia.
  - pose proof (byte_value_range b1) as H1. pose proof (byte_value_range b2) as H2.
    rewrite !add_small_integers_exact by lia. f_equal. lia.
  - lia.
Qed.

(** C2.  After any frames [history] and one more frame [gray], the
    smoother's buffer is the last min(3, count) frames pushed, in
    order, and its output is the mean recomputed from that buffer.
    At every position the output is the binary32 sum of the window's
    samples divided by their number; when the samples are bytes, as
    the extractor delivers them, the sum is their exact integer sum,
    so the output is the exact mean rounded once to binary32. *)
Theorem smoother_mean_of_window (history : list frame) (gray : frame) :
  let pushed := history ++ [gray] in
  let window := Smoother.last_frames Smoother.SMOOTH_FRAMES pushed in
  let output := Smoother.smooth (Smoother.run history) gray in
  fst output = window /\
  List.length window = Nat.min 3 (List.length pushed) /\
  snd output = Smoother.mean window /\
  (forall (r c : nat) (x0 : F32.t) (xs : list F32.t),
      map (fun f => Extract.at_ f r c) window = map Some (x0 :: xs) ->
      exists out, snd output = Some out /\
                  Extract.at_ out r c = Some (Smoother.mean_of_samples x0 xs)) /\
  (forall (r c : nat) (b0 : byte) (bs : list byte),
      map (fun f => Extract.at_ f r c) window
        = map Some (map Extract.float32_of_byte (b0 :: bs)) ->
      exists out, snd output = Some out /\
                  Extract.at_ out r c
                  = Some (F32.of_ratio (Smoother.byte_sum (b0 :: bs))
                                       (Z.of_nat (List.length window)))).
Proof.
  intros pushed window output.
  assert (Hbuf : fst output = window).
  { subst output window pushed. unfold Smoother.smooth. cbn [fst].
    rewrite run_last_frames. apply push_last_frames. }
  assert (Hout : snd output = Smoother.mean window).
  { rewrite <- Hbuf. reflexivity. }
  assert (Hlen : List.length window = Nat.min 3 (List.length pushed)).
  { apply length_last_frames. }
  assert (Hat : forall r c x0 xs,
             map (fun f => Extract.at_ f r c) window = map Some (x0 :: xs) ->
             exists out, snd output = Some out /\
                         Extract.at_ out r c = Some (Smoother.mean_of_samples x0 xs)).
  { intros r c x0 xs Hsamples. rewrite Hout.
    destruct window as [|f0 rest]; [discriminate|].
    cbn [map] in Hsamples. injection Hsamples as H0 Hrest.
    apply mean_at; assumption. }
  repeat split; try assumption.
  intros r c b0 bs Hsamples.
  destruct (Hat r c (Extract.float32_of_byte b0) (map Extract.float32_of_byte bs) Hsamples)
    as (out & Hsome & Hpix).
  exists out. split; [exact Hsome|]. rewrite Hpix. f_equal.
  assert (Hcount : List.length window = S (List.length bs)).
  { apply (f_equal (@List.length _)) in Hsamples.
    rewrite !length_map in Hsamples. exact Hsamples. }
  unfold Smoother.mean_of_samples, F32.of_ratio.
  rewrite fold_add_bytes_exact by lia.
  rewrite length_map, Hcount. reflexivity.
Qed.

(** Three one-pixel frames of values 100, 101 and 103 after an older
    frame of value 7: the window drops the oldest and the mean is that
    of 304 over 3. *)
Lemma smoother_mean_of_window_witness :
  let px (b : byte) : frame := [[Extract.float32_of_byte b]] in
  exists out,
    snd (Smoother.smooth (Smoother.run [px x07; px x64; px x65]) (px x67)) = Some out /\
    Extract.at_ out 0 0 = Some (F32.of_ratio 304 3).
Proof.
  intros px.
  destruct (smoother_mean_of_window [px x07; px x64; px x65] (px x67))
    as (_ & _ & _ & _ & Hbytes).
  apply (Hbytes 0%nat 0%nat x64 [x65; x67]%byte). reflexivity.
Defined.

(** ** Contrast bounds *)

Lemma contrast_levels_closed :
  forallb (fun c => existsb (sf_same (Session.contrast_up c)) Session.contrast_levels
                    && existsb (sf_same (Session.contrast_down c)) Session.contrast_levels)
          Session.contrast_levels = true.
Proof. vm_compute. reflexivity. Qed.

Lemma contrast_levels_bounded :
  forallb Session.in_bounds Session.contrast_levels = true.
Proof. vm_compute. reflexivity. Qed.

Lemma existsb_same_In (c : F64.t) (levels : list F64.t) :
  existsb (sf_same c) levels = true -> In c levels.
Proof.
  intros H. apply existsb_exists in H. destruct H as (c' & Hin & Hsame).
  apply sf_same_eq in Hsame. now subst.
Qed.

Lemma contrast_up_level (c : F64.t) :
  In c Session.contrast_levels -> In (Session.contrast_up c) Session.contrast_levels.
Proof.
  intros Hc. pose proof contrast_levels_closed as H.
  rewrite forallb_forall in H. specialize (H c Hc).
  apply andb_true_iff in H. apply existsb_same_In, H.
Qed.

Lemma contrast_down_level (c : F64.t) :
  In c Session.contrast_levels -> In (Session.contrast_down c) Session.contrast_levels.
Proof.
  intros Hc. pose proof contrast_levels_closed as H.
  rewrite forallb_forall in H. specialize (H c Hc).
  apply andb_true_iff in H. apply existsb_same_In, H.
Qed.

Lemma handle_key_level (key : Z) (st : Session.state) :
  In (Session.contrast_boost st) Session.contrast_levels ->
  In (Session.contrast_boost (snd (Session.handle_key key st))) Session.contrast_levels.
Proof.
  intros Hst. unfold Session.handle_key.
  destruct (key =? Session.ord "q"); [exact Hst|].
  destruct (key =? Session.ord "s"); [exact Hst|].
  destruct (key =? Session.ord "c"); [exact Hst|].
  destruct ((key =? Session.ord "+") || (key =? Session.ord "=")).
  - apply contrast_up_level, Hst.
  - destruct (key =? Session.ord "-"); [apply contrast_down_level|]; exact Hst.
Qed.

Lemma press_level (keys : list Z) : forall st : Session.state,
  In (Session.contrast_boost st) Session.contrast_levels ->
  In (Session.contrast_boost (Session.press keys st)) Session.contrast_levels.
Proof.
  induction keys as [|key keys IH]; intros st Hst; [exact Hst|].
  cbn [Session.press].
  pose proof (handle_key_level key st Hst) as Hnext.
  destruct (Session.handle_key key st) as [ctl st'].
  cbn [snd] in Hnext. destruct ctl; [apply IH| |]; exact Hnext.
Qed.

Lemma initial_level : In Session.contrast_init Session.contrast_levels.
Proof. left. reflexivity. Qed.

(** C4.  Whatever keys are pressed from the initial state, in any
    number and order, the contrast afterwards lies between 0.4 and 5.0
    in the order of binary64.  The keys [+] and [-] replace it by
    [min(c + 0.2, 5.0)] and [max(c - 0.2, 0.4)]; both ends are reached:
    twenty presses of [+] give exactly 5.0, four of [-] exactly 0.4. *)
Theorem contrast_stays_in_bounds (keys : list Z) :
  let c := Session.contrast_boost (Session.press keys Session.initial) in
  (F64.leb Session.contrast_lo c = true /\ F64.leb c Session.contrast_hi = true) /\
  (forall st : Session.state,
      Session.contrast_boost (snd (Session.handle_key (Session.ord "+") st))
      = py_min (F64.add (Session.contrast_boost st) Session.contrast_step)
               Session.contrast_hi /\
      Session.contrast_boost (snd (Session.handle_key (Session.ord "-") st))
      = py_max (F64.sub (Session.contrast_boost st) Session.contrast_step)
               Session.contrast_lo) /\
  Session.contrast_boost (Session.press (repeat (Session.ord "+") 20) Session.initial)
    = Session.contrast_hi /\
  Session.contrast_boost (Session.press (repeat (Session.ord "-") 4) Session.initial)
    = Session.contrast_lo.
Proof.
  intros c. split; [|split; [intros st; split; reflexivity|]].
  - pose proof (press_level keys Session.initial initial_level) as Hin.
    fold c in Hin. pose proof contrast_levels_bounded as Hall.
    rewrite forallb_forall in Hall. specialize (Hall c Hin).
    unfold Session.in_bounds in Hall. apply andb_true_iff in Hall. exact Hall.
  - split; vm_compute; reflexivity.
Qed.

(** ** Normalisation *)

(** *** The pixel formula in binary32 *)

(** With bounds held in binary32 the whole of line 196 runs in
    binary32, under either rule. *)
Lemma pixel_float32 (p : promotion) (b_min b_max x : F32.t) :
  Normalizer.pixel p (Float32 b_min, Float32 b_max) x
  = finish (F32.sub x b_min) (F32.sub b_max b_min).
Proof. destruct p; reflexivity. Qed.

(** With bounds held in binary64, NumPy 1 lets the binary32 array
    decide: each bound is rounded to binary32 before use. *)
Lemma pixel_float64_legacy (b_min b_max : F64.t) (x : F32.t) :
  Normalizer.pixel Legacy (Float64 b_min, Float64 b_max) x
  = finish (F32.sub x (F32.round b_min)) (F32.round (F64.sub b_max b_min)).
Proof. reflexivity. Qed.

(** *** Whole-number extremes at the initial contrast *)

Lemma halving_exact :
  forallb (fun s => sf_same (F64.div (F64.of_Z s) (F64.of_Z 2)) (half64 s)
                    && sf_same (F32.div (F32.of_Z s) (F32.of_Z 2)) (half32 s))
          (zrange 511) = true.
Proof. vm_cast_no_check (eq_refl true). Qed.

Lemma unit_contrast_exact :
  forallb (fun d => sf_same (F64.div (half64 d) Session.contrast_init) (half64 d)
                    && sf_same (F32.div (half32 d) (F32.round Session.contrast_init)) (half32 d))
          (zrange 256) = true.
Proof. vm_cast_no_check (eq_refl true). Qed.

Lemma range_guard_whole :
  forallb (fun k => negb (Np.ltb (Float32 (F32.of_Z (k + 1))) (PyInt 1))) (zrange 255) = true.
Proof. vm_cast_no_check (eq_refl true). Qed.

Lemma finish_ends :
  forallb (fun k => (finish (F32.of_Z 0) (F32.of_Z (k + 1)) =? 0)
                    && (finish (F32.of_Z (k + 1)) (F32.of_Z (k + 1)) =? 255))
          (zrange 255) = true.
Proof. vm_cast_no_check (eq_refl true). Qed.

Lemma sub_whole (p : promotion) (a b : Z) :
  Z.abs a < 2 ^ 24 -> Z.abs b < 2 ^ 24 ->
  Np.sub p (Float32 (F32.of_Z a)) (Float32 (F32.of_Z b)) = Float32 (F32.of_Z (a - b)).
Proof.
  intros Ha Hb. destruct p; cbn [Np.sub Np.scalar_kind Np.at_kind Np.as32];
    rewrite F32_sub_whole by assumption; reflexivity.
Qed.

Lemma add_whole (p : promotion) (a b : Z) :
  Z.abs a < 2 ^ 24 -> Z.abs b < 2 ^ 24 ->
  Np.add p (Float32 (F32.of_Z a)) (Float32 (F32.of_Z b)) = Float32 (F32.of_Z (a + b)).
Proof.
  intros Ha Hb. destruct p; cbn [Np.add Np.scalar_kind Np.at_kind Np.as32];
    rewrite F32_add_whole by assumption; reflexivity.
Qed.

Lemma max_whole (d : Z) :
  1 <= d <= 255 -> Np.max (Float32 (F32.of_Z d)) (PyInt 1) = Float32 (F32.of_Z d).
Proof.
  intros Hd. unfold Np.max.
  pose proof (forallb_zrange _ _ range_guard_whole (d - 1) ltac:(cbn; lia)) as H.
  cbv beta in H. replace (d - 1 + 1) with d in H by lia.
  apply negb_true_iff in H. rewrite H. reflexivity.
Qed.

Lemma halve_whole (p : promotion) (s : Z) :
  0 <= s <= 510 -> Np.div p (Float32 (F32.of_Z s)) (PyInt 2) = half_scalar p s.
Proof.
  intros Hs.
  pose proof (forallb_zrange _ _ halving_exact s ltac:(cbn; lia)) as H. cbv beta in H.
  apply andb_true_iff in H. destruct H as [H64 H32].
  apply sf_same_eq in H64. apply sf_same_eq in H32.
  destruct p; cbn [Np.div Np.scalar_kind Np.at_kind Np.as32 Np.as64 half_scalar].
  - rewrite F64_round_whole by lia. rewrite H64. reflexivity.
  - rewrite H32. reflexivity.
Qed.

Lemma unit_contrast (p : promotion) (d : Z) :
  0 <= d <= 255 -> Np.div p (half_scalar p d) (PyFloat Session.contrast_init) = half_scalar p d.
Proof.
  intros Hd.
  pose proof (forallb_zrange _ _ unit_contrast_exact d ltac:(cbn; lia)) as H. cbv beta in H.
  apply andb_true_iff in H. destruct H as [H64 H32].
  apply sf_same_eq in H64. apply sf_same_eq in H32.
  destruct p; cbn [Np.div Np.scalar_kind Np.at_kind Np.as32 Np.as64 half_scalar].
  - rewrite H64. reflexivity.
  - rewrite H32. reflexivity.
Qed.

Lemma half_scalar_sub (p : promotion) (a b : Z) :
  Z.abs a < 2 ^ 24 -> Z.abs b < 2 ^ 24 ->
  Np.sub p (half_scalar p a) (half_scalar p b) = half_scalar p (a - b).
Proof.
  intros Ha Hb. destruct p; cbn [Np.sub Np.scalar_kind Np.at_kind Np.as32 Np.as64 half_scalar].
  - rewrite half64_sub by assumption. reflexivity.
  - rewrite half32_sub by assumption. reflexivity.
Qed.

Lemma half_scalar_add (p : promotion) (a b : Z) :
  Z.abs a < 2 ^ 24 -> Z.abs b < 2 ^ 24 ->
  Np.add p (half_scalar p a) (half_scalar p b) = half_scalar p (a + b).
Proof.
  intros Ha Hb. destruct p; cbn [Np.add Np.scalar_kind Np.at_kind Np.as32 Np.as64 half_scalar].
  - rewrite half64_add by assumption. reflexivity.
  - rewrite half32_add by assumption. reflexivity.
Qed.

Lemma half_scalar_even (p : promotion) (n : Z) : half_scalar p (2 * n) = whole_scalar p n.
Proof.
  destruct p; cbn [half_scalar whole_scalar]; [rewrite half64_even | rewrite half32_even];
    reflexivity.
Qed.

(** At the initial contrast the bounds of a frame with whole-number
    extremes are the extremes themselves: every step of lines 191-194
    is exact. *)
Lemma bounds_whole (p : promotion) (lo hi : Z) :
  0 <= lo < hi -> hi <= 255 ->
  Normalizer.bounds p (F32.of_Z lo) (F32.of_Z hi) Session.contrast_init
  = (whole_scalar p lo, whole_scalar p hi).
Proof.
  intros Hlo Hhi. unfold Normalizer.bounds. cbv zeta.
  rewrite sub_whole, add_whole by lia.
  rewrite max_whole by lia.
  rewrite !halve_whole by lia.
  rewrite unit_contrast by lia.
  rewrite half_scalar_sub, half_scalar_add by lia.
  replace (lo + hi - (hi - lo)) with (2 * lo) by lia.
  replace (lo + hi + (hi - lo)) with (2 * hi) by lia.
  rewrite !half_scalar_even. reflexivity.
Qed.

(** A whole-number sample [x] then maps as [x - lo] over [hi - lo]
    does in binary32, under either rule. *)
Lemma pixel_whole (p : promotion) (lo hi x : Z) :
  0 <= lo <= 255 -> 0 <= hi <= 255 -> 0 <= x <= 255 ->
  Normalizer.pixel p (whole_scalar p lo, whole_scalar p hi) (F32.of_Z x)
  = finish (F32.of_Z (x - lo)) (F32.of_Z (hi - lo)).
Proof.
  intros Hlo Hhi Hx. destruct p; cbn [whole_scalar].
  - rewrite pixel_float64_legacy.
    rewrite F64_sub_whole, !F32_round_whole, F32_sub_whole by lia. reflexivity.
  - rewrite pixel_float32. rewrite !F32_sub_whole by lia. reflexivity.
Qed.

Lemma ends_ok_whole (p : promotion) (lo hi : Z) :
  0 <= lo < hi -> hi <= 255 ->
  Normalizer.ends_ok p (F32.of_Z lo) (F32.of_Z hi) Session.contrast_init = true.
Proof.
  intros Hlo Hhi. unfold Normalizer.ends_ok. cbv zeta.
  rewrite bounds_whole by assumption.
  rewrite !pixel_whole by lia.
  pose proof (forallb_zrange _ _ finish_ends (hi - lo - 1) ltac:(cbn; lia)) as H.
  cbv beta in H. replace (hi - lo - 1 + 1) with (hi - lo) in H by lia.
  replace (lo - lo) with 0 by lia. exact H.
Qed.

(** *** Flat frames *)

Lemma table_contrasts : map row_contrast flat_table = Session.contrast_levels.
Proof. reflexivity. Qed.

Lemma table_sound : forallb row_sound flat_table = true.
Proof. vm_cast_no_check (eq_refl true). Qed.

Lemma cover_thirds :
  forallb (fun total => flat_cover (F32.of_ratio total 3)) (zrange 766) = true.
Proof. vm_cast_no_check (eq_refl true). Qed.

Lemma cover_odd_halves :
  forallb (fun k => flat_cover (F32.of_ratio (2 * k + 1) 2)) (zrange 255) = true.
Proof. vm_cast_no_check (eq_refl true). Qed.

Lemma existsb_cell_In (a : cell) (cells : list cell) :
  existsb (cell_same a) cells = true -> In a cells.
Proof.
  intros H. apply existsb_exists in H. destruct H as (b & Hin & Hsame).
  unfold cell_same in Hsame. apply andb_true_iff in Hsame. destruct Hsame as [H1 H2].
  apply sf_same_eq in H1. apply sf_same_eq in H2.
  destruct a, b; cbn [fst snd] in *; subst; exact Hin.
Qed.

(** A divisor that is zero in binary64 is still zero after a round
    trip through binary32. *)
Lemma zero_divisor_rounds (x : F64.t) :
  F64.eqb x (F64.of_Z 0) = true -> F64.eqb (F64.round (F32.round x)) (F64.of_Z 0) = true.
Proof.
  destruct x as [s|s| |s m e]; cbn; try discriminate; try (intros _; reflexivity).
  - destruct s; discriminate.
  - destruct s; discriminate.
Qed.

Lemma range_guard_flat : Np.max (Float32 (F32.of_Z 0)) (PyInt 1) = PyInt 1.
Proof. reflexivity. Qed.

(** The bounds of a flat frame: [v] less and plus the half width, in
    binary64 under NumPy 1 and in binary32 under NEP 50. *)
Lemma bounds_flat (p : promotion) (v : F32.t) (c : F64.t) :
  mid_ok v = true ->
  Normalizer.bounds p v v c
  = match p with
    | Legacy => (Float64 (F64.sub (F64.round v) (half_width c)),
                 Float64 (F64.add (F64.round v) (half_width c)))
    | Nep50 => (Float32 (F32.sub v (F32.round (half_width c))),
                Float32 (F32.add v (F32.round (half_width c))))
    end.
Proof.
  intros Hmid. unfold mid_ok in Hmid.
  apply andb_true_iff in Hmid. destruct Hmid as [Hmid H64].
  apply andb_true_iff in Hmid. destruct Hmid as [Hzero H32].
  apply sf_same_eq in Hzero. apply sf_same_eq in H32. apply sf_same_eq in H64.
  unfold Normalizer.bounds. cbv zeta.
  assert (Hrange : Np.max (Np.sub p (Float32 v) (Float32 v)) (PyInt 1) = PyInt 1).
  { destruct p; cbn [Np.sub Np.scalar_kind Np.at_kind Np.as32]; rewrite Hzero;
      apply range_guard_flat. }
  rewrite Hrange.
  destruct p; cbn [Np.add Np.sub Np.div Np.scalar_kind Np.at_kind Np.as32 Np.as64].
  - rewrite H64. reflexivity.
  - rewrite H32. reflexivity.
Qed.

Lemma flat_ok_covered (p : promotion) (v : F32.t) (row : contrast_row) :
  row_sound row = true -> mid_ok v = true -> row_covers v (F64.round v) row = true ->
  Normalizer.flat_ok p v (row_contrast row) = true.
Proof.
  intros Hsound Hmid Hcover. unfold row_sound in Hsound.
  apply andb_true_iff in Hsound. destruct Hsound as [Hsound Hnep].
  apply andb_true_iff in Hsound. destruct Hsound as [Hsound Hleg].
  apply andb_true_iff in Hsound. destruct Hsound as [Hhalf Hh32].
  apply sf_same_eq in Hhalf. apply sf_same_eq in Hh32.
  rewrite forallb_forall in Hnep, Hleg.
  unfold row_covers in Hcover. apply andb_true_iff in Hcover. destruct Hcover as [HcL HcN].
  apply existsb_cell_In in HcL. apply existsb_cell_In in HcN.
  specialize (Hleg _ HcL). specialize (Hnep _ HcN).
  unfold cell_ok in Hleg, Hnep.
  apply andb_true_iff in Hleg. destruct Hleg as [HpixL HnzL].
  apply andb_true_iff in Hnep. destruct Hnep as [HpixN HnzN].
  unfold Normalizer.flat_ok. cbv zeta. rewrite (bounds_flat p v _ Hmid).
  rewrite Hhalf. destruct p.
  - rewrite pixel_float64_legacy. apply andb_true_iff. split; [|exact HpixL].
    unfold Normalizer.divisor_nonzero, Normalizer.divisor.
    cbn [fst snd Np.sub Np.scalar_kind Np.at_kind Np.as64].
    cbn [legacy_cell snd] in HnzL.
    apply negb_true_iff. apply negb_true_iff in HnzL.
    destruct (F64.eqb _ (F64.of_Z 0)) eqn:Hz in |- *; [|reflexivity].
    apply zero_divisor_rounds in Hz. rewrite Hz in HnzL. discriminate.
  - rewrite Hh32. rewrite pixel_float32. apply andb_true_iff. split; [|exact HpixN].
    exact HnzN.
Qed.

Lemma flat_row_covered (v : F32.t) : flat_cover v = true -> flat_row v = true.
Proof.
  intros Hcover. unfold flat_cover in Hcover.
  apply andb_true_iff in Hcover. destruct Hcover as [Hmid Hrows].
  rewrite forallb_forall in Hrows.
  pose proof table_sound as Hsound. rewrite forallb_forall in Hsound.
  unfold flat_row. rewrite <- table_contrasts. apply forallb_forall.
  intros c Hc. apply in_map_iff in Hc. destruct Hc as (row & <- & Hrow).
  rewrite !flat_ok_covered; auto.
Qed.

(** The means of three bytes. *)
Lemma flat_thirds :
  forallb (fun total => flat_row (F32.of_ratio total 3)) (zrange 766) = true.
Proof.
  apply zrange_forallb. intros total Ht. apply flat_row_covered.
  exact (forallb_zrange _ _ cover_thirds total Ht).
Qed.

(** The means of two bytes that are not whole numbers. *)
Lemma flat_halves :
  forallb (fun k => flat_row (F32.of_ratio (2 * k + 1) 2)) (zrange 255) = true.
Proof.
  apply zrange_forallb. intros k Hk. apply flat_row_covered.
  exact (forallb_zrange _ _ cover_odd_halves k Hk).
Qed.

(** A whole number is a mean of three bytes. *)
Lemma whole_as_thirds :
  forallb (fun k => sf_same (F32.of_ratio k 1) (F32.of_ratio (3 * k) 3)
                    && sf_same (F32.of_ratio (2 * k) 2) (F32.of_ratio (3 * k) 3))
          (zrange 256) = true.
Proof. vm_cast_no_check (eq_refl true). Qed.

Lemma window_mean_flat_row (v : F32.t) : Normalizer.window_mean v -> flat_row v = true.
Proof.
  intros (total & count & Hcount & Htotal & ->).
  assert (Hthirds : forall t, 0 <= t <= 765 -> flat_row (F32.of_ratio t 3) = true).
  { intros t Ht. apply (forallb_zrange _ _ flat_thirds t). cbn. lia. }
  assert (Hwhole : forall k, 0 <= k <= 255 ->
            F32.of_ratio k 1 = F32.of_ratio (3 * k) 3 /\
            F32.of_ratio (2 * k) 2 = F32.of_ratio (3 * k) 3).
  { intros k Hk. pose proof (forallb_zrange _ _ whole_as_thirds k) as H.
    cbv beta in H. specialize (H ltac:(cbn; lia)).
    apply andb_true_iff in H. destruct H as [H1 H2].
    split; apply sf_same_eq; assumption. }
  assert (Hc : count = 1 \/ count = 2 \/ count = 3) by lia.
  destruct Hc as [-> | [-> | ->]].
  - rewrite (proj1 (Hwhole total ltac:(lia))). apply Hthirds. lia.
  - destruct (Z.even total) eqn:Heven.
    + apply Z.even_spec in Heven. destruct Heven as [k ->].
      rewrite (proj2 (Hwhole k ltac:(lia))). apply Hthirds. lia.
    + assert (Hodd : Z.odd total = true) by (rewrite <- Z.negb_even, Heven; reflexivity).
      apply Z.odd_spec in Hodd. destruct Hodd as [k ->].
      apply (forallb_zrange _ _ flat_halves k). cbn. lia.
  - apply Hthirds. lia.
Qed.

Lemma flat_ok_reachable (p : promotion) (v : F32.t) (keys : list Z) :
  Normalizer.window_mean v ->
  Normalizer.flat_ok p v (Session.contrast_boost (Session.press keys Session.initial)) = true.
Proof.
  intros Hv. pose proof (window_mean_flat_row v Hv) as Hrow.
  unfold flat_row in Hrow. rewrite forallb_forall in Hrow.
  specialize (Hrow _ (press_level keys Session.initial initial_level)).
  apply andb_true_iff in Hrow. destruct p; apply Hrow.
Qed.

Lemma fold_pick_constant (better : F32.t -> F32.t -> bool) (v : F32.t) (rest : list F32.t) :
  (forall y, In y rest -> y = v) ->
  fold_left (fun acc y => if better y acc then y else acc) rest v = v.
Proof.
  induction rest as [|y rest IH]; intros Hall; [reflexivity|].
  cbn [fold_left]. rewrite (Hall y (or_introl eq_refl)).
  destruct (better v v); apply IH; intros z Hz; apply Hall; right; exact Hz.
Qed.

Lemma pick_constant (better : F32.t -> F32.t -> bool) (thermal : frame) (v : F32.t) :
  List.concat thermal <> [] ->
  (forall x, In x (List.concat thermal) -> x = v) ->
  Normalizer.pick better thermal = Some v.
Proof.
  intros Hne Hall. unfold Normalizer.pick.
  destruct (List.concat thermal) as [|x rest]; [contradiction|].
  rewrite (Hall x (or_introl eq_refl)). f_equal.
  apply fold_pick_constant. intros y Hy. apply Hall. right. exact Hy.
Qed.

(** C1, as the code has it.  On a frame whose samples all equal one
    mean [v] of one to three bytes, at any contrast the keys can reach
    and under either promotion rule: minimum and maximum are [v], the
    divisor of line 196 is not zero, and every pixel of the 8-bit
    image is 127, the truncation of 0.5 * 255 by [astype(np.uint8)]. *)
Theorem flat_frame_maps_to_127 (p : promotion) (thermal : frame) (v : F32.t)
        (keys : list Z) :
  List.concat thermal <> [] ->
  (forall x, In x (List.concat thermal) -> x = v) ->
  Normalizer.window_mean v ->
  let contrast_boost := Session.contrast_boost (Session.press keys Session.initial) in
  Normalizer.amin thermal = Some v /\
  Normalizer.amax thermal = Some v /\
  Normalizer.divisor_nonzero p (Normalizer.bounds p v v contrast_boost) = true /\
  Normalizer.normalize p thermal contrast_boost
    = Some (map (map (fun _ => 127)) thermal).
Proof.
  intros Hne Hall Hv c.
  pose proof (flat_ok_reachable p v keys Hv) as Hok. fold c in Hok.
  unfold Normalizer.flat_ok in Hok. cbv zeta in Hok.
  apply andb_true_iff in Hok. destruct Hok as [Hdiv Hpix]. apply Z.eqb_eq in Hpix.
  assert (Hmin : Normalizer.amin thermal = Some v) by (apply pick_constant; assumption).
  assert (Hmax : Normalizer.amax thermal = Some v) by (apply pick_constant; assumption).
  repeat split; try assumption.
  unfold Normalizer.normalize. rewrite Hmin, Hmax. f_equal.
  apply map_ext_in. intros row Hrow. apply map_ext_in. intros x Hx.
  rewrite (Hall x); [exact Hpix|].
  apply in_concat. exists row. split; assumption.
Qed.

Lemma flat_frame_maps_to_127_witness :
  Normalizer.normalize Legacy [[F32.of_Z 100; F32.of_Z 100]; [F32.of_Z 100; F32.of_Z 100]]
    (Session.contrast_boost
       (Session.press [Session.ord "+"; Session.ord "+"] Session.initial))
  = Some [[127; 127]; [127; 127]].
Proof.
  apply (flat_frame_maps_to_127 Legacy
           [[F32.of_Z 100; F32.of_Z 100]; [F32.of_Z 100; F32.of_Z 100]]
           (F32.of_Z 100) [Session.ord "+"; Session.ord "+"]).
  - discriminate.
  - intros x Hx. cbn in Hx.
    destruct Hx as [<- | [<- | [<- | [<- | []]]]]; reflexivity.
  - exists 100, 1. split; [lia|]. split; [lia|]. reflexivity.
Defined.

(** The frame of constant value 100 of the end-to-end scenario, at the
    initial contrast: every pixel is 127 under both promotion rules, so
    the statement with 128 fails. *)
Lemma flat_frame_128_refuted :
  ~ (forall (p : promotion) (thermal : frame) (v : F32.t) (keys : list Z),
        List.concat thermal <> [] ->
        (forall x, In x (List.concat thermal) -> x = v) ->
        Normalizer.normalize p thermal
          (Session.contrast_boost (Session.press keys Session.initial))
        = Some (map (map (fun _ => 128)) thermal)).
Proof.
  intros H.
  assert (Hlegacy := H Legacy [[F32.of_Z 100; F32.of_Z 100]] (F32.of_Z 100) []).
  assert (Hnep := H Nep50 [[F32.of_Z 100; F32.of_Z 100]] (F32.of_Z 100) []).
  assert (Hne : List.concat [[F32.of_Z 100; F32.of_Z 100]] <> []) by discriminate.
  assert (Hall : forall x, In x (List.concat [[F32.of_Z 100; F32.of_Z 100]])
                           -> x = F32.of_Z 100).
  { intros x Hx. cbn in Hx.
    destruct Hx as [<- | [<- | []]]; reflexivity. }
  specialize (Hnep Hne Hall). vm_compute in Hnep. discriminate.
Qed.

(** *** The two ends of a non-flat frame *)

Lemma ends_whole :
  forallb (fun lo => forallb (ends_cell lo) (zrange 256)) (zrange 256) = true.
Proof.
  apply zrange_forallb. intros lo Hlo. apply zrange_forallb. intros hi Hhi.
  unfold ends_cell. destruct (Z.ltb_spec lo hi) as [Hlt|]; [|reflexivity].
  cbn in Hlo, Hhi. rewrite !ends_ok_whole by lia. reflexivity.
Qed.

(** Whole-number extremes, as in every non-flat frame the extractor
    delivers, are mapped without any rounding: at the initial contrast
    1.0 and under either promotion rule the samples equal to the
    minimum [lo] map to 0 and those equal to the maximum [hi] to 255
    exactly. *)
Theorem whole_samples_reach_both_ends (p : promotion) (thermal : frame) (lo hi : Z) :
  Normalizer.amin thermal = Some (F32.of_Z lo) ->
  Normalizer.amax thermal = Some (F32.of_Z hi) ->
  0 <= lo < hi /\ hi <= 255 ->
  exists thermal_8bit,
    Normalizer.normalize p thermal Session.contrast_init = Some thermal_8bit /\
    forall r c : nat,
      (Extract.at_ thermal r c = Some (F32.of_Z lo) ->
       Extract.at_ thermal_8bit r c = Some 0) /\
      (Extract.at_ thermal r c = Some (F32.of_Z hi) ->
       Extract.at_ thermal_8bit r c = Some 255).
Proof.
  intros Hmin Hmax Hrange.
  pose proof (forallb_zrange _ _ ends_whole lo ltac:(cbn; lia)) as Hrow.
  cbv beta in Hrow.
  pose proof (forallb_zrange _ _ Hrow hi ltac:(cbn; lia)) as Hcell.
  unfold ends_cell in Hcell.
  destruct (Z.ltb_spec lo hi) as [_|]; [|lia].
  apply andb_true_iff in Hcell.
  assert (Hok : Normalizer.ends_ok p (F32.of_Z lo) (F32.of_Z hi) Session.contrast_init = true)
    by (destruct p; apply Hcell).
  unfold Normalizer.ends_ok in Hok. cbv zeta in Hok.
  apply andb_true_iff in Hok. destruct Hok as [Hlo Hhi].
  apply Z.eqb_eq in Hlo. apply Z.eqb_eq in Hhi.
  eexists. split.
  - unfold Normalizer.normalize. rewrite Hmin, Hmax. reflexivity.
  - intros r c. rewrite at_map_map. split; intros ->; cbn [option_map]; f_equal; assumption.
Qed.

Lemma whole_samples_reach_both_ends_witness :
  exists thermal_8bit,
    Normalizer.normalize Nep50 [[F32.of_Z 20; F32.of_Z 30; F32.of_Z 25]]
                         Session.contrast_init = Some thermal_8bit /\
    Extract.at_ thermal_8bit 0 0 = Some 0 /\
    Extract.at_ thermal_8bit 0 1 = Some 255.
Proof.
  destruct (whole_samples_reach_both_ends Nep50
              [[F32.of_Z 20; F32.of_Z 30; F32.of_Z 25]] 20 30)
    as (img & Himg & Hends).
  - reflexivity.
  - reflexivity.
  - lia.
  - exists img. split; [exact Himg|]. split.
    + apply (proj1 (Hends 0%nat 0%nat)). reflexivity.
    + apply (proj2 (Hends 0%nat 1%nat)). reflexivity.
Defined.

(** The means of two or three bytes are not whole numbers, and lines
    191-197 round at every step.  What follows bounds the error of
    each step over the real numbers, for any minimum and maximum at
    least 1 apart. *)

(** *** Rounding, in general *)

Lemma shr_record_of_loc_m (m : Z) (l : location) : shr_m (shr_record_of_loc m l) = m.
Proof. destruct l as [|[]]; reflexivity. Qed.

Lemma shr_1_m (r : shr_record) : 0 <= shr_m r -> shr_m (shr_1 r) = shr_m r / 2.
Proof.
  destruct r as [m r s]. cbn [shr_m]. intros Hm.
  destruct m as [|[q|q|]|]; cbn [shr_1 shr_m]; try reflexivity.
  - rewrite Pos2Z.inj_xI. apply (Z.div_unique _ 2 _ 1); lia.
  - rewrite Pos2Z.inj_xO. apply (Z.div_unique _ 2 _ 0); lia.
  - lia.
Qed.

Lemma shr_m_iter (n : nat) (r : shr_record) :
  0 <= shr_m r -> shr_m (Nat.iter n shr_1 r) = shr_m r / 2 ^ Z.of_nat n.
Proof.
  intros Hr. induction n as [|n IH].
  - cbn. rewrite Z.div_1_r. reflexivity.
  - rewrite Nat.iter_succ, shr_1_m.
    + rewrite IH, Nat2Z.inj_succ, Z.pow_succ_r by lia.
      rewrite Z.div_div by lia. f_equal. lia.
    + rewrite IH. apply Z.div_pos; lia.
Qed.

(** Shifting right by [k] bits divides the mantissa by [2^k], whatever
    the two bits that record the digits shifted out. *)
Lemma shr_spec (r : shr_record) (e k : Z) :
  0 <= shr_m r -> 0 <= k ->
  shr_m (fst (shr r e k)) = shr_m r / 2 ^ k /\ snd (shr r e k) = e + k.
Proof.
  intros Hr Hk. destruct k as [|p|p]; [| |lia].
  - cbn [shr fst snd]. rewrite Z.pow_0_r, Z.div_1_r. lia.
  - cbn [shr fst snd]. rewrite iter_pos_nat, shr_m_iter by exact Hr.
    rewrite positive_nat_Z. split; reflexivity.
Qed.

Lemma round_nearest_even_bounds (m : Z) (l : location) :
  m <= round_nearest_even m l <= m + 1.
Proof. destruct l as [|[]]; cbn [round_nearest_even]; try destruct (Z.even m); lia. Qed.

Lemma Zdigits2_bounds (x : Z) : 0 < x -> 2 ^ (Zdigits2 x - 1) <= x < 2 ^ Zdigits2 x.
Proof. destruct x as [|p|p]; try lia. intros _. apply digits2_pos_bound. Qed.

Lemma Zdigits2_pos (x : Z) : 0 < x -> 0 < Zdigits2 x.
Proof. destruct x; cbn; lia. Qed.

Lemma Zdigits2_unique (x n : Z) : 0 < x -> 2 ^ (n - 1) <= x < 2 ^ n -> Zdigits2 x = n.
Proof.
  intros Hx [Hlo Hhi]. pose proof (Zdigits2_bounds x Hx) as [Dlo Dhi].
  pose proof (Zdigits2_pos x Hx) as Hd.
  assert (Hn : 0 < n).
  { destruct (Z_lt_le_dec 0 n) as [|Hle]; [assumption|]. exfalso.
    destruct (Z.eq_dec n 0) as [-> | Hne]; [cbn in Hhi; lia|].
    rewrite Z.pow_neg_r in Hhi by lia. lia. }
  destruct (Z.lt_trichotomy (Zdigits2 x) n) as [Hlt | [Heq | Hgt]]; [|exact Heq|].
  - exfalso. assert (2 ^ Zdigits2 x <= 2 ^ (n - 1)) by (apply Z.pow_le_mono_r; lia). lia.
  - exfalso. assert (2 ^ n <= 2 ^ (Zdigits2 x - 1)) by (apply Z.pow_le_mono_r; lia). lia.
Qed.

Section Rounding.

Variables prec emax : Z.
Hypothesis prec_pos : 0 < prec.

Local Abbreviation fexp_ := (fexp prec emax).
Local Abbreviation emin_ := (emin prec emax).

(** The rounding step of every operation: from a mantissa [mx] at an
    exponent [ex] not above the one its magnitude calls for, the
    result stands for a whole number [N] of units [2^E], and [N] is
    the quotient of [mx] by the bits shifted out or its successor. *)
Lemma binary_round_aux_rep (s : bool) (mx ex : Z) (lx : location) :
  0 <= mx ->
  let E := fexp_ (Zdigits2 mx + ex) in
  ex <= E -> E < emax - prec ->
  exists N : Z,
    mx / 2 ^ (E - ex) <= N <= mx / 2 ^ (E - ex) + 1 /\
    (lx = loc_Exact -> E = ex -> N = mx) /\
    Ieee.rep prec emax s (binary_round_aux prec emax s mx ex lx) N E.
Proof.
  intros Hmx E Hk Hov.
  unfold binary_round_aux, shr_fexp. fold E.
  set (k := E - ex).
  assert (Hk0 : 0 <= k) by (unfold k; lia).
  pose proof (shr_spec (shr_record_of_loc mx lx) ex k) as Hshr.
  rewrite shr_record_of_loc_m in Hshr. specialize (Hshr Hmx Hk0).
  assert (Hexact : lx = loc_Exact -> E = ex ->
                   round_nearest_even (shr_m (fst (shr (shr_record_of_loc mx lx) ex k)))
                     (loc_of_shr_record (fst (shr (shr_record_of_loc mx lx) ex k))) = mx).
  { intros -> HE. replace k with 0 by (unfold k; lia). reflexivity. }
  destruct (shr (shr_record_of_loc mx lx) ex k) as [r1 e1]. cbn [fst snd] in Hshr, Hexact.
  destruct Hshr as [Hq He1]. replace (ex + k) with E in He1 by (unfold k; lia). subst e1.
  set (q := mx / 2 ^ k) in *.
  pose proof (round_nearest_even_bounds (shr_m r1) (loc_of_shr_record r1)) as Hm1.
  set (m1 := round_nearest_even (shr_m r1) (loc_of_shr_record r1)) in *.
  rewrite Hq in Hm1.
  assert (Hq0 : 0 <= q) by (apply Z.div_pos; lia).
  assert (Hpk : 0 < 2 ^ k) by (apply Z.pow_pos_nonneg; lia).
  assert (Hqhi : q < 2 ^ prec).
  { destruct (Z.eq_dec mx 0) as [-> | Hnz].
    - unfold q. rewrite Z.div_0_l by lia. apply Z.pow_pos_nonneg; lia.
    - pose proof (Zdigits2_bounds mx ltac:(lia)) as [_ Dhi].
      apply Z.div_lt_upper_bound; [lia|].
      rewrite <- Z.pow_add_r by lia.
      apply Z.lt_le_trans with (1 := Dhi). apply Z.pow_le_mono_r; [lia|].
      unfold k, E, fexp. lia. }
  assert (Hqlo : emin_ < E -> 2 ^ (prec - 1) <= q).
  { intros Hnorm.
    assert (HE : E = Zdigits2 mx + ex - prec) by (unfold E, fexp in *; lia).
    assert (Hmxpos : 0 < mx).
    { destruct (Z.eq_dec mx 0) as [-> | ]; [|lia].
      cbn [Zdigits2] in HE. lia. }
    pose proof (Zdigits2_bounds mx Hmxpos) as [Dlo _].
    apply Z.div_le_lower_bound; [lia|].
    rewrite <- Z.pow_add_r by lia.
    replace (k + (prec - 1)) with (Zdigits2 mx - 1) by (unfold k; lia). exact Dlo. }
  exists m1. split; [exact Hm1|]. split; [exact Hexact|].
  destruct (Z.eq_dec m1 0) as [Hz | Hnz].
  - (* the result is zero *)
    rewrite Hz. cbn [Zdigits2]. rewrite Z.add_0_l.
    assert (Hzero : shr_m (fst (shr (shr_record_of_loc 0 loc_Exact) E (fexp_ E - E))) = 0).
    { destruct (fexp_ E - E) as [|j|j] eqn:Hj; [reflexivity| |reflexivity].
      pose proof (shr_spec (shr_record_of_loc 0 loc_Exact) E (Zpos j)) as Hs.
      rewrite shr_record_of_loc_m in Hs. destruct Hs as [Hs _]; [lia|lia|].
      rewrite Hs. apply Z.div_0_l. lia. }
    destruct (shr (shr_record_of_loc 0 loc_Exact) E (fexp_ E - E)) as [r2 e2].
    cbn [fst] in Hzero. rewrite Hzero. left. split; reflexivity.
  - destruct (Z_lt_le_dec m1 (2 ^ prec)) as [Hlt | Hge].
    + (* no carry *)
      assert (Hd1 : Zdigits2 m1 <= prec) by (apply Zdigits2_small; lia).
      assert (Hcanon : fexp_ (Zdigits2 m1 + E) = E).
      { destruct (Z_lt_le_dec (emin_) E) as [Hnorm | Hsub].
        - specialize (Hqlo Hnorm).
          assert (Zdigits2 m1 = prec).
          { apply Zdigits2_unique; lia. }
          unfold fexp in *. lia.
        - unfold E, fexp in *. lia. }
      rewrite Hcanon, Z.sub_diag. cbn [shr_record_of_loc shr shr_m].
      destruct m1 as [|m|m]; [lia| |lia].
      assert (Hfin : (E <=? emax - prec) = true) by (apply Z.leb_le; lia).
      rewrite Hfin. right. exists m, E.
      split; [reflexivity|]. split.
      * unfold bounded, canonical_mantissa. cbn [Zdigits2] in Hcanon.
        rewrite Hcanon, Z.eqb_refl, Hfin. reflexivity.
      * split; [lia|]. rewrite Z.sub_diag, Z.pow_0_r. lia.
    + (* the mantissa reached 2^prec *)
      assert (Hm1eq : m1 = 2 ^ prec) by lia.
      assert (Hd1 : Zdigits2 m1 = prec + 1).
      { apply Zdigits2_unique; [lia|]. rewrite Hm1eq.
        replace (prec + 1 - 1) with prec by lia. split; [lia|].
        apply Z.pow_lt_mono_r; lia. }
      assert (Hshift : fexp_ (Zdigits2 m1 + E) - E = 1).
      { rewrite Hd1. unfold E, fexp in *. lia. }
      rewrite Hshift. cbn [shr_record_of_loc shr shr_m iter_pos].
      pose proof (shr_1_m (Build_shr_record m1 false false)) as H1.
      cbn [shr_m] in H1. specialize (H1 ltac:(lia)).
      assert (Hhalf : m1 / 2 = 2 ^ (prec - 1)).
      { rewrite Hm1eq. replace prec with (Z.succ (prec - 1)) at 1 by lia.
        rewrite Z.pow_succ_r by lia. rewrite Z.mul_comm, Z.div_mul by lia. reflexivity. }
      rewrite Hhalf in H1.
      destruct (shr_1 (Build_shr_record m1 false false)) as [m2 r2 s2].
      cbn [shr_m] in H1 |- *. subst m2.
      assert (Hpos : 0 < 2 ^ (prec - 1)) by (apply Z.pow_pos_nonneg; lia).
      destruct (2 ^ (prec - 1)) as [|m|m] eqn:Hm; [lia| |lia].
      assert (Hfin : (E + 1 <=? emax - prec) = true) by (apply Z.leb_le; lia).
      rewrite Hfin. right. exists m, (E + 1).
      split; [reflexivity|]. split.
      * unfold bounded, canonical_mantissa.
        assert (Hdm : Zdigits2 (Zpos m) = prec).
        { apply Zdigits2_unique; [lia|]. rewrite <- Hm. split; [lia|].
          apply Z.pow_lt_mono_r; lia. }
        cbn [Zdigits2] in Hdm. rewrite Hdm, Hfin.
        assert (Hc : fexp_ (prec + (E + 1)) = E + 1) by (unfold E, fexp in *; lia).
        rewrite Hc, Z.eqb_refl. reflexivity.
      * split; [lia|]. replace (E + 1 - E) with 1 by lia.
        rewrite <- Hm, Hm1eq. replace prec with (Z.succ (prec - 1)) at 2 by lia.
        rewrite Z.pow_succ_r by lia. lia.
Qed.

End Rounding.

(** *** Values as real numbers *)

Local Abbreviation pow2 := (powerRZ 2).

Lemma pow2_pos (e : Z) : (0 < pow2 e)%R.
Proof. apply powerRZ_lt. lra. Qed.

Lemma pow2_add (a b : Z) : pow2 (a + b) = (pow2 a * pow2 b)%R.
Proof. apply powerRZ_add. lra. Qed.

Lemma pow2_IZR (k : Z) : 0 <= k -> IZR (2 ^ k) = pow2 k.
Proof.
  intros Hk. rewrite <- (Z2Nat.id k Hk), <- pow_IZR, pow_powerRZ. reflexivity.
Qed.

Lemma pow2_le (a b : Z) : a <= b -> (pow2 a <= pow2 b)%R.
Proof.
  intros Hab. replace b with (a + (b - a)) by lia. rewrite pow2_add.
  rewrite <- (pow2_IZR (b - a)) by lia.
  assert (1 <= 2 ^ (b - a)) by (apply Z.lt_pred_le, Z.pow_pos_nonneg; lia).
  pose proof (pow2_pos a). apply IZR_le in H. nra.
Qed.

Lemma pow2_lt (a b : Z) : a < b -> (pow2 a < pow2 b)%R.
Proof.
  intros Hab. replace b with (a + (b - a)) by lia. rewrite pow2_add.
  rewrite <- (pow2_IZR (b - a)) by lia.
  assert (2 <= 2 ^ (b - a)).
  { replace 2 with (2 ^ 1) at 1 by reflexivity. apply Z.pow_le_mono_r; lia. }
  pose proof (pow2_pos a). apply IZR_le in H. nra.
Qed.

Lemma quotient_ge (a b c : R) : (0 < b)%R -> (c * b <= a)%R -> (c <= a / b)%R.
Proof.
  intros Hb H. apply (Rmult_le_reg_r b); [assumption|].
  unfold Rdiv. rewrite Rmult_assoc, Rinv_l by lra. lra.
Qed.

Lemma quotient_le (a b c : R) : (0 < b)%R -> (a <= c * b)%R -> (a / b <= c)%R.
Proof.
  intros Hb H. apply (Rmult_le_reg_r b); [assumption|].
  unfold Rdiv. rewrite Rmult_assoc, Rinv_l by lra. lra.
Qed.

Lemma quotient_lt (a b c : R) : (0 < b)%R -> (a < c * b)%R -> (a / b < c)%R.
Proof.
  intros Hb H. apply (Rmult_lt_reg_r b); [assumption|].
  unfold Rdiv. rewrite Rmult_assoc, Rinv_l by lra. lra.
Qed.

(** A number of at least [d] bits, in units of [2^e], is not below
    [2^(d - 1 + e)]. *)
Lemma magnitude_digits (M e B : Z) :
  M <> 0 -> (- pow2 B < IZR M * pow2 e < pow2 B)%R -> Zdigits2 M + e <= B.
Proof.
  intros Hnz HM. destruct (Z_le_gt_dec (Zdigits2 M + e) B) as [|Hgt]; [assumption|exfalso].
  assert (Hbig : (pow2 B <= IZR (Z.abs M) * pow2 e)%R).
  { pose proof (Zdigits2_bounds (Z.abs M) ltac:(lia)) as [Dlo _].
    replace (Zdigits2 (Z.abs M)) with (Zdigits2 M) in Dlo by (destruct M; reflexivity).
    assert (Hd : 0 < Zdigits2 M) by (destruct M; cbn; lia).
    apply IZR_le in Dlo. rewrite pow2_IZR in Dlo by lia.
    pose proof (pow2_le B (Zdigits2 M - 1 + e) ltac:(lia)) as Hle.
    rewrite pow2_add in Hle. pose proof (pow2_pos e). nra. }
  destruct (Z_le_gt_dec 0 M) as [Hpos | Hneg].
  - rewrite Z.abs_eq in Hbig by lia. lra.
  - rewrite Z.abs_neq, opp_IZR in Hbig by lia. lra.
Qed.

Section Values.

Variables prec emax : Z.
Hypothesis prec_pos : 0 < prec.
Hypothesis emax_large : 2 <= emax.

Local Abbreviation fexp_ := (fexp prec emax).
Local Abbreviation emin_ := (emin prec emax).
Local Abbreviation proper_ := (Ieee.proper prec emax).
Local Abbreviation rep_ := (Ieee.rep prec emax).

Lemma rep_value (s : bool) (x : spec_float) (N E : Z) :
  rep_ s x N E ->
  value x = (IZR (cond_Zopp s N) * pow2 E)%R /\ proper_ x = true.
Proof.
  intros [[-> ->] | (m & e & -> & Hb & HE & HN)].
  - split; [|reflexivity]. destruct s; cbn; lra.
  - split; [|exact Hb]. cbn [value]. subst N.
    replace (cond_Zopp s (Zpos m * 2 ^ (e - E))) with (cond_Zopp s (Zpos m) * 2 ^ (e - E))
      by (destruct s; cbn [cond_Zopp]; lia).
    rewrite mult_IZR, pow2_IZR by lia.
    replace (pow2 e) with (pow2 (e - E) * pow2 E)%R
      by (rewrite <- pow2_add; f_equal; lia).
    lra.
Qed.

(** A quotient or its successor, in units of [2^(e + k)], is within
    one unit of the number divided. *)
Lemma enclosure (M N e k : Z) :
  0 <= k -> 0 <= M -> M / 2 ^ k <= N <= M / 2 ^ k + 1 ->
  (IZR (M + 1) * pow2 e - pow2 (e + k) <= IZR N * pow2 (e + k)
   <= IZR M * pow2 e + pow2 (e + k))%R.
Proof.
  intros Hk HM HN.
  assert (Hpk : 0 < 2 ^ k) by (apply Z.pow_pos_nonneg; lia).
  pose proof (Z.mul_div_le M (2 ^ k) Hpk) as Hlo.
  pose proof (Z.mul_succ_div_gt M (2 ^ k) Hpk) as Hhi.
  assert (H1 : (N - 1) * 2 ^ k <= M) by nia.
  assert (H2 : M + 1 <= (N + 1) * 2 ^ k) by nia.
  apply IZR_le in H1, H2. rewrite mult_IZR, pow2_IZR in H1, H2 by lia.
  rewrite minus_IZR in H1. rewrite !plus_IZR in H2. rewrite plus_IZR.
  rewrite pow2_add. pose proof (pow2_pos e). pose proof (pow2_pos k). nra.
Qed.

(** The rounding step on a number [X] between [mx] and [mx + 1] units
    of [2^ex]: the result is within one unit of the last place of [X],
    on the side of the sign. *)
Lemma binary_round_aux_value (s : bool) (mx ex : Z) (lx : location) (B : Z) (X : R) :
  0 <= mx -> ex <= fexp_ (Zdigits2 mx + ex) ->
  (IZR mx * pow2 ex <= X < IZR (mx + 1) * pow2 ex)%R ->
  (X < pow2 B)%R -> emin_ <= B - prec -> B < emax ->
  let r := binary_round_aux prec emax s mx ex lx in
  proper_ r = true /\
  exists u : R, value r = (if s then - u else u)%R /\ (0 <= u)%R /\
                (X - pow2 (B - prec) <= u <= X + pow2 (B - prec))%R.
Proof.
  intros Hmx Hk HX Hmag Hemin HB r.
  set (E := fexp_ (Zdigits2 mx + ex)) in *.
  assert (HEB : E <= B - prec).
  { destruct (Z.eq_dec mx 0) as [-> | Hnz].
    - cbn [Zdigits2] in E. unfold E, fexp in *. lia.
    - assert (Zdigits2 mx + ex <= B).
      { apply magnitude_digits; [lia|]. pose proof (pow2_pos ex). pose proof (pow2_pos B).
        assert (0 < IZR mx)%R by (apply IZR_lt; lia). nra. }
      unfold E, fexp. lia. }
  assert (Hunit : (pow2 E <= pow2 (B - prec))%R) by (apply pow2_le; exact HEB).
  destruct (binary_round_aux_rep prec emax prec_pos s mx ex lx Hmx)
    as (N & Hbounds & _ & HN); [fold E; lia | fold E; lia |].
  fold E in Hbounds, HN.
  pose proof (enclosure mx N ex (E - ex) ltac:(lia) Hmx Hbounds) as Henc.
  replace (ex + (E - ex)) with E in Henc by lia.
  destruct (rep_value s r N E HN) as [Hv Hp]. split; [exact Hp|].
  exists (IZR N * pow2 E)%R. split; [|split].
  - rewrite Hv. destruct s; cbn [cond_Zopp]; rewrite ?opp_IZR; lra.
  - assert (0 <= N) by (pose proof (Z.div_pos mx (2 ^ (E - ex)) Hmx
                                       ltac:(apply Z.pow_pos_nonneg; lia)); lia).
    apply IZR_le in H. pose proof (pow2_pos E). nra.
  - lra.
Qed.

(** A number that needs no rounding is represented as it is. *)
Lemma binary_round_exact (s : bool) (m : positive) (e : Z) :
  let E := fexp_ (Zpos (digits2_pos m) + e) in
  E <= e -> E < emax - prec ->
  proper_ (binary_round prec emax s m e) = true /\
  value (binary_round prec emax s m e) = (IZR (cond_Zopp s (Zpos m)) * pow2 e)%R.
Proof.
  intros E Hle Hov. unfold binary_round. fold E.
  destruct (shl_align_value m e E Hle) as [Hval Hexp].
  pose proof (shl_align_digits m e E Hle) as Hdig.
  destruct (shl_align m e E) as [mz ez]. cbn [fst snd] in *. subst ez.
  destruct (binary_round_aux_rep prec emax prec_pos s (Zpos mz) E loc_Exact)
    as (N & _ & Hexact & HN).
  - lia.
  - cbn [Zdigits2]. rewrite Hdig. fold E. lia.
  - cbn [Zdigits2]. rewrite Hdig. fold E. lia.
  - cbn [Zdigits2] in Hexact, HN. rewrite Hdig in Hexact, HN. fold E in Hexact, HN.
    specialize (Hexact eq_refl eq_refl).
    destruct (rep_value s _ N E HN) as [Hv Hp]. split; [exact Hp|].
    rewrite Hv, Hexact, Hval.
    replace (cond_Zopp s (Zpos m * 2 ^ (e - E))) with (cond_Zopp s (Zpos m) * 2 ^ (e - E))
      by (destruct s; cbn [cond_Zopp]; lia).
    rewrite mult_IZR, pow2_IZR by lia.
    replace (pow2 e) with (pow2 (e - E) * pow2 E)%R
      by (rewrite <- pow2_add; f_equal; lia).
    lra.
Qed.

Lemma binary_normalize_exact (M e : Z) (sz : bool) :
  let E := fexp_ (Zdigits2 M + e) in
  E <= e -> E < emax - prec ->
  proper_ (binary_normalize prec emax M e sz) = true /\
  value (binary_normalize prec emax M e sz) = (IZR M * pow2 e)%R.
Proof.
  intros E Hle Hov. destruct M as [|m|m]; cbn [binary_normalize].
  - split; [reflexivity|]. cbn [value]. lra.
  - apply (binary_round_exact false m e); assumption.
  - apply (binary_round_exact true m e); assumption.
Qed.

(** Rounding the number [M * 2^e]: the result is within one unit of
    the last place, and the unit is set by the magnitude. *)
Lemma binary_round_value (s : bool) (m : positive) (e B : Z) :
  (IZR (Zpos m) * pow2 e < pow2 B)%R -> emin_ <= B - prec -> B < emax ->
  let r := binary_round prec emax s m e in
  let exact := (IZR (cond_Zopp s (Zpos m)) * pow2 e)%R in
  proper_ r = true /\
  (exact - pow2 (B - prec) <= value r <= exact + pow2 (B - prec))%R.
Proof.
  intros Hmag Hemin HB r exact.
  set (E := fexp_ (Zpos (digits2_pos m) + e)).
  assert (HEB : E <= B - prec).
  { assert (Zdigits2 (Zpos m) + e <= B).
    { apply magnitude_digits; [lia|]. pose proof (pow2_pos e). pose proof (pow2_pos B).
      assert (0 < IZR (Zpos m))%R by (apply IZR_lt; lia). nra. }
    cbn [Zdigits2] in H. unfold E, fexp. lia. }
  assert (Hunit : (pow2 E <= pow2 (B - prec))%R) by (apply pow2_le; exact HEB).
  assert (Hrep : exists N, rep_ s r N E /\
            (IZR (Zpos m) * pow2 e - pow2 E <= IZR N * pow2 E <= IZR (Zpos m) * pow2 e + pow2 E)%R).
  { unfold r, binary_round. fold E.
    destruct (Z_le_gt_dec E e) as [Hle | Hgt].
    - destruct (shl_align_value m e E Hle) as [Hval Hexp].
      pose proof (shl_align_digits m e E Hle) as Hdig.
      destruct (shl_align m e E) as [mz ez]. cbn [fst snd] in *. subst ez.
      destruct (binary_round_aux_rep prec emax prec_pos s (Zpos mz) E loc_Exact)
        as (N & _ & Hexact & HN).
      + lia.
      + cbn [Zdigits2]. rewrite Hdig. fold E. lia.
      + cbn [Zdigits2]. rewrite Hdig. fold E. lia.
      + cbn [Zdigits2] in Hexact, HN. rewrite Hdig in Hexact, HN. fold E in Hexact, HN.
        specialize (Hexact eq_refl eq_refl). exists N. split; [exact HN|].
        assert (Heq : (IZR N * pow2 E = IZR (Zpos m) * pow2 e)%R).
        { rewrite Hexact, Hval, mult_IZR, pow2_IZR by lia.
          replace (pow2 e) with (pow2 (e - E) * pow2 E)%R
            by (rewrite <- pow2_add; f_equal; lia).
          lra. }
        rewrite Heq. pose proof (pow2_pos E). lra.
    - assert (Hsh : shl_align m e E = (m, e)).
      { unfold shl_align. destruct (E - e) eqn:Hd; try reflexivity. lia. }
      rewrite Hsh.
      destruct (binary_round_aux_rep prec emax prec_pos s (Zpos m) e loc_Exact)
        as (N & Hbounds & _ & HN).
      + lia.
      + cbn [Zdigits2]. fold E. lia.
      + cbn [Zdigits2]. fold E. lia.
      + cbn [Zdigits2] in Hbounds, HN. fold E in Hbounds, HN.
        exists N. split; [exact HN|].
        pose proof (enclosure (Zpos m) N e (E - e) ltac:(lia) ltac:(lia) Hbounds) as Henc.
        replace (e + (E - e)) with E in Henc by lia.
        rewrite plus_IZR in Henc. pose proof (pow2_pos e). nra. }
  destruct Hrep as (N & HN & Henc).
  destruct (rep_value s r N E HN) as [Hv Hp]. split; [exact Hp|].
  rewrite Hv. unfold exact.
  destruct s; cbn [cond_Zopp]; rewrite ?opp_IZR; lra.
Qed.

Lemma binary_normalize_value (M e B : Z) (sz : bool) :
  (- pow2 B < IZR M * pow2 e < pow2 B)%R -> emin_ <= B - prec -> B < emax ->
  let r := binary_normalize prec emax M e sz in
  proper_ r = true /\
  (IZR M * pow2 e - pow2 (B - prec) <= value r <= IZR M * pow2 e + pow2 (B - prec))%R.
Proof.
  intros Hmag Hemin HB. pose proof (pow2_pos (B - prec)).
  destruct M as [|m|m]; cbn [binary_normalize].
  - split; [reflexivity|]. cbn [value]. lra.
  - apply (binary_round_value false m e B); [lra|lia|lia].
  - apply (binary_round_value true m e B); [|lia|lia].
    change (Zneg m) with (- Zpos m) in Hmag. rewrite opp_IZR in Hmag. lra.
Qed.

(** **** The operations *)

Lemma proper_canonical (s : bool) (m : positive) (e : Z) :
  proper_ (S754_finite s m e) = true ->
  fexp_ (Zpos (digits2_pos m) + e) = e /\ e <= emax - prec.
Proof.
  cbn [Ieee.proper]. unfold bounded, canonical_mantissa.
  intros H. apply andb_true_iff in H. destruct H as [H1 H2].
  apply Z.eqb_eq in H1. apply Z.leb_le in H2. split; assumption.
Qed.

Lemma value_finite (s : bool) (m : positive) (e : Z) :
  value (S754_finite s m e) = (IZR (cond_Zopp s (Zpos m)) * pow2 e)%R.
Proof. reflexivity. Qed.

Lemma value_sign (s : bool) (m : positive) (e : Z) :
  if s then (value (S754_finite s m e) < 0)%R else (0 < value (S754_finite s m e))%R.
Proof.
  cbn [value]. pose proof (pow2_pos e).
  assert (0 < IZR (Zpos m))%R by (apply IZR_lt; lia).
  destruct s; cbn [cond_Zopp]; rewrite ?opp_IZR; nra.
Qed.

Lemma aligned_value (s : bool) (m : positive) (e ez : Z) :
  ez <= e ->
  (IZR (cond_Zopp s (Zpos (fst (shl_align m e ez)))) * pow2 ez)%R
  = value (S754_finite s m e).
Proof.
  intros Hle. rewrite (shl_align_signed s m e ez Hle), mult_IZR, pow2_IZR by lia.
  cbn [value]. replace (pow2 e) with (pow2 (e - ez) * pow2 ez)%R
    by (rewrite <- pow2_add; f_equal; lia).
  lra.
Qed.

Lemma SFadd_value (x y : spec_float) (B : Z) :
  proper_ x = true -> proper_ y = true ->
  (- pow2 B < value x + value y < pow2 B)%R -> emin_ <= B - prec -> B < emax ->
  proper_ (SFadd prec emax x y) = true /\
  (value x + value y - pow2 (B - prec) <= value (SFadd prec emax x y)
   <= value x + value y + pow2 (B - prec))%R.
Proof.
  intros Hx Hy Hmag Hemin HB. pose proof (pow2_pos (B - prec)) as Hu.
  destruct x as [sx|sx| |sx mx ex]; try discriminate;
    destruct y as [sy|sy| |sy my ey]; try discriminate.
  - destruct sx, sy; cbn; split; try reflexivity; lra.
  - cbn [SFadd]. split; [exact Hy|]. cbn [value] in *. lra.
  - cbn [SFadd]. split; [exact Hx|]. cbn [value] in *. lra.
  - unfold SFadd. cbv zeta. set (ez := Z.min ex ey).
    pose proof (aligned_value sx mx ex ez ltac:(unfold ez; lia)) as Ax.
    pose proof (aligned_value sy my ey ez ltac:(unfold ez; lia)) as Ay.
    set (Mx := cond_Zopp sx (Zpos (fst (shl_align mx ex ez)))) in *.
    set (My := cond_Zopp sy (Zpos (fst (shl_align my ey ez)))) in *.
    assert (Hsum : (IZR (Mx + My) * pow2 ez = value (S754_finite sx mx ex)
                                              + value (S754_finite sy my ey))%R)
      by (rewrite plus_IZR; lra).
    rewrite <- Hsum in *.
    apply binary_normalize_value; assumption.
Qed.

Lemma SFsub_value (x y : spec_float) (B : Z) :
  proper_ x = true -> proper_ y = true ->
  (- pow2 B < value x - value y < pow2 B)%R -> emin_ <= B - prec -> B < emax ->
  proper_ (SFsub prec emax x y) = true /\
  (value x - value y - pow2 (B - prec) <= value (SFsub prec emax x y)
   <= value x - value y + pow2 (B - prec))%R.
Proof.
  intros Hx Hy Hmag Hemin HB. pose proof (pow2_pos (B - prec)) as Hu.
  destruct x as [sx|sx| |sx mx ex]; try discriminate;
    destruct y as [sy|sy| |sy my ey]; try discriminate.
  - destruct sx, sy; cbn; split; try reflexivity; lra.
  - cbn [SFsub]. split; [exact Hy|]. rewrite !value_finite.
    cbn [value]. destruct sy; cbn [negb cond_Zopp]; rewrite ?opp_IZR; lra.
  - cbn [SFsub]. split; [exact Hx|]. cbn [value] in *. lra.
  - unfold SFsub. cbv zeta. set (ez := Z.min ex ey).
    pose proof (aligned_value sx mx ex ez ltac:(unfold ez; lia)) as Ax.
    pose proof (aligned_value sy my ey ez ltac:(unfold ez; lia)) as Ay.
    set (Mx := cond_Zopp sx (Zpos (fst (shl_align mx ex ez)))) in *.
    set (My := cond_Zopp sy (Zpos (fst (shl_align my ey ez)))) in *.
    assert (Hsum : (IZR (Mx - My) * pow2 ez = value (S754_finite sx mx ex)
                                              - value (S754_finite sy my ey))%R)
      by (rewrite minus_IZR; lra).
    rewrite <- Hsum in *.
    apply binary_normalize_value; assumption.
Qed.

(** Conversion from any other format. *)
Lemma round_value (x : spec_float) (B : Z) :
  match x with S754_zero _ | S754_finite _ _ _ => True | _ => False end ->
  (- pow2 B < value x < pow2 B)%R -> emin_ <= B - prec -> B < emax ->
  proper_ (Ieee.round prec emax x) = true /\
  (value x - pow2 (B - prec) <= value (Ieee.round prec emax x)
   <= value x + pow2 (B - prec))%R.
Proof.
  intros Hx Hmag Hemin HB. pose proof (pow2_pos (B - prec)) as Hu.
  destruct x as [sx|sx| |sx mx ex]; try contradiction.
  - cbn. split; [reflexivity|lra].
  - cbn [Ieee.round]. rewrite value_finite in *.
    apply binary_normalize_value; assumption.
Qed.

(** Conversion to a format that holds the value as it is. *)
Lemma round_exact (x : spec_float) :
  match x with
  | S754_zero _ => True
  | S754_finite _ m e =>
      fexp_ (Zpos (digits2_pos m) + e) <= e /\ fexp_ (Zpos (digits2_pos m) + e) < emax - prec
  | _ => False
  end ->
  proper_ (Ieee.round prec emax x) = true /\ value (Ieee.round prec emax x) = value x.
Proof.
  destruct x as [sx|sx| |sx mx ex]; try contradiction.
  - intros _. split; reflexivity.
  - intros [Hle Hov]. cbn [Ieee.round]. rewrite value_finite.
    apply binary_normalize_exact; destruct sx; cbn [cond_Zopp Zdigits2]; assumption.
Qed.

Lemma Zdigits2_mul (a b : positive) :
  Zpos (digits2_pos a) + Zpos (digits2_pos b) - 1 <= Zpos (digits2_pos (a * b)).
Proof.
  pose proof (digits2_pos_bound a) as [Alo _].
  pose proof (digits2_pos_bound b) as [Blo _].
  pose proof (digits2_pos_bound (a * b)) as [_ Chi].
  set (da := Zpos (digits2_pos a)) in *. set (db := Zpos (digits2_pos b)) in *.
  set (dc := Zpos (digits2_pos (a * b))) in *.
  destruct (Z_le_gt_dec (da + db - 1) dc) as [|Hgt]; [assumption|exfalso].
  assert (H : 2 ^ dc <= 2 ^ (da - 1 + (db - 1))) by (apply Z.pow_le_mono_r; lia).
  rewrite Z.pow_add_r in H by lia.
  rewrite Pos2Z.inj_mul in Chi.
  assert (0 < 2 ^ (da - 1)) by (apply Z.pow_pos_nonneg; lia).
  assert (0 < 2 ^ (db - 1)) by (apply Z.pow_pos_nonneg; lia).
  nia.
Qed.

Lemma SFmul_value (x y : spec_float) (B : Z) :
  proper_ x = true -> proper_ y = true ->
  (0 <= value x)%R -> (0 <= value y)%R ->
  (value x * value y < pow2 B)%R -> emin_ <= B - prec -> B < emax ->
  proper_ (SFmul prec emax x y) = true /\
  (0 <= value (SFmul prec emax x y))%R /\
  (value x * value y - pow2 (B - prec) <= value (SFmul prec emax x y)
   <= value x * value y + pow2 (B - prec))%R.
Proof.
  intros Hx Hy Hx0 Hy0 Hmag Hemin HB. pose proof (pow2_pos (B - prec)) as Hu.
  destruct x as [sx|sx| |sx mx ex]; try discriminate;
    destruct y as [sy|sy| |sy my ey]; try discriminate;
    try (cbn [SFmul value]; split; [reflexivity|]; cbn [value]; lra).
  pose proof (value_sign sx mx ex) as Sx. pose proof (value_sign sy my ey) as Sy.
  destruct sx; [lra|]. destruct sy; [lra|]. clear Sx Sy.
  destruct (proper_canonical _ _ _ Hx) as [Cx _].
  destruct (proper_canonical _ _ _ Hy) as [Cy _].
  cbn [SFmul xorb]. rewrite !value_finite in *. cbn [cond_Zopp] in *.
  assert (HX : (IZR (Zpos (mx * my)) * pow2 (ex + ey)
                = IZR (Zpos mx) * pow2 ex * (IZR (Zpos my) * pow2 ey))%R).
  { rewrite Pos2Z.inj_mul, mult_IZR, pow2_add. lra. }
  destruct (binary_round_aux_value false (Zpos (mx * my)) (ex + ey) loc_Exact B
              (IZR (Zpos mx) * pow2 ex * (IZR (Zpos my) * pow2 ey))%R)
    as [Hp (u & Hv & Hu0 & Hu')]; try assumption; try lia.
  - pose proof (Zdigits2_mul mx my). cbn [Zdigits2]. unfold fexp, emin in *. lia.
  - rewrite plus_IZR, <- HX. pose proof (pow2_pos (ex + ey)). lra.
  - split; [exact Hp|]. rewrite Hv. split; [exact Hu0|exact Hu'].
Qed.

(** The integer quotient the division rounds: it has enough bits, and
    the exact quotient lies between it and its successor. *)
Lemma SFdiv_core_value (mx my : positive) (ex ey : Z) :
  Zpos (digits2_pos mx) <= prec ->
  let '(q, e', l) := SFdiv_core_binary prec emax (Zpos mx) ex (Zpos my) ey in
  0 <= q /\ e' <= fexp_ (Zdigits2 q + e') /\
  (IZR q * pow2 e' <= (IZR (Zpos mx) * pow2 ex) / (IZR (Zpos my) * pow2 ey)
   < IZR (q + 1) * pow2 e')%R.
Proof.
  intros Hdx. unfold SFdiv_core_binary. cbn [Zdigits2].
  set (dx := Zpos (digits2_pos mx)) in *. set (dy := Zpos (digits2_pos my)).
  set (e' := Z.min (fexp_ (dx + ex - (dy + ey))) (ex - ey)).
  set (sh := ex - ey - e').
  assert (Hsh : 0 <= sh) by (unfold sh, e'; lia).
  set (m' := match sh with Zpos _ => Z.shiftl (Zpos mx) sh | 0 => Zpos mx | Zneg _ => 0 end).
  assert (Hm' : m' = Zpos mx * 2 ^ sh).
  { unfold m'. destruct sh as [|p|p] eqn:Hs; [cbn; lia| |lia].
    rewrite Z.shiftl_mul_pow2 by lia. reflexivity. }
  pose proof (Z.div_eucl_eq m' (Zpos my) ltac:(lia)) as Heq.
  pose proof (Z.mod_pos_bound m' (Zpos my) ltac:(lia)) as Hmod.
  unfold Z.modulo in Hmod.
  destruct (Z.div_eucl m' (Zpos my)) as [q r].
  assert (Hpsh : 0 < 2 ^ sh) by (apply Z.pow_pos_nonneg; lia).
  assert (Hq0 : 0 <= q) by nia.
  split; [exact Hq0|]. split.
  - destruct (Z_le_gt_dec e' (emin_)) as [Hlow | Hhigh]; [unfold fexp; fold emin_; lia|].
    assert (He' : e' = dx + ex - (dy + ey) - prec) by (unfold e', fexp in *; fold emin_ in *; lia).
    pose proof (digits2_pos_bound mx) as [Xlo _]. fold dx in Xlo.
    pose proof (digits2_pos_bound my) as [_ Yhi]. fold dy in Yhi.
    assert (Hdy : 0 < dy) by (unfold dy; lia).
    assert (Hshv : sh = prec - dx + dy) by (unfold sh; lia).
    assert (Hbig : 2 ^ (prec - 1) * 2 ^ dy <= m').
    { rewrite Hm', Hshv. rewrite <- Z.pow_add_r by lia.
      replace (prec - 1 + dy) with ((dx - 1) + (prec - dx + dy)) by lia.
      rewrite Z.pow_add_r by lia.
      apply Z.mul_le_mono_nonneg_r; [lia|exact Xlo]. }
    assert (Hqbig : 2 ^ (prec - 1) <= q).
    { assert (0 < 2 ^ (prec - 1)) by (apply Z.pow_pos_nonneg; lia).
      destruct (Z_le_gt_dec (2 ^ (prec - 1)) q) as [|Hsmall]; [assumption|exfalso]. nia. }
    assert (Hdq : prec <= Zdigits2 q).
    { assert (0 < 2 ^ (prec - 1)) by (apply Z.pow_pos_nonneg; lia).
      pose proof (Zdigits2_bounds q ltac:(lia)) as [_ Qhi].
      destruct (Z_le_gt_dec prec (Zdigits2 q)) as [|Hlt]; [assumption|exfalso].
      assert (2 ^ Zdigits2 q <= 2 ^ (prec - 1)).
      { apply Z.pow_le_mono_r; [lia|]. lia. }
      lia. }
    unfold fexp. lia.
  - assert (HY : (0 < IZR (Zpos my))%R) by (apply IZR_lt; lia).
    pose proof (pow2_pos ex) as Pex. pose proof (pow2_pos ey) as Pey.
    pose proof (pow2_pos e') as Pe'.
    assert (Hex : pow2 ex = (pow2 sh * pow2 e' * pow2 ey)%R).
    { rewrite <- !pow2_add. f_equal. unfold sh. lia. }
    assert (Hlo : (IZR q * IZR (Zpos my) <= IZR (Zpos mx) * pow2 sh)%R).
    { rewrite <- pow2_IZR, <- !mult_IZR by lia. apply IZR_le. nia. }
    assert (Hhi : (IZR (Zpos mx) * pow2 sh < IZR (q + 1) * IZR (Zpos my))%R).
    { rewrite <- pow2_IZR, <- !mult_IZR by lia. apply IZR_lt. nia. }
    assert (Hquot : ((IZR (Zpos mx) * pow2 ex) / (IZR (Zpos my) * pow2 ey)
                     = (IZR (Zpos mx) * pow2 sh / IZR (Zpos my)) * pow2 e')%R).
    { rewrite Hex. field. split; lra. }
    rewrite Hquot. split.
    + apply Rmult_le_compat_r; [lra|]. apply quotient_ge; lra.
    + apply Rmult_lt_compat_r; [lra|]. apply quotient_lt; lra.
Qed.

Lemma SFdiv_value (x y : spec_float) (B : Z) :
  proper_ x = true -> proper_ y = true -> (0 < value y)%R ->
  (- (pow2 B * value y) < value x < pow2 B * value y)%R ->
  emin_ <= B - prec -> B < emax ->
  proper_ (SFdiv prec emax x y) = true /\
  (value x / value y - pow2 (B - prec) <= value (SFdiv prec emax x y)
   <= value x / value y + pow2 (B - prec))%R.
Proof.
  intros Hx Hy Hy0 Hmag Hemin HB. pose proof (pow2_pos (B - prec)) as Hu.
  destruct y as [sy|sy| |sy my ey]; try discriminate; [cbn [value] in Hy0; lra|].
  pose proof (value_sign sy my ey) as Sy. destruct sy; [lra|]. clear Sy.
  destruct x as [sx|sx| |sx mx ex]; try discriminate.
  - cbn [SFdiv value]. split; [reflexivity|]. cbn [value].
    unfold Rdiv. rewrite Rmult_0_l. lra.
  - destruct (proper_canonical _ _ _ Hx) as [Cx _].
    assert (Hdx : Zpos (digits2_pos mx) <= prec) by (unfold fexp in Cx; lia).
    pose proof (SFdiv_core_value mx my ex ey Hdx) as Hcore.
    cbn [SFdiv]. rewrite !value_finite in *. cbn [cond_Zopp] in Hy0, Hmag |- *.
    destruct (SFdiv_core_binary prec emax (Zpos mx) ex (Zpos my) ey) as [[q e'] l].
    destruct Hcore as (Hq0 & Hk & HX).
    set (vy := (IZR (Zpos my) * pow2 ey)%R) in *.
    set (ax := (IZR (Zpos mx) * pow2 ex)%R) in *.
    assert (Hax : (ax < pow2 B * vy)%R).
    { destruct sx; cbn [cond_Zopp] in Hmag; rewrite ?opp_IZR in Hmag; unfold ax; lra. }
    destruct (binary_round_aux_value (xorb sx false) q e' l B (ax / vy)%R)
      as [Hp (u & Hv & _ & Hu')]; try assumption.
    + apply quotient_lt; lra.
    + split; [exact Hp|]. rewrite Hv.
      assert (Hsx : (IZR (cond_Zopp sx (Zpos mx)) * pow2 ex / vy
                     = if sx then - (ax / vy) else ax / vy)%R).
      { destruct sx; cbn [cond_Zopp]; rewrite ?opp_IZR; unfold ax; [field; lra|reflexivity]. }
      rewrite Hsx. destruct sx; cbn [xorb]; lra.
Qed.

(** **** Comparison *)

Lemma positive_order (m1 m2 : positive) (e1 e2 : Z) :
  proper_ (S754_finite false m1 e1) = true ->
  proper_ (S754_finite false m2 e2) = true ->
  e1 < e2 ->
  (value (S754_finite false m1 e1) < value (S754_finite false m2 e2))%R.
Proof.
  intros H1 H2 Hlt.
  destruct (proper_canonical _ _ _ H1) as [C1 _].
  destruct (proper_canonical _ _ _ H2) as [C2 _].
  pose proof (digits2_pos_bound m1) as [_ Hhi].
  pose proof (digits2_pos_bound m2) as [Hlo _].
  assert (Hd1 : Zpos (digits2_pos m1) <= prec) by (unfold fexp in C1; lia).
  assert (Hd2 : Zpos (digits2_pos m2) = prec) by (unfold fexp, emin in *; lia).
  rewrite Hd2 in Hlo.
  assert (Hm1 : Zpos m1 < 2 ^ prec).
  { apply Z.lt_le_trans with (1 := Hhi). apply Z.pow_le_mono_r; lia. }
  apply IZR_lt in Hm1. apply IZR_le in Hlo.
  rewrite pow2_IZR in Hm1, Hlo by lia.
  rewrite !value_finite. cbn [cond_Zopp].
  pose proof (pow2_le (prec + e1) (prec - 1 + e2) ltac:(lia)) as Hstep.
  rewrite !pow2_add in Hstep.
  pose proof (pow2_pos e1). pose proof (pow2_pos e2). nra.
Qed.

Lemma positive_compare (m1 m2 : positive) (e1 e2 : Z) :
  proper_ (S754_finite false m1 e1) = true ->
  proper_ (S754_finite false m2 e2) = true ->
  match (match Z.compare e1 e2 with
         | Lt => Lt | Gt => Gt | Eq => Pos.compare_cont Eq m1 m2 end) with
  | Lt => (value (S754_finite false m1 e1) < value (S754_finite false m2 e2))%R
  | Eq => value (S754_finite false m1 e1) = value (S754_finite false m2 e2)
  | Gt => (value (S754_finite false m2 e2) < value (S754_finite false m1 e1))%R
  end.
Proof.
  intros H1 H2. destruct (Z.compare_spec e1 e2) as [-> | Hlt | Hgt].
  - change (Pos.compare_cont Eq m1 m2) with (Pos.compare m1 m2).
    rewrite !value_finite. cbn [cond_Zopp]. pose proof (pow2_pos e2).
    destruct (Pos.compare_spec m1 m2) as [-> | Hm | Hm].
    + reflexivity.
    + assert (IZR (Zpos m1) < IZR (Zpos m2))%R by (apply IZR_lt; lia). nra.
    + assert (IZR (Zpos m2) < IZR (Zpos m1))%R by (apply IZR_lt; lia). nra.
  - apply positive_order; assumption.
  - apply positive_order; assumption.
Qed.

Lemma proper_opp (s : bool) (m : positive) (e : Z) :
  proper_ (S754_finite s m e) = proper_ (S754_finite false m e).
Proof. reflexivity. Qed.

Lemma value_opp (m : positive) (e : Z) :
  value (S754_finite true m e) = (- value (S754_finite false m e))%R.
Proof. cbn [value cond_Zopp]. rewrite opp_IZR. lra. Qed.

(** On values in canonical form [SFcompare] is the order of the
    numbers. *)
Lemma SFcompare_value (x y : spec_float) :
  proper_ x = true -> proper_ y = true ->
  match SFcompare x y with
  | Some Lt => (value x < value y)%R
  | Some Eq => value x = value y
  | Some Gt => (value y < value x)%R
  | None => False
  end.
Proof.
  intros Hx Hy.
  destruct x as [sx|sx| |sx mx ex]; try discriminate;
    destruct y as [sy|sy| |sy my ey]; try discriminate; cbn [SFcompare].
  - reflexivity.
  - pose proof (value_sign sy my ey). destruct sy; cbn [value] in *; lra.
  - pose proof (value_sign sx mx ex). destruct sx; cbn [value] in *; lra.
  - pose proof (value_sign sx mx ex) as Sx. pose proof (value_sign sy my ey) as Sy.
    destruct sx, sy; try lra.
    + rewrite proper_opp in Hx, Hy. rewrite !value_opp.
      pose proof (positive_compare mx my ex ey Hx Hy) as H.
      destruct (Z.compare ex ey); [destruct (Pos.compare_cont Eq mx my)| |];
        cbn [CompOpp]; lra.
    + exact (positive_compare mx my ex ey Hx Hy).
Qed.

Lemma SFltb_value (x y : spec_float) :
  proper_ x = true -> proper_ y = true ->
  if SFltb x y then (value x < value y)%R else (value y <= value x)%R.
Proof.
  intros Hx Hy. pose proof (SFcompare_value x y Hx Hy) as H. unfold SFltb.
  destruct (SFcompare x y) as [[| |]|]; first [lra | contradiction].
Qed.

End Values.

(** **** Truncation *)

Lemma trunc_floor (x : spec_float) :
  match x with S754_zero _ | S754_finite _ _ _ => True | _ => False end ->
  (0 <= value x)%R ->
  (IZR (trunc x) <= value x < IZR (trunc x) + 1)%R.
Proof.
  intros Hx H0. destruct x as [s|s| |s m e]; try contradiction.
  - cbn. lra.
  - pose proof (value_sign s m e) as Hs. destruct s; [lra|]. clear Hs.
    cbn [trunc value cond_Zopp]. destruct e as [|k|k].
    + rewrite Z.shiftl_0_r. change (pow2 0) with 1%R. lra.
    + rewrite Z.shiftl_mul_pow2 by lia. rewrite mult_IZR, pow2_IZR by lia. lra.
    + rewrite Z.shiftr_div_pow2 by lia.
      assert (Hpk : 0 < 2 ^ Zpos k) by (apply Z.pow_pos_nonneg; lia).
      pose proof (Z.mul_div_le (Zpos m) (2 ^ Zpos k) Hpk) as Hlo.
      pose proof (Z.mul_succ_div_gt (Zpos m) (2 ^ Zpos k) Hpk) as Hhi.
      set (t := Zpos m / 2 ^ Zpos k) in *.
      assert (H1 : t * 2 ^ Zpos k <= Zpos m) by lia.
      assert (H2 : Zpos m < (t + 1) * 2 ^ Zpos k) by lia.
      apply IZR_le in H1. apply IZR_lt in H2.
      rewrite mult_IZR, pow2_IZR in H1, H2 by lia. rewrite plus_IZR in H2.
      assert (Hinv : (pow2 (Zneg k) * pow2 (Zpos k) = 1)%R).
      { rewrite <- pow2_add. replace (Zneg k + Zpos k) with 0 by lia. reflexivity. }
      pose proof (pow2_pos (Zneg k)) as Ha. pose proof (pow2_pos (Zpos k)) as Hb.
      set (a := pow2 (Zneg k)) in *. set (b := pow2 (Zpos k)) in *.
      assert (H1' : (IZR t * b * a <= IZR (Zpos m) * a)%R)
        by (apply Rmult_le_compat_r; lra).
      assert (H2' : (IZR (Zpos m) * a < (IZR t + 1) * b * a)%R)
        by (apply Rmult_lt_compat_r; lra).
      replace (IZR t * b * a)%R with (IZR t * (a * b))%R in H1' by ring.
      replace ((IZR t + 1) * b * a)%R with ((IZR t + 1) * (a * b))%R in H2' by ring.
      rewrite Hinv in H1', H2'. lra.
Qed.

(** *** The two formats *)

Local Abbreviation ok32 x := (Ieee.proper F32.prec F32.emax x = true).
Local Abbreviation ok64 x := (Ieee.proper F64.prec F64.emax x = true).

Lemma prec32_pos : 0 < F32.prec.
Proof. reflexivity. Qed.

Lemma prec64_pos : 0 < F64.prec.
Proof. reflexivity. Qed.

Lemma emax32_two : 2 <= F32.emax.
Proof. discriminate. Qed.

Lemma pow2_9 : powerRZ 2 9 = 512%R.
Proof. unfold powerRZ. simpl. lra. Qed.

Lemma pow2_8 : powerRZ 2 8 = 256%R.
Proof. unfold powerRZ. simpl. lra. Qed.

Lemma pow2_1 : powerRZ 2 1 = 2%R.
Proof. unfold powerRZ. simpl. lra. Qed.

Lemma pow2_m15 : powerRZ 2 (-15) = (/ 32768)%R.
Proof. unfold powerRZ. simpl. lra. Qed.

Lemma pow2_m16 : powerRZ 2 (-16) = (/ 65536)%R.
Proof. unfold powerRZ. simpl. lra. Qed.

Lemma pow2_m23 : powerRZ 2 (-23) = (/ 8388608)%R.
Proof. unfold powerRZ. simpl. lra. Qed.

Lemma pow2_m44 : powerRZ 2 (-44) = (/ 17592186044416)%R.
Proof. unfold powerRZ. simpl. lra. Qed.

(** Binary32 operations on numbers below 512 in magnitude: the error
    is at most [2^-15]. *)
Lemma add32 (x y : F32.t) :
  ok32 x -> ok32 y -> (-512 < value x + value y < 512)%R ->
  ok32 (F32.add x y) /\
  (value x + value y - / 32768 <= value (F32.add x y) <= value x + value y + / 32768)%R.
Proof.
  intros Hx Hy Hmag.
  destruct (SFadd_value F32.prec F32.emax prec32_pos x y 9 Hx Hy) as [Hp Hv].
  - rewrite pow2_9. exact Hmag.
  - discriminate.
  - reflexivity.
  - split; [exact Hp|]. change (9 - F32.prec) with (-15) in Hv.
    rewrite pow2_m15 in Hv. exact Hv.
Qed.

Lemma sub32 (x y : F32.t) :
  ok32 x -> ok32 y -> (-512 < value x - value y < 512)%R ->
  ok32 (F32.sub x y) /\
  (value x - value y - / 32768 <= value (F32.sub x y) <= value x - value y + / 32768)%R.
Proof.
  intros Hx Hy Hmag.
  destruct (SFsub_value F32.prec F32.emax prec32_pos x y 9 Hx Hy) as [Hp Hv].
  - rewrite pow2_9. exact Hmag.
  - discriminate.
  - reflexivity.
  - split; [exact Hp|]. change (9 - F32.prec) with (-15) in Hv.
    rewrite pow2_m15 in Hv. exact Hv.
Qed.

Lemma div32 (x y : F32.t) :
  ok32 x -> ok32 y -> (0 < value y)%R ->
  (- (512 * value y) < value x < 512 * value y)%R ->
  ok32 (F32.div x y) /\
  (value x / value y - / 32768 <= value (F32.div x y) <= value x / value y + / 32768)%R.
Proof.
  intros Hx Hy Hy0 Hmag.
  destruct (SFdiv_value F32.prec F32.emax prec32_pos emax32_two x y 9 Hx Hy Hy0) as [Hp Hv].
  - rewrite pow2_9. exact Hmag.
  - discriminate.
  - reflexivity.
  - split; [exact Hp|]. change (9 - F32.prec) with (-15) in Hv.
    rewrite pow2_m15 in Hv. exact Hv.
Qed.

(** A binary32 quotient below 2 in magnitude: the error is at most
    [2^-23]. *)
Lemma div32_unit (x y : F32.t) :
  ok32 x -> ok32 y -> (0 < value y)%R ->
  (- (2 * value y) < value x < 2 * value y)%R ->
  ok32 (F32.div x y) /\
  (value x / value y - / 8388608 <= value (F32.div x y)
   <= value x / value y + / 8388608)%R.
Proof.
  intros Hx Hy Hy0 Hmag.
  destruct (SFdiv_value F32.prec F32.emax prec32_pos emax32_two x y 1 Hx Hy Hy0) as [Hp Hv].
  - rewrite pow2_1. exact Hmag.
  - discriminate.
  - reflexivity.
  - split; [exact Hp|]. change (1 - F32.prec) with (-23) in Hv.
    rewrite pow2_m23 in Hv. exact Hv.
Qed.

Lemma mul32 (x y : F32.t) :
  ok32 x -> ok32 y -> (0 <= value x)%R -> (0 <= value y)%R ->
  (value x * value y < 512)%R ->
  ok32 (F32.mul x y) /\ (0 <= value (F32.mul x y))%R /\
  (value x * value y - / 32768 <= value (F32.mul x y) <= value x * value y + / 32768)%R.
Proof.
  intros Hx Hy Hx0 Hy0 Hmag.
  destruct (SFmul_value F32.prec F32.emax prec32_pos emax32_two x y 9 Hx Hy Hx0 Hy0)
    as (Hp & H0 & Hv).
  - rewrite pow2_9. exact Hmag.
  - discriminate.
  - reflexivity.
  - split; [exact Hp|]. split; [exact H0|]. change (9 - F32.prec) with (-15) in Hv.
    rewrite pow2_m15 in Hv. exact Hv.
Qed.

Lemma finite_or_zero (prec emax : Z) (x : spec_float) :
  Ieee.proper prec emax x = true ->
  match x with S754_zero _ | S754_finite _ _ _ => True | _ => False end.
Proof. destruct x; try discriminate; intros _; exact I. Qed.

(** Conversion of a binary64 number below 512 to binary32. *)
Lemma round32 (x : F64.t) :
  ok64 x -> (-512 < value x < 512)%R ->
  ok32 (F32.round x) /\
  (value x - / 32768 <= value (F32.round x) <= value x + / 32768)%R.
Proof.
  intros Hx Hmag.
  destruct (round_value F32.prec F32.emax prec32_pos x 9 (finite_or_zero _ _ x Hx))
    as [Hp Hv].
  - rewrite pow2_9. exact Hmag.
  - discriminate.
  - reflexivity.
  - split; [exact Hp|]. change (9 - F32.prec) with (-15) in Hv.
    rewrite pow2_m15 in Hv. exact Hv.
Qed.

(** Conversion of a binary32 number to binary64 is exact. *)
Lemma round64 (x : F32.t) :
  ok32 x -> ok64 (F64.round x) /\ value (F64.round x) = value x.
Proof.
  intros Hx. apply (round_exact F64.prec F64.emax prec64_pos).
  destruct x as [s|s| |s m e]; try discriminate; [exact I|].
  destruct (proper_canonical F32.prec F32.emax _ _ _ Hx) as [Hc Hb].
  unfold fexp, emin, F32.prec, F32.emax, F64.prec, F64.emax in *. lia.
Qed.

(** Binary64 operations on numbers below 512 in magnitude: the error
    is at most [2^-44]. *)
Lemma add64 (x y : F64.t) :
  ok64 x -> ok64 y -> (-512 < value x + value y < 512)%R ->
  ok64 (F64.add x y) /\
  (value x + value y - / 17592186044416 <= value (F64.add x y)
   <= value x + value y + / 17592186044416)%R.
Proof.
  intros Hx Hy Hmag.
  destruct (SFadd_value F64.prec F64.emax prec64_pos x y 9 Hx Hy) as [Hp Hv].
  - rewrite pow2_9. exact Hmag.
  - discriminate.
  - reflexivity.
  - split; [exact Hp|]. change (9 - F64.prec) with (-44) in Hv.
    rewrite pow2_m44 in Hv. exact Hv.
Qed.

Lemma sub64 (x y : F64.t) :
  ok64 x -> ok64 y -> (-512 < value x - value y < 512)%R ->
  ok64 (F64.sub x y) /\
  (value x - value y - / 17592186044416 <= value (F64.sub x y)
   <= value x - value y + / 17592186044416)%R.
Proof.
  intros Hx Hy Hmag.
  destruct (SFsub_value F64.prec F64.emax prec64_pos x y 9 Hx Hy) as [Hp Hv].
  - rewrite pow2_9. exact Hmag.
  - discriminate.
  - reflexivity.
  - split; [exact Hp|]. change (9 - F64.prec) with (-44) in Hv.
    rewrite pow2_m44 in Hv. exact Hv.
Qed.

Lemma div64 (x y : F64.t) :
  ok64 x -> ok64 y -> (0 < value y)%R ->
  (- (512 * value y) < value x < 512 * value y)%R ->
  ok64 (F64.div x y) /\
  (value x / value y - / 17592186044416 <= value (F64.div x y)
   <= value x / value y + / 17592186044416)%R.
Proof.
  intros Hx Hy Hy0 Hmag.
  destruct (SFdiv_value F64.prec F64.emax prec64_pos ltac:(discriminate) x y 9 Hx Hy Hy0)
    as [Hp Hv].
  - rewrite pow2_9. exact Hmag.
  - discriminate.
  - reflexivity.
  - split; [exact Hp|]. change (9 - F64.prec) with (-44) in Hv.
    rewrite pow2_m44 in Hv. exact Hv.
Qed.

(** The constants of lines 191-197. *)
Lemma constants32 :
  ok32 (F32.of_Z 0) /\ value (F32.of_Z 0) = 0%R /\
  ok32 (F32.of_Z 1) /\ value (F32.of_Z 1) = 1%R /\
  ok32 (F32.of_Z 2) /\ value (F32.of_Z 2) = 2%R /\
  ok32 (F32.of_Z 255) /\ value (F32.of_Z 255) = 255%R /\
  ok32 (F32.round Session.contrast_init) /\
  value (F32.round Session.contrast_init) = 1%R /\
  ok32 (F32.round (half_width Session.contrast_init)) /\
  value (F32.round (half_width Session.contrast_init)) = (/ 2)%R.
Proof.
  repeat split; try reflexivity;
    match goal with
    | |- value ?x = _ =>
        let y := eval vm_compute in x in change x with y
    end; unfold value, cond_Zopp, powerRZ; simpl; lra.
Qed.

Lemma constants64 :
  ok64 (F64.of_Z 1) /\ value (F64.of_Z 1) = 1%R /\
  ok64 (F64.of_Z 2) /\ value (F64.of_Z 2) = 2%R /\
  ok64 Session.contrast_init /\ value Session.contrast_init = 1%R /\
  ok64 (half_width Session.contrast_init) /\
  value (half_width Session.contrast_init) = (/ 2)%R.
Proof.
  repeat split; try reflexivity;
    match goal with
    | |- value ?x = _ =>
        let y := eval vm_compute in x in change x with y
    end; unfold value, cond_Zopp, powerRZ; simpl; lra.
Qed.

(** *** The last steps of line 196 and line 197 *)

Lemma finish_unfold (num den : F32.t) :
  finish num den
  = trunc (F64.round
             (F32.mul (let q := F32.div num den in
                       if F32.ltb q (F32.of_Z 0) then F32.of_Z 0
                       else if F32.ltb (F32.of_Z 1) q then F32.of_Z 1 else q)
                      (F32.of_Z 255))) mod 256.
Proof. reflexivity. Qed.

(** [np.clip(x, 0, 1)], as a number. *)
Lemma clip_value (q : F32.t) :
  ok32 q ->
  let c := if F32.ltb q (F32.of_Z 0) then F32.of_Z 0
           else if F32.ltb (F32.of_Z 1) q then F32.of_Z 1 else q in
  ok32 c /\ (0 <= value c <= 1)%R /\
  ((value q <= 0)%R -> value c = 0%R) /\
  ((0 <= value q <= 1)%R -> value c = value q) /\
  ((1 <= value q)%R -> value c = 1%R).
Proof.
  intros Hq c.
  destruct constants32 as (Z0ok & Z0 & O1ok & O1 & _).
  pose proof (SFltb_value F32.prec F32.emax prec32_pos q (F32.of_Z 0) Hq Z0ok) as Hlow.
  pose proof (SFltb_value F32.prec F32.emax prec32_pos (F32.of_Z 1) q O1ok Hq) as Hhigh.
  unfold c, F32.ltb.
  destruct (SFltb q (F32.of_Z 0)).
  - rewrite Z0 in *. repeat split; try assumption; intros; lra.
  - destruct (SFltb (F32.of_Z 1) q).
    + rewrite Z0, O1 in *. repeat split; try assumption; intros; lra.
    + rewrite Z0, O1 in *. repeat split; try assumption; intros; lra.
Qed.

(** Scaling a number of [0, 1] by 255 and truncating. *)
Lemma scale_floor (c : F32.t) :
  ok32 c -> (0 <= value c <= 1)%R ->
  let t := trunc (F64.round (F32.mul c (F32.of_Z 255))) in
  exists P : R,
    (255 * value c - / 32768 <= P <= 255 * value c + / 32768)%R /\
    (0 <= P)%R /\ (IZR t <= P < IZR t + 1)%R.
Proof.
  intros Hc Hrange t.
  destruct constants32 as (_ & _ & _ & _ & _ & _ & Cok & C255 & _).
  destruct (mul32 c (F32.of_Z 255) Hc Cok) as (Hp & H0 & Hv); [lra|lra|rewrite C255; lra|].
  rewrite C255 in Hv.
  destruct (round64 _ Hp) as [Hp64 Hv64].
  exists (value (F32.mul c (F32.of_Z 255))).
  split; [lra|]. split; [exact H0|].
  unfold t. rewrite <- Hv64. apply trunc_floor.
  - apply (finite_or_zero _ _ _ Hp64).
  - rewrite Hv64. exact H0.
Qed.

(** A numerator that is next to nothing against the divisor gives 0. *)
Lemma finish_zero (num den : F32.t) :
  ok32 num -> ok32 den -> (/ 2 <= value den)%R ->
  (- / 1024 <= value num <= / 1024)%R ->
  finish num den = 0.
Proof.
  intros Hn Hd Hden Hnum. rewrite finish_unfold. cbv zeta.
  destruct (div32_unit num den Hn Hd) as [Hq Hqv]; [lra|lra|].
  assert (Hup : (value num / value den <= / 512)%R) by (apply quotient_le; lra).
  assert (Hdown : (- / 512 <= value num / value den)%R) by (apply quotient_ge; lra).
  destruct (clip_value _ Hq) as (Hc & Hc01 & Hneg & Hmid & _). cbv zeta in *.
  set (c := if F32.ltb (F32.div num den) (F32.of_Z 0) then F32.of_Z 0
            else if F32.ltb (F32.of_Z 1) (F32.div num den) then F32.of_Z 1
                 else F32.div num den) in *.
  assert (Hcv : (value c <= / 512 + / 8388608)%R).
  { destruct (Rle_lt_dec (value (F32.div num den)) 0) as [Hle | Hgt].
    - rewrite (Hneg Hle). lra.
    - rewrite Hmid by lra. lra. }
  destruct (scale_floor c Hc Hc01) as (P & HP & HP0 & Ht). cbv zeta in Ht.
  set (t := trunc (F64.round (F32.mul c (F32.of_Z 255)))) in *.
  assert (Ht0 : t = 0).
  { assert (-1 < t) by (apply lt_IZR; lra).
    assert (t < 1) by (apply lt_IZR; lra). lia. }
  rewrite Ht0. reflexivity.
Qed.

(** A numerator within one part in 512 of the divisor gives 254 or
    255. *)
Lemma finish_top (num den : F32.t) :
  ok32 num -> ok32 den -> (/ 2 <= value den)%R ->
  (511 / 512 * value den <= value num < 2 * value den)%R ->
  finish num den = 254 \/ finish num den = 255.
Proof.
  intros Hn Hd Hden Hnum. rewrite finish_unfold. cbv zeta.
  destruct (div32_unit num den Hn Hd) as [Hq Hqv]; [lra|lra|].
  assert (Hdown : (511 / 512 <= value num / value den)%R) by (apply quotient_ge; lra).
  destruct (clip_value _ Hq) as (Hc & Hc01 & _ & Hmid & Hbig). cbv zeta in *.
  set (c := if F32.ltb (F32.div num den) (F32.of_Z 0) then F32.of_Z 0
            else if F32.ltb (F32.of_Z 1) (F32.div num den) then F32.of_Z 1
                 else F32.div num den) in *.
  assert (Hcv : (511 / 512 - / 8388608 <= value c)%R).
  { destruct (Rle_lt_dec 1 (value (F32.div num den))) as [Hle | Hgt].
    - rewrite (Hbig Hle). lra.
    - rewrite Hmid by lra. lra. }
  destruct (scale_floor c Hc Hc01) as (P & HP & HP0 & Ht). cbv zeta in Ht.
  set (t := trunc (F64.round (F32.mul c (F32.of_Z 255)))) in *.
  assert (Hlo : 253 < t) by (apply lt_IZR; lra).
  assert (Hhi : t < 256) by (apply lt_IZR; lra).
  assert (Ht' : t = 254 \/ t = 255) by lia.
  destruct Ht' as [-> | ->]; [left|right]; reflexivity.
Qed.

(** *** Lines 191-196 at the initial contrast *)

(** Once the lower bound is within [5 * 2^-15] of the minimum and the
    divisor within [8 * 2^-15] of the range, the minimum maps to 0
    and the maximum to 254 or 255. *)
Lemma ends_from_window (lo hi bm den : F32.t) :
  ok32 lo -> ok32 hi -> ok32 bm -> ok32 den ->
  (- / 2 <= value lo)%R -> (value hi <= 255 + / 2)%R ->
  (1 - / 32768 <= value hi - value lo)%R ->
  (value lo - 5 / 32768 <= value bm <= value lo + 5 / 32768)%R ->
  (value hi - value lo - 8 / 32768 <= value den <= value hi - value lo + 8 / 32768)%R ->
  finish (F32.sub lo bm) den = 0 /\
  (finish (F32.sub hi bm) den = 254 \/ finish (F32.sub hi bm) den = 255).
Proof.
  intros Hlo Hhi Hbm Hden L0 H255 HD Hb Hd.
  destruct (sub32 lo bm Hlo Hbm) as [Hnl Hnlv]; [lra|].
  destruct (sub32 hi bm Hhi Hbm) as [Hnh Hnhv]; [lra|].
  split.
  - apply finish_zero; try assumption; lra.
  - apply finish_top; try assumption; lra.
Qed.

(** The bounds under NEP 50: binary32 throughout. *)
Lemma window32 (lo hi mid h : F32.t) :
  ok32 mid -> ok32 h ->
  (- / 2 <= value lo)%R -> (value hi <= 255 + / 2)%R ->
  (1 - / 32768 <= value hi - value lo)%R ->
  ((value lo + value hi) / 2 - 3 / 65536 <= value mid
   <= (value lo + value hi) / 2 + 3 / 65536)%R ->
  ((value hi - value lo) / 2 - 5 / 65536 <= value h
   <= (value hi - value lo) / 2 + 5 / 65536)%R ->
  let b_min := F32.sub mid h in
  let b_max := F32.add mid h in
  ok32 b_min /\ ok32 (F32.sub b_max b_min) /\
  (value lo - 5 / 32768 <= value b_min <= value lo + 5 / 32768)%R /\
  (value hi - value lo - 8 / 32768 <= value (F32.sub b_max b_min)
   <= value hi - value lo + 8 / 32768)%R.
Proof.
  intros Hmid Hh L0 H255 HD Hm Hhv b_min b_max.
  destruct (sub32 mid h Hmid Hh) as [Hbmin Hbminv]; [lra|].
  destruct (add32 mid h Hmid Hh) as [Hbmax Hbmaxv]; [lra|].
  fold b_min in Hbmin, Hbminv. fold b_max in Hbmax, Hbmaxv.
  destruct (sub32 b_max b_min Hbmax Hbmin) as [Hden Hdenv]; [lra|].
  repeat split; try assumption; lra.
Qed.

(** The bounds under the rule of NumPy 1: binary64, rounded to
    binary32 where line 196 uses them. *)
Lemma window64 (lo hi : F32.t) (mid h : F64.t) :
  ok64 mid -> ok64 h ->
  (- / 2 <= value lo)%R -> (value hi <= 255 + / 2)%R ->
  (1 - / 32768 <= value hi - value lo)%R ->
  ((value lo + value hi) / 2 - / 32768 <= value mid
   <= (value lo + value hi) / 2 + / 32768)%R ->
  ((value hi - value lo) / 2 - / 32768 <= value h
   <= (value hi - value lo) / 2 + / 32768)%R ->
  let b_min := F64.sub mid h in
  let b_max := F64.add mid h in
  ok32 (F32.round b_min) /\ ok32 (F32.round (F64.sub b_max b_min)) /\
  (value lo - 5 / 32768 <= value (F32.round b_min) <= value lo + 5 / 32768)%R /\
  (value hi - value lo - 8 / 32768 <= value (F32.round (F64.sub b_max b_min))
   <= value hi - value lo + 8 / 32768)%R.
Proof.
  intros Hmid Hh L0 H255 HD Hm Hhv b_min b_max.
  destruct (sub64 mid h Hmid Hh) as [Hbmin Hbminv]; [lra|].
  destruct (add64 mid h Hmid Hh) as [Hbmax Hbmaxv]; [lra|].
  fold b_min in Hbmin, Hbminv. fold b_max in Hbmax, Hbmaxv.
  destruct (sub64 b_max b_min Hbmax Hbmin) as [Hden Hdenv]; [lra|].
  destruct (round32 b_min Hbmin) as [Hr1 Hr1v]; [lra|].
  destruct (round32 _ Hden) as [Hr2 Hr2v]; [lra|].
  repeat split; try assumption; lra.
Qed.

(** The guard of line 191 compares the numbers. *)
Lemma range_guard (d : F32.t) :
  ok32 d ->
  if F64.ltb (F64.round d) (F64.of_Z 1) then (value d < 1)%R else (1 <= value d)%R.
Proof.
  intros Hd. destruct (round64 d Hd) as [Hd64 Hv].
  destruct constants64 as (O1ok & O1 & _).
  pose proof (SFltb_value F64.prec F64.emax prec64_pos _ _ Hd64 O1ok) as H.
  unfold F64.ltb. rewrite Hv, O1 in H. exact H.
Qed.

(** On extremes at least [1 - 2^-15] apart, at the initial contrast
    and under either rule. *)
Lemma ends_near (p : promotion) (lo hi : F32.t) :
  ok32 lo -> ok32 hi ->
  (- / 2 <= value lo)%R -> (value hi <= 255 + / 2)%R ->
  (1 - / 32768 <= value hi - value lo)%R ->
  let b := Normalizer.bounds p lo hi Session.contrast_init in
  Normalizer.pixel p b lo = 0 /\
  (Normalizer.pixel p b hi = 254 \/ Normalizer.pixel p b hi = 255).
Proof.
  intros Hlo Hhi L0 H255 HD b.
  destruct constants32 as (_ & _ & _ & _ & T2ok & T2 & _ & _ & C1ok & C1 & W32ok & W32).
  destruct constants64 as (_ & _ & D2ok & D2 & K1ok & K1 & W64ok & W64).
  destruct (sub32 hi lo Hhi Hlo) as [Hd Hdv]; [lra|].
  destruct (add32 lo hi Hlo Hhi) as [Hs Hsv]; [lra|].
  pose proof (range_guard _ Hd) as Hguard.
  unfold b, Normalizer.bounds. cbv zeta.
  destruct p.
  - (* NumPy 1 *)
    cbn [Np.sub Np.add Np.scalar_kind Np.at_kind Np.as32].
    unfold Np.max, Np.ltb. cbn [Np.as64].
    destruct (round64 _ Hs) as [Hs64 Hs64v].
    destruct (div64 (F64.round (F32.add lo hi)) (F64.of_Z 2) Hs64 D2ok) as [Hmid Hmidv];
      [lra|rewrite D2; lra|]. rewrite D2, Hs64v in Hmidv.
    destruct (F64.ltb (F64.round (F32.sub hi lo)) (F64.of_Z 1));
      cbn [Np.div Np.sub Np.add Np.scalar_kind Np.at_kind Np.as32 Np.as64];
      rewrite !pixel_float64_legacy.
    + change (F64.div (F64.div (F64.of_Z 1) (F64.of_Z 2)) Session.contrast_init)
        with (half_width Session.contrast_init).
      destruct (window64 lo hi _ _ Hmid W64ok L0 H255 HD) as (Hb & Hden & Hbv & Hdenv);
        [lra|rewrite W64; lra|].
      apply ends_from_window; assumption.
    + destruct (round64 _ Hd) as [Hd64 Hd64v].
      destruct (div64 (F64.round (F32.sub hi lo)) (F64.of_Z 2) Hd64 D2ok) as [Hh1 Hh1v];
        [lra|rewrite D2; lra|]. rewrite D2, Hd64v in Hh1v.
      destruct (div64 _ Session.contrast_init Hh1 K1ok) as [Hh Hhv];
        [lra|rewrite K1; lra|]. rewrite K1 in Hhv.
      destruct (window64 lo hi _ _ Hmid Hh L0 H255 HD) as (Hb & Hden & Hbv & Hdenv);
        [lra|lra|].
      apply ends_from_window; assumption.
  - (* NEP 50 *)
    cbn [Np.sub Np.add Np.scalar_kind Np.at_kind Np.as32].
    unfold Np.max, Np.ltb. cbn [Np.as64].
    destruct (div32 (F32.add lo hi) (F32.of_Z 2) Hs T2ok) as [Hmid Hmidv];
      [lra|rewrite T2; lra|]. rewrite T2 in Hmidv.
    destruct (F64.ltb (F64.round (F32.sub hi lo)) (F64.of_Z 1));
      cbn [Np.div Np.sub Np.add Np.scalar_kind Np.at_kind Np.as32 Np.as64];
      rewrite !pixel_float32.
    + change (F64.div (F64.div (F64.of_Z 1) (F64.of_Z 2)) Session.contrast_init)
        with (half_width Session.contrast_init).
      destruct (window32 lo hi _ _ Hmid W32ok L0 H255 HD) as (Hb & Hden & Hbv & Hdenv);
        [lra|rewrite W32; lra|].
      apply ends_from_window; assumption.
    + destruct (div32 (F32.sub hi lo) (F32.of_Z 2) Hd T2ok) as [Hh1 Hh1v];
        [lra|rewrite T2; lra|]. rewrite T2 in Hh1v.
      destruct (div32 _ (F32.round Session.contrast_init) Hh1 C1ok) as [Hh Hhv];
        [lra|rewrite C1; lra|]. rewrite C1 in Hhv.
      destruct (window32 lo hi _ _ Hmid Hh L0 H255 HD) as (Hb & Hden & Hbv & Hdenv);
        [lra|lra|].
      apply ends_from_window; assumption.
Qed.

(** *** Window means *)

Lemma of_Z32 (n : Z) :
  Z.abs n < 2 ^ 24 -> ok32 (F32.of_Z n) /\ value (F32.of_Z n) = IZR n.
Proof.
  intros Hn.
  destruct (binary_normalize_exact F32.prec F32.emax prec32_pos n 0 false) as [Hp Hv].
  - pose proof (Zdigits2_small n 24 ltac:(lia) Hn).
    assert (0 <= Zdigits2 n) by (destruct n; cbn; lia).
    unfold fexp, emin, F32.prec, F32.emax. lia.
  - pose proof (Zdigits2_small n 24 ltac:(lia) Hn).
    unfold fexp, emin, F32.prec, F32.emax. lia.
  - split; [exact Hp|]. unfold F32.of_Z, Ieee.of_Z. rewrite Hv.
    change (powerRZ 2 0) with 1%R. lra.
Qed.

(** The mean of [count] bytes is within [2^-16] of their exact
    mean. *)
Lemma window_mean_value (total count : Z) :
  1 <= count <= 3 -> 0 <= total <= 255 * count ->
  ok32 (F32.of_ratio total count) /\
  (IZR total / IZR count - / 65536 <= value (F32.of_ratio total count)
   <= IZR total / IZR count + / 65536)%R.
Proof.
  intros Hc Ht.
  destruct (of_Z32 total ltac:(lia)) as [Htok Htv].
  destruct (of_Z32 count ltac:(lia)) as [Hcok Hcv].
  assert (Hc0 : (1 <= IZR count)%R) by (apply IZR_le; lia).
  assert (Ht0 : (0 <= IZR total)%R) by (apply IZR_le; lia).
  assert (Ht1 : (IZR total <= 255 * IZR count)%R)
    by (rewrite <- mult_IZR; apply IZR_le; lia).
  destruct (SFdiv_value F32.prec F32.emax prec32_pos emax32_two
              (F32.of_Z total) (F32.of_Z count) 8 Htok Hcok) as [Hp Hv].
  - lra.
  - rewrite pow2_8, Htv, Hcv. lra.
  - discriminate.
  - reflexivity.
  - split; [exact Hp|]. change (8 - F32.prec) with (-16) in Hv.
    rewrite pow2_m16, Htv, Hcv in Hv. exact Hv.
Qed.

Lemma window_means_apart (a b count : Z) :
  1 <= count <= 3 -> count <= b - a ->
  (1 <= IZR b / IZR count - IZR a / IZR count)%R.
Proof.
  intros Hc Hab. apply IZR_le in Hab. rewrite minus_IZR in Hab.
  assert (Hcases : count = 1 \/ count = 2 \/ count = 3) by lia.
  destruct Hcases as [-> | [-> | ->]]; lra.
Qed.

(** A mean of one byte is the byte. *)
Lemma window_of_one :
  forallb (fun k => sf_same (F32.of_ratio k 1) (F32.of_Z k)) (zrange 256) = true.
Proof. vm_compute. reflexivity. Qed.

(** C8, as the code has it.  On a frame of the smoother, every sample
    the mean of the same [count] bytes, one to three of them, whose
    minimum [a / count] and maximum [b / count] are at least 1 apart:
    at the initial contrast 1.0 and under either promotion rule the
    samples equal to the minimum map to 0 and those equal to the
    maximum to 254 or 255, and to 255 when the window holds one frame
    (the samples are whole numbers then). *)
Theorem wide_frames_reach_both_ends (p : promotion) (thermal : frame) (a b count : Z) :
  Normalizer.amin thermal = Some (F32.of_ratio a count) ->
  Normalizer.amax thermal = Some (F32.of_ratio b count) ->
  1 <= count <= 3 -> 0 <= a -> b <= 255 * count -> count <= b - a ->
  exists thermal_8bit,
    Normalizer.normalize p thermal Session.contrast_init = Some thermal_8bit /\
    forall r c : nat,
      (Extract.at_ thermal r c = Some (F32.of_ratio a count) ->
       Extract.at_ thermal_8bit r c = Some 0) /\
      (Extract.at_ thermal r c = Some (F32.of_ratio b count) ->
       Extract.at_ thermal_8bit r c = Some 254 \/
       Extract.at_ thermal_8bit r c = Some 255) /\
      (count = 1 ->
       Extract.at_ thermal r c = Some (F32.of_ratio b count) ->
       Extract.at_ thermal_8bit r c = Some 255).
Proof.
  intros Hmin Hmax Hc Ha Hb Hab.
  destruct (window_mean_value a count Hc ltac:(lia)) as [Hlo Hlov].
  destruct (window_mean_value b count Hc ltac:(lia)) as [Hhi Hhiv].
  pose proof (window_means_apart a b count Hc Hab) as Hapart.
  assert (Hc0 : (1 <= IZR count)%R) by (apply IZR_le; lia).
  assert (Ha0 : (0 <= IZR a / IZR count)%R).
  { apply quotient_ge; [lra|]. rewrite Rmult_0_l. apply IZR_le. lia. }
  assert (Hb1 : (IZR b / IZR count <= 255)%R).
  { apply quotient_le; [lra|]. rewrite <- mult_IZR. apply IZR_le. lia. }
  destruct (ends_near p _ _ Hlo Hhi) as [Hzero Htop]; [lra|lra|lra|].
  cbv zeta in Hzero, Htop.
  eexists. split.
  - unfold Normalizer.normalize. rewrite Hmin, Hmax. reflexivity.
  - intros r c. rewrite at_map_map. split; [|split].
    + intros ->. cbn [option_map]. f_equal. exact Hzero.
    + intros ->. cbn [option_map]. destruct Htop as [-> | ->]; [left|right]; reflexivity.
    + intros -> ->. cbn [option_map]. f_equal.
      pose proof (forallb_zrange _ _ window_of_one a ltac:(cbn; lia)) as Ea.
      pose proof (forallb_zrange _ _ window_of_one b ltac:(cbn; lia)) as Eb.
      cbv beta in Ea, Eb. apply sf_same_eq in Ea. apply sf_same_eq in Eb.
      rewrite Ea, Eb.
      pose proof (ends_ok_whole p a b ltac:(lia) ltac:(lia)) as Hok.
      unfold Normalizer.ends_ok in Hok. cbv zeta in Hok.
      apply andb_true_iff in Hok. destruct Hok as [_ Hhi255].
      apply Z.eqb_eq in Hhi255. exact Hhi255.
Qed.

Lemma wide_frames_reach_both_ends_witness :
  exists thermal_8bit,
    Normalizer.normalize Legacy [[F32.of_ratio 3 3; F32.of_ratio 11 3; F32.of_ratio 7 3]]
                         Session.contrast_init = Some thermal_8bit /\
    Extract.at_ thermal_8bit 0 0 = Some 0 /\
    (Extract.at_ thermal_8bit 0 1 = Some 254 \/ Extract.at_ thermal_8bit 0 1 = Some 255).
Proof.
  destruct (wide_frames_reach_both_ends Legacy
              [[F32.of_ratio 3 3; F32.of_ratio 11 3; F32.of_ratio 7 3]] 3 11 3)
    as (img & Himg & Hends).
  - reflexivity.
  - reflexivity.
  - lia.
  - lia.
  - lia.
  - lia.
  - exists img. split; [exact Himg|]. split.
    + apply (proj1 (Hends 0%nat 0%nat)). reflexivity.
    + apply (proj1 (proj2 (Hends 0%nat 1%nat))). reflexivity.
Defined.

(** The maximum does fall on 254: three frames with bytes (1, 1, 1)
    and (3, 4, 4) at two positions give the means 1 and 11/3, and the
    latter maps to 254 under both promotion rules. *)
Example maximum_may_map_to_254 :
  Normalizer.normalize Legacy [[F32.of_ratio 3 3; F32.of_ratio 11 3]] Session.contrast_init
  = Some [[0; 254]] /\
  Normalizer.normalize Nep50 [[F32.of_ratio 3 3; F32.of_ratio 11 3]] Session.contrast_init
  = Some [[0; 254]].
Proof. split; vm_compute; reflexivity. Qed.

(** Two one-row frames, bytes (0, 0) then (0, 1): their mean is
    (0, 0.5), a non-flat frame of range 0.5.  The guard of line 191
    makes the range 1, and at the initial contrast the minimum maps to
    63 and the maximum to 191, far from 0 and 255 under both promotion
    rules. *)
Lemma nonflat_ends_refuted :
  (let gray0 := [[Extract.float32_of_byte x00; Extract.float32_of_byte x00]] in
   let gray1 := [[Extract.float32_of_byte x00; Extract.float32_of_byte x01]] in
   snd (Smoother.smooth (Smoother.run [gray0]) gray1)
   = Some [[F32.of_Z 0; F32.of_ratio 1 2]]) /\
  Normalizer.normalize Legacy [[F32.of_Z 0; F32.of_ratio 1 2]] Session.contrast_init
  = Some [[63; 191]] /\
  Normalizer.normalize Nep50 [[F32.of_Z 0; F32.of_ratio 1 2]] Session.contrast_init
  = Some [[63; 191]] /\
  ~ (forall (p : promotion) (thermal : frame) (lo hi : F32.t),
        Normalizer.amin thermal = Some lo ->
        Normalizer.amax thermal = Some hi ->
        F32.ltb lo hi = true ->
        exists thermal_8bit,
          Normalizer.normalize p thermal Session.contrast_init = Some thermal_8bit /\
          forall r c : nat,
            (Extract.at_ thermal r c = Some lo ->
             exists y, Extract.at_ thermal_8bit r c = Some y /\ 0 <= y <= 1) /\
            (Extract.at_ thermal r c = Some hi ->
             exists y, Extract.at_ thermal_8bit r c = Some y /\ 254 <= y <= 255)).
Proof.
  split; [vm_compute; reflexivity|].
  split; [vm_compute; reflexivity|].
  split; [vm_compute; reflexivity|].
  intros H.
  destruct (H Legacy [[F32.of_Z 0; F32.of_ratio 1 2]] (F32.of_Z 0) (F32.of_ratio 1 2)
              eq_refl eq_refl eq_refl) as (img & Himg & Hends).
  vm_compute in Himg. injection Himg as <-.
  destruct (proj1 (Hends 0%nat 0%nat) eq_refl) as (y & Hy & Hrange).
  vm_compute in Hy. injection Hy as <-. lia.
Qed.

(** * Further properties of the code *)

(** ** Discovery, function by function *)

Lemma find_thermal_usb_sysfs_find (devices : list Discovery.usb_entry) :
  Discovery.find_thermal_usb_sysfs devices
  = option_map Discovery.devdir (find is_camera devices).
Proof.
  induction devices as [|d rest IH]; [reflexivity|].
  cbn [Discovery.find_thermal_usb_sysfs find]. unfold is_camera.
  destruct (Discovery.idVendor d) as [vid|]; [|exact IH].
  destruct (String.eqb vid Discovery.THERMAL_USB_VID); cbn [negb andb].
  - destruct (Discovery.idProduct d) as [pid|]; [|exact IH].
    destruct (String.eqb pid Discovery.THERMAL_USB_PID); [reflexivity | exact IH].
  - destruct (Discovery.idProduct d); exact IH.
Qed.

Lemma find_none_iff {A} (f : A -> bool) (l : list A) :
  find f l = None <-> forall x, In x l -> f x = false.
Proof.
  split.
  - intros H x Hx. exact (find_none f l H x Hx).
  - induction l as [|a l IH]; intros H; [reflexivity|].
    cbn [find]. rewrite (H a (or_introl eq_refl)). apply IH.
    intros x Hx. apply H. right. exact Hx.
Qed.

Lemma find_some_first {A} (f : A -> bool) (l : list A) (a : A) :
  find f l = Some a <->
  exists before after, l = before ++ a :: after /\
                       (forall x, In x before -> f x = false) /\ f a = true.
Proof.
  split.
  - revert a. induction l as [|b l IH]; intros a H; [discriminate|].
    cbn [find] in H. destruct (f b) eqn:Hb.
    + injection H as <-. exists [], l. split; [reflexivity|]. split; [intros x []|exact Hb].
    + destruct (IH a H) as (before & after & -> & Hbefore & Ha).
      exists (b :: before), after. split; [reflexivity|]. split; [|exact Ha].
      intros x [<- | Hx]; [exact Hb | apply Hbefore, Hx].
  - intros (before & after & -> & Hbefore & Ha).
    induction before as [|b before IH]; cbn [app find].
    + rewrite Ha. reflexivity.
    + rewrite (Hbefore b (or_introl eq_refl)). apply IH.
      intros x Hx. apply Hbefore. right. exact Hx.
Qed.

(** X1.  [find_thermal_usb_sysfs] returns the directory of the first
    entry, in glob order, whose vendor and product identifiers can both
    be read and are 2bdf and 0102; entries before it that cannot be
    read or carry other identifiers are passed over.  It returns
    [None] exactly when no entry reads as the camera. *)
Theorem usb_scan_returns_first_camera (devices : list Discovery.usb_entry) :
  (Discovery.find_thermal_usb_sysfs devices = None <->
   forall d, In d devices -> is_camera d = false) /\
  (forall sysfs_dir : string,
      Discovery.find_thermal_usb_sysfs devices = Some sysfs_dir <->
      exists before d after,
        devices = before ++ d :: after /\
        (forall x, In x before -> is_camera x = false) /\
        is_camera d = true /\ Discovery.devdir d = sysfs_dir).
Proof.
  rewrite find_thermal_usb_sysfs_find. split.
  - rewrite <- find_none_iff. destruct (find is_camera devices); cbn; split; congruence.
  - intros sysfs_dir. split.
    + destruct (find is_camera devices) as [d|] eqn:Hfind; [|discriminate].
      cbn [option_map]. intros [= <-].
      apply find_some_first in Hfind. destruct Hfind as (before & after & H & Hb & Hd).
      exists before, d, after. repeat split; assumption.
    + intros (before & d & after & H & Hb & Hd & <-).
      assert (Hfind : find is_camera devices = Some d).
      { apply find_some_first. exists before, after. repeat split; assumption. }
      rewrite Hfind. reflexivity.
Qed.

(** *** Strings *)

Lemma prefix_app (a b : string) :
  prefix a b = true <-> exists rest, b = (a ++ rest)%string.
Proof.
  revert b. induction a as [|c a IH]; intros b.
  - split; [intros _; exists b; reflexivity | intros _; destruct b; reflexivity].
  - destruct b as [|c' b]; cbn [prefix].
    + split; [discriminate | intros [rest H]; discriminate].
    + destruct (ascii_dec c c') as [<- | Hne].
      * rewrite IH. split; intros [rest H]; exists rest.
        -- cbn. rewrite H. reflexivity.
        -- cbn in H. injection H as H. exact H.
      * split; [discriminate|]. intros [rest H]. cbn in H. congruence.
Qed.

(** The operator [in] decides occurrence. *)
Lemma contains_occurs (needle hay : string) :
  Discovery.contains needle hay = true <-> occurs_in needle hay.
Proof.
  unfold occurs_in. induction hay as [|c hay IH]; cbn [Discovery.contains].
  - rewrite orb_false_r, prefix_app. split.
    + intros [rest H]. exists ""%string, rest. exact H.
    + intros (before & after & H). destruct before; [|discriminate].
      exists after. exact H.
  - rewrite orb_true_iff, prefix_app, IH. split.
    + intros [[rest H] | (before & after & H)].
      * exists ""%string, rest. exact H.
      * exists (String c before), after. cbn. rewrite H. reflexivity.
    + intros (before & after & H). destruct before as [|c' before].
      * left. exists after. exact H.
      * right. cbn in H. injection H as _ H. exists before, after. exact H.
Qed.

Lemma basename_from_app (acc dir name : string) :
  slash_free name = true ->
  Discovery.basename_from acc (dir ++ String "/" name) = name.
Proof.
  intros Hname. revert acc. induction dir as [|c dir IH]; intros acc; cbn.
  - clear acc. assert (H : forall acc, Discovery.basename_from acc name = (acc ++ name)%string).
    { induction name as [|c name IHn]; intros acc; cbn.
      - induction acc; cbn; congruence.
      - cbn in Hname. apply andb_true_iff in Hname. destruct Hname as [Hc Hrest].
        apply negb_true_iff in Hc. rewrite Hc. rewrite (IHn Hrest).
        clear. induction acc; cbn; congruence. }
    apply H.
  - destruct (Ascii.eqb c "/"); apply IH.
Qed.

(** [os.path.basename] of a directory joined with a file name is the
    file name. *)
Lemma basename_join (dir name : string) :
  slash_free name = true ->
  Discovery.basename (dir ++ "/" ++ name) = name.
Proof. intros H. apply basename_from_app, H. Qed.

Lemma basename_from_slash_free (path : string) : forall acc,
  slash_free acc = true -> slash_free (Discovery.basename_from acc path) = true.
Proof.
  induction path as [|c path IH]; intros acc Hacc; cbn; [exact Hacc|].
  destruct (Ascii.eqb c "/") eqn:Hc; apply IH; [reflexivity|].
  clear IH. induction acc as [|a acc IHa]; cbn in *.
  - rewrite Hc. reflexivity.
  - apply andb_true_iff in Hacc. destruct Hacc as [Ha Hrest].
    rewrite Ha. apply IHa, Hrest.
Qed.

Lemma first_under_some (usb_basename : string) (nodes : list Discovery.video_entry)
      (dev : string) :
  Discovery.first_under usb_basename nodes = Some dev <->
  exists before n after,
    nodes = before ++ n :: after /\
    (forall x, In x before -> Discovery.contains usb_basename (Discovery.realpath x) = false) /\
    Discovery.contains usb_basename (Discovery.realpath n) = true /\
    dev = ("/dev/" ++ Discovery.basename (Discovery.vdev n))%string.
Proof.
  split.
  - revert dev. induction nodes as [|m nodes IH]; intros dev H; [discriminate|].
    cbn [Discovery.first_under] in H.
    destruct (Discovery.contains usb_basename (Discovery.realpath m)) eqn:Hm.
    + injection H as <-. exists [], m, nodes. repeat split; [intros x []|exact Hm].
    + destruct (IH dev H) as (before & n & after & -> & Hbefore & Hn & Hdev).
      exists (m :: before), n, after. repeat split; try assumption.
      intros x [<- | Hx]; [exact Hm | apply Hbefore, Hx].
  - intros (before & n & after & -> & Hbefore & Hn & ->).
    induction before as [|b before IH]; cbn [app Discovery.first_under].
    + rewrite Hn. reflexivity.
    + rewrite (Hbefore b (or_introl eq_refl)). apply IH.
      intros x Hx. apply Hbefore. right. exact Hx.
Qed.

Lemma first_under_none (usb_basename : string) (nodes : list Discovery.video_entry) :
  Discovery.first_under usb_basename nodes = None <->
  forall n, In n nodes -> Discovery.contains usb_basename (Discovery.realpath n) = false.
Proof.
  induction nodes as [|m nodes IH]; cbn [Discovery.first_under].
  - split; [intros _ n [] | reflexivity].
  - destruct (Discovery.contains usb_basename (Discovery.realpath m)) eqn:Hm.
    + split; [discriminate|]. intros H. specialize (H m (or_introl eq_refl)). congruence.
    + rewrite IH. split.
      * intros H n [<- | Hn]; [exact Hm | apply H, Hn].
      * intros H n Hn. apply H. right. exact Hn.
Qed.

Lemma string_compare_trans (s1 : string) : forall s2 s3 : string,
  String.compare s1 s2 <> Gt -> String.compare s2 s3 <> Gt -> String.compare s1 s3 <> Gt.
Proof.
  induction s1 as [|c1 s1 IH]; intros [|c2 s2] [|c3 s3]; cbn [String.compare];
    try congruence.
  unfold Ascii.compare.
  destruct (N.compare_spec (N_of_ascii c1) (N_of_ascii c2));
    destruct (N.compare_spec (N_of_ascii c2) (N_of_ascii c3));
    destruct (N.compare_spec (N_of_ascii c1) (N_of_ascii c3));
    try congruence; try lia.
  apply IH.
Qed.

Lemma string_leb_trans (s1 s2 s3 : string) :
  String.leb s1 s2 = true -> String.leb s2 s3 = true -> String.leb s1 s3 = true.
Proof.
  unfold String.leb. intros H12 H23.
  pose proof (string_compare_trans s1 s2 s3) as H.
  destruct (String.compare s1 s2), (String.compare s2 s3), (String.compare s1 s3);
    try reflexivity; try discriminate; exfalso; apply H; congruence.
Qed.

Lemma sorted_nodes_strongly (nodes : list Discovery.video_entry) :
  StronglySorted (fun a b => String.leb (Discovery.vdev a) (Discovery.vdev b) = true)
                 (Discovery.VdevSort.sort nodes).
Proof.
  apply Discovery.VdevSort.StronglySorted_sort.
  intros a b c Hab Hbc. unfold is_true in *.
  exact (string_leb_trans _ _ _ Hab Hbc).
Qed.

(** X2.  [find_thermal_video_device] answers with a node of the glob
    whose resolved path contains the base name of the USB directory,
    written as /dev/ followed by the node's base name; among the nodes
    that qualify it takes the one whose name is least in string order,
    whatever the order of the glob.  It answers [None] exactly when no
    node qualifies. *)
Theorem video_node_least_under_usb_path (nodes : list Discovery.video_entry)
        (sysfs_dir : string) :
  (forall dev : string,
      Discovery.find_thermal_video_device nodes sysfs_dir = Some dev ->
      exists n,
        In n nodes /\
        occurs_in (Discovery.basename sysfs_dir) (Discovery.realpath n) /\
        dev = ("/dev/" ++ Discovery.basename (Discovery.vdev n))%string /\
        forall n', In n' nodes ->
                   occurs_in (Discovery.basename sysfs_dir) (Discovery.realpath n') ->
                   String.leb (Discovery.vdev n) (Discovery.vdev n') = true) /\
  (Discovery.find_thermal_video_device nodes sysfs_dir = None <->
   forall n, In n nodes ->
             ~ occurs_in (Discovery.basename sysfs_dir) (Discovery.realpath n)).
Proof.
  unfold Discovery.find_thermal_video_device.
  pose proof (Discovery.VdevSort.Permuted_sort nodes) as Hperm.
  pose proof (sorted_nodes_strongly nodes) as Hsorted.
  split.
  - intros dev Hdev. apply first_under_some in Hdev.
    destruct Hdev as (before & n & after & Hsplit & Hbefore & Hn & ->).
    exists n. split.
    { apply (Permutation_in n (Permutation_sym Hperm)). rewrite Hsplit.
      apply in_or_app. right. left. reflexivity. }
    split; [apply contains_occurs, Hn|]. split; [reflexivity|].
    intros n' Hin' Hocc'. apply contains_occurs in Hocc'.
    apply (Permutation_in n' Hperm) in Hin'. rewrite Hsplit in Hin', Hsorted.
    apply in_app_or in Hin'. destruct Hin' as [Hin' | [<- | Hin']].
    + rewrite (Hbefore n' Hin') in Hocc'. discriminate.
    + clear. unfold String.leb.
      assert (H : String.compare (Discovery.vdev n) (Discovery.vdev n) = Eq).
      { induction (Discovery.vdev n) as [|c s IH]; [reflexivity|].
        cbn [String.compare]. unfold Ascii.compare. rewrite N.compare_refl. exact IH. }
      rewrite H. reflexivity.
    + clear - Hsorted Hin'. induction before as [|b before IH]; cbn [app] in Hsorted.
      * apply StronglySorted_inv in Hsorted. destruct Hsorted as [_ Hall].
        rewrite Forall_forall in Hall. apply Hall, Hin'.
      * apply StronglySorted_inv in Hsorted. apply IH, Hsorted.
  - rewrite first_under_none. split.
    + intros H n Hn Hocc. apply contains_occurs in Hocc.
      rewrite (H n (Permutation_in n Hperm Hn)) in Hocc. discriminate.
    + intros H n Hn.
      destruct (Discovery.contains (Discovery.basename sysfs_dir) (Discovery.realpath n))
        eqn:Hc; [|reflexivity].
      exfalso. apply (H n (Permutation_in n (Permutation_sym Hperm) Hn)).
      apply contains_occurs, Hc.
Qed.

(** X20.  When the glob lists the nodes under /sys/class/video4linux,
    as it does, the device answered is /dev/ followed by the file name
    of one of them. *)
Theorem video_device_is_dev_node (nodes : list Discovery.video_entry)
        (sysfs_dir dev : string) :
  (forall n, In n nodes ->
             exists name, slash_free name = true /\
                          Discovery.vdev n = ("/sys/class/video4linux" ++ "/" ++ name)%string) ->
  Discovery.find_thermal_video_device nodes sysfs_dir = Some dev ->
  exists n name,
    In n nodes /\ slash_free name = true /\
    Discovery.vdev n = ("/sys/class/video4linux" ++ "/" ++ name)%string /\
    dev = ("/dev/" ++ name)%string.
Proof.
  intros Hnames Hdev. unfold Discovery.find_thermal_video_device in Hdev.
  apply first_under_some in Hdev.
  destruct Hdev as (before & n & after & Hsplit & _ & _ & ->).
  assert (Hin : In n nodes).
  { apply (Permutation_in n (Permutation_sym (Discovery.VdevSort.Permuted_sort nodes))).
    rewrite Hsplit. apply in_or_app. right. left. reflexivity. }
  destruct (Hnames n Hin) as (name & Hfree & Hvdev).
  exists n, name. repeat split; try assumption.
  rewrite Hvdev, basename_join by exact Hfree. reflexivity.
Qed.

Lemma video_device_is_dev_node_witness :
  exists n name,
    In n [Bench.camera_node; Bench.webcam_node] /\ slash_free name = true /\
    Discovery.vdev n = ("/sys/class/video4linux" ++ "/" ++ name)%string /\
    "/dev/video2"%string = ("/dev/" ++ name)%string.
Proof.
  apply (video_device_is_dev_node [Bench.camera_node; Bench.webcam_node]
           "/sys/bus/usb/devices/1-3" "/dev/video2").
  - intros n [<- | [<- | []]]; [exists "video2"%string | exists "video0"%string];
      split; reflexivity.
  - reflexivity.
Defined.

(** *** The usbfs path *)

Lemma decimal_value_digits (n : Z) :
  0 <= n ->
  decimal_value (DecimalString.NilZero.string_of_uint (N.to_uint (Z.to_N n))) = Some n.
Proof.
  intros Hn. unfold decimal_value.
  assert (Hnil : N.to_uint (Z.to_N n) <> Decimal.Nil).
  { destruct (Z.to_N n); cbn; [discriminate|].
    apply DecimalPos.Unsigned.to_uint_nonnil. }
  rewrite (DecimalString.NilZero.usu _ Hnil). cbn [option_map].
  rewrite DecimalN.Unsigned.of_to. f_equal. lia.
Qed.

Lemma decimal_value_zero_padded (s : string) (n : Z) :
  s <> ""%string -> decimal_value s = Some n -> decimal_value (String "0" s) = Some n.
Proof.
  unfold decimal_value. intros Hs H. destruct s as [|c s]; [contradiction|].
  cbn [DecimalString.NilZero.uint_of_string] in *.
  change (DecimalString.NilEmpty.uint_of_string (String "0" (String c s)))
    with (DecimalString.uint_of_char "0" (DecimalString.NilEmpty.uint_of_string (String c s))).
  destruct (DecimalString.NilEmpty.uint_of_string (String c s)) as [d|]; [|discriminate].
  exact H.
Qed.

Lemma digits_nonempty (n : Z) :
  DecimalString.NilZero.string_of_uint (N.to_uint (Z.to_N n)) <> ""%string.
Proof.
  intros H. pose proof (decimal_value_digits (Z.of_N (Z.to_N n)) ltac:(lia)) as Hv.
  rewrite N2Z.id in Hv. rewrite H in Hv. discriminate.
Qed.

Lemma format_03d_three_below_1000 :
  forallb (fun n => (String.length (Discovery.format_03d n) =? 3)%nat) (zrange 1000) = true.
Proof. vm_compute. reflexivity. Qed.

(** X3.  The format [03d] of line 26 pads a bus or device number with
    zeros to three digits and never cuts a digit: the text denotes the
    number again, it has at least three characters, and exactly three
    up to 999. *)
Theorem format_03d_denotes_number (n : Z) :
  0 <= n ->
  decimal_value (Discovery.format_03d n) = Some n /\
  (3 <= String.length (Discovery.format_03d n))%nat /\
  (n <= 999 -> String.length (Discovery.format_03d n) = 3%nat).
Proof.
  intros Hn.
  pose proof (decimal_value_digits n Hn) as Hval.
  pose proof (digits_nonempty n) as Hne.
  set (digits := DecimalString.NilZero.string_of_uint (N.to_uint (Z.to_N n))) in *.
  assert (Hform : Discovery.format_03d n
                  = match String.length digits with
                    | 1%nat => ("00" ++ digits)%string
                    | 2%nat => ("0" ++ digits)%string
                    | _ => digits
                    end).
  { unfold Discovery.format_03d. cbv zeta. rewrite Z.abs_eq by exact Hn.
    destruct (Z.ltb_spec n 0) as [Hneg|_]; [lia|reflexivity]. }
  split; [|split].
  - rewrite Hform.
    destruct (String.length digits) as [|[|[|k]]] eqn:Hlen; try exact Hval.
    + apply decimal_value_zero_padded; [discriminate|].
      apply decimal_value_zero_padded; assumption.
    + apply decimal_value_zero_padded; assumption.
  - rewrite Hform. destruct (String.length digits) as [|[|[|k]]] eqn:Hlen.
    + destruct digits; [contradiction | discriminate].
    + cbn. rewrite Hlen. lia.
    + cbn. rewrite Hlen. lia.
    + rewrite Hlen. lia.
  - intros Hmax.
    pose proof (forallb_zrange _ _ format_03d_three_below_1000 n ltac:(cbn; lia)) as H.
    cbv beta in H. apply Nat.eqb_eq in H. exact H.
Qed.

Lemma format_03d_denotes_number_witness :
  decimal_value (Discovery.format_03d 4) = Some 4 /\
  (3 <= String.length (Discovery.format_03d 4))%nat /\
  (4 <= 999 -> String.length (Discovery.format_03d 4) = 3%nat).
Proof. apply (format_03d_denotes_number 4). lia. Defined.

(** A negative number keeps its sign, which counts as one of the three
    characters. *)
Example format_03d_negative :
  Discovery.format_03d (-1) = "-01"%string /\
  Discovery.format_03d (-12) = "-12"%string /\
  Discovery.format_03d (-123) = "-123"%string.
Proof. repeat split. Qed.

(** *** The reset function and start-up *)

Section ControllerMore.

Import Discovery.

Variable World : Type.
Variable view : World -> sysfs.
Variable reset : string -> World -> World * bool.
Variable sleep : Z -> World -> World.

Local Abbreviation reset_first_ := (reset_first reset sleep).

Lemma reset_first_failed (rest : list usb_entry) (w : World) :
  bind (print ResetFailed) (fun _ => reset_first_ rest) w
  = let '(ok, w', log) := reset_first_ rest w in (ok, w', Print ResetFailed :: log).
Proof.
  unfold bind, print. destruct (reset_first_ rest w) as [[ok w'] log]. reflexivity.
Qed.

Lemma reset_first_no_camera (devices : list usb_entry) (w : World) :
  find_thermal_usb_sysfs devices = None ->
  exists log, reset_first_ devices w = (false, w, log) /\ forallb is_failure_note log = true.
Proof.
  induction devices as [|d rest IH]; intros Hfind.
  - exists []. split; reflexivity.
  - cbn [find_thermal_usb_sysfs] in Hfind. cbn [reset_first].
    assert (Hfail : find_thermal_usb_sysfs rest = None ->
              exists log, bind (print ResetFailed) (fun _ => reset_first_ rest) w
                          = (false, w, log)
                          /\ forallb is_failure_note log = true).
    { intros H. rewrite reset_first_failed. destruct (IH H) as (log & -> & Hlog).
      exists (Print ResetFailed :: log). split; [reflexivity | exact Hlog]. }
    destruct (idVendor d) as [vid|]; [|auto].
    destruct (negb (vid =? THERMAL_USB_VID)%string); [auto|].
    destruct (idProduct d) as [pid|]; [|auto].
    destruct (pid =? THERMAL_USB_PID)%string; [discriminate|]. cbn [negb]. auto.
Qed.

(** X4.  With no entry that reads as the camera, [usb_reset_thermal]
    returns [False] without touching anything: no reset request, no
    sleep, the world as it was; all it may print is the failure note
    of line 34, for entries it could not read. *)
Theorem reset_without_camera_is_idle (w : World) :
  find_thermal_usb_sysfs (usb_devices (view w)) = None ->
  exists log,
    usb_reset_thermal view reset sleep w = (false, w, log) /\
    forallb is_failure_note log = true /\
    existsb is_ioctl log = false /\ existsb is_sleep log = false.
Proof.
  intros Hfind.
  destruct (reset_first_no_camera (usb_devices (view w)) w Hfind) as (log & Hrun & Hlog).
  exists log. unfold usb_reset_thermal, bind, listing. rewrite Hrun.
  split; [reflexivity|]. split; [exact Hlog|].
  clear Hrun. induction log as [|e log IH]; [split; reflexivity|].
  cbn [forallb] in Hlog. apply andb_true_iff in Hlog. destruct Hlog as [He Hlog].
  destruct (IH Hlog) as [H1 H2].
  destruct e as [[]| |]; try discriminate. cbn. split; assumption.
Qed.

(** What a run of the loop leaves: after a success the log ends with
    the announcement, the attempt and the sleep; nothing else sleeps,
    and the world only changes through an attempt. *)
Lemma reset_first_outcome (devices : list usb_entry) : forall w : World,
  let '(ok, w', log) := reset_first_ devices w in
  if ok
  then exists usbfs w0 w1 log0,
         reset usbfs w0 = (w1, true) /\ w' = sleep 2 w1 /\
         log = (log0 ++ [Print (Resetting usbfs); Ioctl usbfs; Sleep 2])%list /\
         existsb is_sleep log0 = false /\
         (existsb is_ioctl log0 = false -> w0 = w)
  else existsb is_sleep log = false /\ (existsb is_ioctl log = false -> w' = w).
Proof.
  induction devices as [|d rest IH]; intros w; [split; reflexivity|].
  cbn [reset_first].
  assert (Hfail : forall w0 : World,
    let '(ok, w', log) := bind (print ResetFailed) (fun _ => reset_first_ rest) w0 in
    if ok
    then exists usbfs w1 w2 log0,
           reset usbfs w1 = (w2, true) /\ w' = sleep 2 w2 /\
           log = (log0 ++ [Print (Resetting usbfs); Ioctl usbfs; Sleep 2])%list /\
           existsb is_sleep log0 = false /\
           (existsb is_ioctl log0 = false -> w1 = w0)
    else existsb is_sleep log = false /\ (existsb is_ioctl log = false -> w' = w0)).
  { intros w0. rewrite reset_first_failed. specialize (IH w0).
    destruct (reset_first_ rest w0) as [[ok w'] log].
    destruct ok.
    - destruct IH as (usbfs & w1 & w2 & log0 & Hr & Hw & -> & Hs & Hsame).
      exists usbfs, w1, w2, (Print ResetFailed :: log0). repeat split; assumption.
    - exact IH. }
  destruct (idVendor d) as [vid|]; [|exact (Hfail w)].
  destruct (negb (vid =? THERMAL_USB_VID)%string); [exact (IH w)|].
  destruct (idProduct d) as [pid|]; [|exact (Hfail w)].
  destruct (negb (pid =? THERMAL_USB_PID)%string); [exact (IH w)|].
  destruct (busnum d) as [b|]; [|exact (Hfail w)].
  destruct (devnum d) as [n|]; [|exact (Hfail w)].
  set (usbfs := ("/dev/bus/usb/" ++ format_03d b ++ "/" ++ format_03d n)%string).
  unfold bind at 1 2, print, ioctl_reset.
  destruct (reset usbfs w) as [w1 [|]] eqn:Hreset.
  - unfold bind, time_sleep, ret. cbn [app].
    exists usbfs, w, w1, []. repeat split. exact Hreset.
  - specialize (Hfail w1). rewrite reset_first_failed in Hfail |- *.
    destruct (reset_first_ rest w1) as [[ok w'] log]. cbn [app].
    destruct ok.
    + destruct Hfail as (u & w2 & w3 & log0 & Hr & Hw & Hlog & Hs & _).
      exists u, w2, w3, (Print (Resetting usbfs) :: Ioctl usbfs :: log0).
      repeat split; try assumption.
      * cbn [app]. rewrite <- Hlog. reflexivity.
      * cbn. discriminate.
    + destruct Hfail as [Hs _]. split; [exact Hs|]. cbn. discriminate.
Qed.


Lemma reset_first_app (before rest : list usb_entry) (w : World) :
  find_thermal_usb_sysfs before = None ->
  exists log0,
    forallb is_failure_note log0 = true /\
    reset_first_ (before ++ rest) w
    = let '(ok, w', log) := reset_first_ rest w in (ok, w', (log0 ++ log)%list).
Proof.
  induction before as [|d before IH]; intros Hfind.
  - exists []. split; [reflexivity|]. cbn [app].
    destruct (reset_first_ rest w) as [[ok w'] log]. reflexivity.
  - cbn [find_thermal_usb_sysfs] in Hfind. cbn [app reset_first].
    assert (Hskip : find_thermal_usb_sysfs before = None ->
              exists log0, forallb is_failure_note log0 = true /\
                reset_first_ (before ++ rest) w
                = let '(ok, w', log) := reset_first_ rest w in (ok, w', (log0 ++ log)%list))
      by exact IH.
    assert (Hfail : find_thermal_usb_sysfs before = None ->
              exists log0, forallb is_failure_note log0 = true /\
                bind (print ResetFailed) (fun _ => reset_first_ (before ++ rest)) w
                = let '(ok, w', log) := reset_first_ rest w in (ok, w', (log0 ++ log)%list)).
    { intros H. destruct (IH H) as (log0 & Hlog0 & Hrun).
      exists (Print ResetFailed :: log0). split; [exact Hlog0|].
      rewrite reset_first_failed, Hrun.
      destruct (reset_first_ rest w) as [[ok w'] log]. reflexivity. }
    destruct (idVendor d) as [vid|]; [|auto].
    destruct (negb (vid =? THERMAL_USB_VID)%string); [auto|].
    destruct (idProduct d) as [pid|]; [|auto].
    destruct (pid =? THERMAL_USB_PID)%string; [discriminate|]. cbn [negb]. auto.
Qed.

(** X21.  The reset goes to the first entry that reads as the camera:
    when its bus and device numbers are [b] and [n] and lines 28-30 go
    through on the path line 26 formats from them, the function
    announces that path, resets it, sleeps two seconds and returns
    [True]; entries after it are not looked at, and the entries
    before it have only produced failure notes. *)
Theorem reset_targets_first_camera (w w1 : World) (before after : list usb_entry)
        (d : usb_entry) (b n : Z) :
  usb_devices (view w) = (before ++ d :: after)%list ->
  find_thermal_usb_sysfs before = None ->
  is_camera d = true -> busnum d = Some b -> devnum d = Some n ->
  let usbfs := ("/dev/bus/usb/" ++ format_03d b ++ "/" ++ format_03d n)%string in
  reset usbfs w = (w1, true) ->
  exists log0,
    forallb is_failure_note log0 = true /\
    usb_reset_thermal view reset sleep w
    = (true, sleep 2 w1,
       (log0 ++ [Print (Resetting usbfs); Ioctl usbfs; Sleep 2])%list).
Proof.
  intros Hdevices Hbefore Hcam Hbus Hdev usbfs Hreset.
  destruct (reset_first_app before (d :: after) w Hbefore) as (log0 & Hlog0 & Hrun).
  exists log0. split; [exact Hlog0|].
  unfold usb_reset_thermal, bind, listing. rewrite Hdevices, Hrun.
  cbn [reset_first]. unfold is_camera in Hcam.
  destruct (idVendor d) as [vid|]; [|discriminate].
  destruct (idProduct d) as [pid|]; [|discriminate].
  apply andb_true_iff in Hcam. destruct Hcam as [Hvid Hpid].
  rewrite Hvid, Hpid, Hbus, Hdev. cbn [negb]. fold usbfs.
  unfold bind at 1 2, print, ioctl_reset. rewrite Hreset.
  unfold bind, time_sleep, ret. cbn [app]. reflexivity.
Qed.

Lemma bound_camera_found (w : World) (s d : string) :
  find_thermal_usb_sysfs (usb_devices (view w)) = Some s ->
  find_thermal_video_device (video_nodes (view w)) s = Some d ->
  startup view reset sleep w
  = (Found d, w, [Print Searching; Print (FoundUsb s); Print (FoundCamera d)]).
Proof.
  intros Hscan Hnode. unfold startup, bind, print, scan, resolve, ret.
  rewrite Hscan, Hnode. reflexivity.
Qed.

(** X6.  A camera whose video node is already bound is taken as it
    is: start-up reads the bus and the video nodes once, prints its
    three messages and goes on with the node, without a reset request
    and without sleeping. *)
Theorem bound_camera_starts_at_once (w : World) (s d : string) :
  find_thermal_usb_sysfs (usb_devices (view w)) = Some s ->
  find_thermal_video_device (video_nodes (view w)) s = Some d ->
  startup view reset sleep w
  = (Found d, w, [Print Searching; Print (FoundUsb s); Print (FoundCamera d)]) /\
  existsb is_ioctl (snd (startup view reset sleep w)) = false /\
  existsb is_sleep (snd (startup view reset sleep w)) = false.
Proof.
  intros Hscan Hnode. rewrite (bound_camera_found w s d Hscan Hnode).
  repeat split.
Qed.

Lemma wait_result (n : nat) : forall (attempt : Z) (w : World),
  let '(device, w', log) := wait_for_device view sleep n attempt w in
  match device with
  | Some d => resolved view w' = Some d
  | None => n = 0%nat \/ resolved view w' = None
  end.
Proof.
  induction n as [|n IH]; intros attempt w; [left; reflexivity|].
  rewrite wait_step. destruct (resolved view (sleep 1 w)) as [d|] eqn:Hprobe.
  - exact Hprobe.
  - specialize (IH (attempt + 1) (sleep 1 w)).
    destruct (wait_for_device view sleep n (attempt + 1) (sleep 1 w))
      as [[device w'] log] eqn:Hrun.
    destruct device as [d|]; [exact IH|]. right.
    destruct IH as [-> | IH]; [|exact IH].
    cbn in Hrun. injection Hrun as <- _. exact Hprobe.
Qed.

(** X7.  However start-up ends, its verdict is that of the last probe
    it made: it goes on with a device only when a probe of the world
    it leaves behind resolves that very device, after announcing it
    with its last message; it gives up, always with status 1 and after
    one of the two messages of lines 69 and 88, only when such a probe
    resolves nothing. *)
Theorem startup_verdict_is_last_probe (w : World) :
  let '(verdict, w', log) := startup view reset sleep w in
  match verdict with
  | Found d =>
      resolved view w' = Some d /\
      exists log0, log = (log0 ++ [Print (FoundCamera d)])%list
  | Exit status =>
      status = 1 /\ resolved view w' = None /\
      exists log0 m, log = (log0 ++ [Print m])%list /\ (m = NotOnUsb \/ m = CannotFind)
  end.
Proof.
  destruct (find_thermal_usb_sysfs (usb_devices (view w))) as [s|] eqn:Hscan.
  - destruct (find_thermal_video_device (video_nodes (view w)) s) as [d|] eqn:Hnode.
    + rewrite (bound_camera_found w s d Hscan Hnode). split.
      * unfold resolved. rewrite Hscan. exact Hnode.
      * exists [Print Searching; Print (FoundUsb s)]. reflexivity.
    + rewrite (startup_unbound World view reset sleep w s Hscan Hnode).
      destruct (usb_reset_thermal view reset sleep w) as [[ok w1] reset_log].
      pose proof (wait_result 5 0 w1) as Hwait.
      destruct (wait_for_device view sleep 5 0 w1) as [[device w2] wait_log].
      destruct device as [d|].
      * split; [exact Hwait|].
        exists ([Print Searching; Print (FoundUsb s); Print NoVideoBound]
                  ++ reset_log ++ wait_log)%list.
        rewrite <- !app_assoc. reflexivity.
      * destruct Hwait as [Hzero | Hnone]; [discriminate|].
        split; [reflexivity|]. split; [exact Hnone|].
        exists ([Print Searching; Print (FoundUsb s); Print NoVideoBound]
                  ++ reset_log ++ wait_log)%list, CannotFind.
        split; [|right; reflexivity]. rewrite <- !app_assoc. reflexivity.
  - assert (Hrun : startup view reset sleep w
                   = (Exit 1, w, [Print Searching; Print NotOnUsb])).
    { unfold startup, bind, print, scan, ret. rewrite Hscan. reflexivity. }
    rewrite Hrun. split; [reflexivity|]. split.
    + unfold resolved. rewrite Hscan. reflexivity.
    + exists [Print Searching], NotOnUsb. split; [reflexivity | left; reflexivity].
Qed.

Lemma slept_app (a b : list event) : slept (a ++ b) = slept a + slept b.
Proof.
  induction a as [|e a IH]; [reflexivity|]. cbn [app slept fold_right].
  fold (slept (a ++ b)). fold (slept a). rewrite IH. destruct e; lia.
Qed.

Lemma slept_none (log : list event) : existsb is_sleep log = false -> slept log = 0.
Proof.
  induction log as [|e log IH]; intros H; [reflexivity|].
  cbn [existsb] in H. apply orb_false_iff in H. destruct H as [He Hlog].
  cbn [slept fold_right]. fold (slept log). rewrite (IH Hlog).
  destruct e; [reflexivity | reflexivity | discriminate].
Qed.

Lemma wait_slept (k : nat) : forall (attempt : Z) (w : World),
  0 <= slept (snd (wait_for_device view sleep k attempt w)) <= Z.of_nat k.
Proof.
  induction k as [|k IH]; intros attempt w; [cbn; lia|].
  rewrite wait_step. destruct (resolved view (sleep 1 w)) as [d|].
  - cbn. lia.
  - specialize (IH (attempt + 1) (sleep 1 w)).
    destruct (wait_for_device view sleep k (attempt + 1) (sleep 1 w)) as [[r w'] log].
    cbn [snd] in *.
    change (slept (Sleep 1 :: Print (Waiting (attempt + 1)) :: log)) with (1 + slept log).
    lia.
Qed.

(** X22.  Start-up sleeps seven seconds at most: two after a reset
    that succeeded and one before each of the five polls.  It does
    not sleep at all when the camera is absent from the bus or its
    node is bound already. *)
Theorem startup_sleeps_at_most_seven_seconds (w : World) :
  0 <= slept (snd (startup view reset sleep w)) <= 7 /\
  (resolved view w <> None \/ find_thermal_usb_sysfs (usb_devices (view w)) = None ->
   slept (snd (startup view reset sleep w)) = 0).
Proof.
  destruct (find_thermal_usb_sysfs (usb_devices (view w))) as [s|] eqn:Hscan.
  - destruct (find_thermal_video_device (video_nodes (view w)) s) as [d|] eqn:Hnode.
    + rewrite (bound_camera_found w s d Hscan Hnode). cbn. split; [lia|reflexivity].
    + split.
      * rewrite (startup_unbound World view reset sleep w s Hscan Hnode).
        pose proof (reset_first_outcome (usb_devices (view w)) w) as Hreset.
        unfold usb_reset_thermal, bind, listing.
        destruct (reset_first_ (usb_devices (view w)) w) as [[ok w1] reset_log].
        assert (Hr : 0 <= slept reset_log <= 2).
        { destruct ok.
          - destruct Hreset as (u & w2 & w3 & log0 & _ & _ & -> & Hnone & _).
            rewrite slept_app, (slept_none _ Hnone). cbn. lia.
          - destruct Hreset as [Hnone _]. rewrite (slept_none _ Hnone). lia. }
        pose proof (wait_slept 5 0 w1) as Hwait.
        destruct (wait_for_device view sleep 5 0 w1) as [[device w2] wait_log].
        cbn [snd] in Hwait.
        destruct device as [d|]; cbn [snd]; rewrite !slept_app;
          change (slept [Print Searching; Print (FoundUsb s); Print NoVideoBound]) with 0;
          [change (slept [Print (FoundCamera d)]) with 0
          |change (slept [Print CannotFind]) with 0];
          change (slept []) with 0; lia.
      * intros [Hres | Hnone]; [|discriminate].
        exfalso. apply Hres. unfold resolved. rewrite Hscan. exact Hnode.
  - assert (Hrun : startup view reset sleep w
                   = (Exit 1, w, [Print Searching; Print NotOnUsb])).
    { unfold startup, bind, print, scan, ret. rewrite Hscan. reflexivity. }
    rewrite Hrun. cbn. split; [lia|reflexivity].
Qed.

End ControllerMore.

Lemma reset_targets_first_camera_witness :
  exists log0,
    forallb is_failure_note log0 = true /\
    Discovery.usb_reset_thermal Bench.view Bench.reset Bench.sleep Bench.unbound
    = (true, Bench.sleep 2 {| Bench.plugged := true; Bench.settle := Some 5 |},
       (log0 ++ [Discovery.Print (Discovery.Resetting "/dev/bus/usb/001/004");
                 Discovery.Ioctl "/dev/bus/usb/001/004"; Discovery.Sleep 2])%list).
Proof.
  apply (reset_targets_first_camera
           Bench.world Bench.view Bench.reset Bench.sleep
           Bench.unbound {| Bench.plugged := true; Bench.settle := Some 5 |}
           [Bench.hub] [] Bench.camera 1 4); reflexivity.
Defined.

Lemma reset_without_camera_is_idle_witness :
  exists log,
    Discovery.usb_reset_thermal Bench.view Bench.reset Bench.sleep Bench.unplugged
    = (false, Bench.unplugged, log) /\
    forallb is_failure_note log = true /\
    existsb Discovery.is_ioctl log = false /\ existsb is_sleep log = false.
Proof.
  apply (reset_without_camera_is_idle
           Bench.world Bench.view Bench.reset Bench.sleep Bench.unplugged).
  reflexivity.
Defined.

(** On the bench, with the node bound from the start. *)
Lemma bound_camera_starts_at_once_witness :
  Discovery.startup Bench.view Bench.reset Bench.sleep
    {| Bench.plugged := true; Bench.settle := Some 0 |}
  = (Discovery.Found "/dev/video2",
     {| Bench.plugged := true; Bench.settle := Some 0 |},
     [Discovery.Print Discovery.Searching;
      Discovery.Print (Discovery.FoundUsb "/sys/bus/usb/devices/1-3");
      Discovery.Print (Discovery.FoundCamera "/dev/video2")]).
Proof.
  apply (bound_camera_starts_at_once
           Bench.world Bench.view Bench.reset Bench.sleep
           {| Bench.plugged := true; Bench.settle := Some 0 |}
           "/sys/bus/usb/devices/1-3" "/dev/video2"); reflexivity.
Defined.

(** ** Channel extraction, position by position *)

Lemma reshape_rows {A} (rows cols : nat) : forall a : list A,
  Extract.reshape rows cols a
  = map (fun r => firstn cols (skipn (r * cols) a)) (seq 0 rows).
Proof.
  induction rows as [|rows IH]; intros a; [reflexivity|].
  cbn [Extract.reshape seq map]. f_equal.
  rewrite IH, <- seq_shift, map_map. apply map_ext. intros r.
  rewrite skipn_skipn. f_equal. f_equal. lia.
Qed.

Lemma even_offsets_firstn {A} (d : A) (cols : nat) : forall a : list A,
  (2 * cols <= List.length a)%nat ->
  Extract.even_offsets (firstn (2 * cols) a)
  = map (fun c => nth (2 * c) a d) (seq 0 cols).
Proof.
  induction cols as [|cols IH]; intros a Hlen; [reflexivity|].
  destruct a as [|x [|y a]]; cbn [List.length] in Hlen; try lia.
  replace (2 * S cols)%nat with (S (S (2 * cols))) by lia.
  cbn [firstn Extract.even_offsets seq map]. f_equal.
  rewrite IH by lia. rewrite <- seq_shift, map_map. apply map_ext. intros c.
  replace (2 * S c)%nat with (S (S (2 * c))) by lia. reflexivity.
Qed.

(** Line 177 in closed form. *)
Lemma extract_y_grid (rows cols : nat) (raw_bytes : list byte) :
  (rows * cols * 2 <= List.length raw_bytes)%nat ->
  Extract.extract_y rows cols raw_bytes = Ok (luma_grid rows cols raw_bytes).
Proof.
  intros Hlen. unfold Extract.extract_y.
  destruct (Nat.ltb_spec (List.length raw_bytes) (rows * cols * 2)) as [|_]; [lia|].
  f_equal. rewrite reshape_rows, map_map. unfold luma_grid.
  apply map_ext_in. intros r Hr. apply in_seq in Hr.
  assert (Hrow : (r * (cols * 2) + 2 * cols <= rows * cols * 2)%nat) by nia.
  replace (cols * 2)%nat with (2 * cols)%nat by lia.
  rewrite (even_offsets_firstn x00).
  - rewrite map_map. apply map_ext_in. intros c Hc. apply in_seq in Hc.
    f_equal. rewrite nth_skipn, nth_firstn.
    destruct (Nat.ltb_spec (r * (2 * cols) + 2 * c) (rows * cols * 2)) as [_|]; [|nia].
    f_equal. lia.
  - rewrite length_skipn, length_firstn. nia.
Qed.

Lemma luma_grid_at (rows cols : nat) (raw_bytes : list byte) (r c : nat) :
  (r < rows)%nat -> (c < cols)%nat ->
  Extract.at_ (luma_grid rows cols raw_bytes) r c
  = Some (Extract.float32_of_byte (nth (2 * (r * cols + c)) raw_bytes x00)).
Proof.
  intros Hr Hc. unfold Extract.at_, luma_grid.
  rewrite nth_error_map, nth_error_nth' with (d := 0%nat) by (rewrite length_seq; lia).
  cbn [option_map]. rewrite seq_nth by lia.
  rewrite nth_error_map, nth_error_nth' with (d := 0%nat) by (rewrite length_seq; lia).
  cbn [option_map]. rewrite seq_nth by lia. reflexivity.
Qed.

Lemma luma_grid_shape (rows cols : nat) (raw_bytes : list byte) :
  has_shape rows cols (luma_grid rows cols raw_bytes).
Proof.
  unfold has_shape, luma_grid. split.
  - rewrite length_map, length_seq. reflexivity.
  - apply Forall_forall. intros row Hrow. apply in_map_iff in Hrow.
    destruct Hrow as (r & <- & _). rewrite length_map, length_seq. reflexivity.
Qed.

(** X8.  On a buffer long enough, the sample at row [r] and column
    [c] of the extracted frame is the byte at offset
    [2 * (r * cols + c)] of the buffer, converted to binary32: the
    luma byte of pixel number [r * cols + c] in the YUYV stream. *)
Theorem extract_y_takes_even_bytes (rows cols : nat) (raw_bytes : list byte) (r c : nat) :
  (rows * cols * 2 <= List.length raw_bytes)%nat ->
  (r < rows)%nat -> (c < cols)%nat ->
  exists gray b,
    Extract.extract_y rows cols raw_bytes = Ok gray /\
    nth_error raw_bytes (2 * (r * cols + c)) = Some b /\
    Extract.at_ gray r c = Some (Extract.float32_of_byte b).
Proof.
  intros Hlen Hr Hc.
  exists (luma_grid rows cols raw_bytes), (nth (2 * (r * cols + c)) raw_bytes x00).
  split; [apply extract_y_grid, Hlen|]. split.
  - apply nth_error_nth'. nia.
  - apply luma_grid_at; assumption.
Qed.

Lemma extract_y_takes_even_bytes_witness :
  exists gray b,
    Extract.extract_y 2 2 [x01; x80; x02; x80; x03; x80; x04; x80; xff]%byte = Ok gray /\
    nth_error [x01; x80; x02; x80; x03; x80; x04; x80; xff]%byte (2 * (1 * 2 + 1)) = Some b /\
    Extract.at_ gray 1 1 = Some (Extract.float32_of_byte b).
Proof.
  apply (extract_y_takes_even_bytes 2 2
           [x01; x80; x02; x80; x03; x80; x04; x80; xff]%byte 1 1); cbn; lia.
Defined.

(** X9.  A frame that passes the guard of line 172 has the shape of
    the sensor: [rows] rows of [cols] samples each, whatever the length
    of the buffer beyond the guard. *)
Theorem extract_y_shape (rows cols : nat) (raw_bytes : list byte) (gray : frame) :
  Extract.extract_y rows cols raw_bytes = Ok gray -> has_shape rows cols gray.
Proof.
  intros Hok.
  destruct (Nat.ltb_spec (List.length raw_bytes) (rows * cols * 2)) as [Hlt | Hge].
  - apply extract_y_short in Hlt. congruence.
  - rewrite (extract_y_grid rows cols raw_bytes Hge) in Hok. injection Hok as <-.
    apply luma_grid_shape.
Qed.

Lemma extract_y_shape_witness :
  has_shape 1 2 [[Extract.float32_of_byte x07; Extract.float32_of_byte x09]].
Proof.
  apply (extract_y_shape 1 2 [x07; x80; x09; x80; x55]%byte). reflexivity.
Defined.

(** X10.  Only the luma bytes inside the frame matter: two buffers
    that pass the guard and agree at the even offsets below
    [rows * cols * 2] give the same frame, whatever their chroma bytes
    and whatever follows the frame. *)
Theorem extract_y_ignores_chroma_and_tail (rows cols : nat) (a b : list byte) :
  (rows * cols * 2 <= List.length a)%nat ->
  (rows * cols * 2 <= List.length b)%nat ->
  (forall i, (i < rows * cols)%nat -> nth_error a (2 * i) = nth_error b (2 * i)) ->
  Extract.extract_y rows cols a = Extract.extract_y rows cols b.
Proof.
  intros Ha Hb Hsame. rewrite !extract_y_grid by assumption. f_equal.
  unfold luma_grid. apply map_ext_in. intros r Hr. apply in_seq in Hr.
  apply map_ext_in. intros c Hc. apply in_seq in Hc. f_equal.
  assert (Hi : (r * cols + c < rows * cols)%nat) by nia.
  specialize (Hsame _ Hi).
  rewrite (nth_error_nth' a x00), (nth_error_nth' b x00) in Hsame by nia.
  congruence.
Qed.

Lemma extract_y_ignores_chroma_and_tail_witness :
  Extract.extract_y 1 2 [x07; x80; x09; x80]%byte
  = Extract.extract_y 1 2 [x07; x10; x09; x20; x33; x44]%byte.
Proof.
  apply extract_y_ignores_chroma_and_tail; cbn; try lia.
  intros [|[|i]] Hi; try reflexivity. lia.
Defined.

(** ** Temporal smoothing of a static scene *)

Lemma mean_of_equal_bytes :
  forallb (fun k => sf_same (F32.of_ratio k 1) (F32.of_Z k)
                    && sf_same (F32.of_ratio (2 * k) 2) (F32.of_Z k)
                    && sf_same (F32.of_ratio (3 * k) 3) (F32.of_Z k))
          (zrange 256) = true.
Proof. vm_compute. reflexivity. Qed.

Lemma zip_with_map_self {A} (f : A -> A -> A) (g : A -> A) (a : list A) :
  Smoother.zip_with f (map g a) a = map (fun x => f (g x) x) a.
Proof. induction a as [|x a IH]; cbn; congruence. Qed.

Lemma add_frames_map_self (g : F32.t -> F32.t) (a : frame) :
  Smoother.add_frames (map (map g) a) a = map (map (fun x => F32.add (g x) x)) a.
Proof.
  unfold Smoother.add_frames. induction a as [|row a IH]; [reflexivity|].
  cbn [map Smoother.zip_with]. rewrite zip_with_map_self, IH. reflexivity.
Qed.

Lemma map_map_id_in {A} (f : A -> A) (g : list (list A)) :
  (forall row x, In row g -> In x row -> f x = x) -> map (map f) g = g.
Proof.
  intros H. rewrite <- (map_id g) at 2. apply map_ext_in. intros row Hrow.
  rewrite <- (map_id row) at 2. apply map_ext_in. intros x Hx. exact (H row x Hrow Hx).
Qed.

(** The mean of one, two or three copies of a frame of bytes is the
    frame. *)
Lemma mean_of_copies (g : list (list byte)) (k : nat) :
  (1 <= k <= 3)%nat ->
  let gray := map (map Extract.float32_of_byte) g in
  Smoother.mean (repeat gray k) = Some gray.
Proof.
  intros Hk gray.
  assert (Hbyte : forall row x, In row gray -> In x row ->
            exists n, 0 <= n <= 255 /\ x = F32.of_Z n).
  { intros row x Hrow Hx. unfold gray in Hrow. apply in_map_iff in Hrow.
    destruct Hrow as (bytes & <- & _). apply in_map_iff in Hx.
    destruct Hx as (b & <- & _). exists (Smoother.byte_value b).
    split; [apply byte_value_range | reflexivity]. }
  assert (Hmean : forall n, 0 <= n <= 255 ->
            F32.div (F32.of_Z n) (F32.of_Z 1) = F32.of_Z n /\
            F32.div (F32.of_Z (2 * n)) (F32.of_Z 2) = F32.of_Z n /\
            F32.div (F32.of_Z (3 * n)) (F32.of_Z 3) = F32.of_Z n).
  { intros n Hn. pose proof (forallb_zrange _ _ mean_of_equal_bytes n ltac:(cbn; lia)) as H.
    cbv beta in H. apply andb_true_iff in H. destruct H as [H H3].
    apply andb_true_iff in H. destruct H as [H1 H2].
    repeat split; apply sf_same_eq; assumption. }
  destruct k as [|[|[|[|k]]]]; try lia; cbn [repeat Smoother.mean fold_left List.length];
    f_equal.
  - apply map_map_id_in. intros row x Hrow Hx.
    destruct (Hbyte row x Hrow Hx) as (n & Hn & ->). apply (Hmean n Hn).
  - rewrite <- (map_id gray) at 1. rewrite <- (map_ext _ _ (@map_id F32.t)) at 1.
    rewrite add_frames_map_self, map_map.
    rewrite (map_ext _ _ (fun row => map_map _ _ row)).
    apply map_map_id_in. intros row x Hrow Hx.
    destruct (Hbyte row x Hrow Hx) as (n & Hn & ->).
    rewrite F32_add_whole by (cbn; lia). replace (n + n) with (2 * n) by lia.
    apply (Hmean n Hn).
  - rewrite <- (map_id gray) at 1. rewrite <- (map_ext _ _ (@map_id F32.t)) at 1.
    rewrite !add_frames_map_self, map_map.
    rewrite (map_ext _ _ (fun row => map_map _ _ row)).
    apply map_map_id_in. intros row x Hrow Hx.
    destruct (Hbyte row x Hrow Hx) as (n & Hn & ->).
    rewrite !F32_add_whole by (cbn; lia). replace (n + n + n) with (3 * n) by lia.
    apply (Hmean n Hn).
Qed.

Lemma skipn_repeat {A} (x : A) (m n : nat) : skipn m (repeat x n) = repeat x (n - m).
Proof.
  revert n. induction m as [|m IH]; intros n.
  - rewrite Nat.sub_0_r. reflexivity.
  - destruct n as [|n]; [reflexivity|]. cbn [repeat skipn]. apply IH.
Qed.

(** X11.  A static scene passes the smoother unchanged: when the frame
    just extracted and all the frames before it are the same frame of
    bytes, the buffer holds up to three copies of it and the mean is
    that frame, sample for sample, with no rounding error.  With an
    empty history this is the first frame after start-up. *)
Theorem static_scene_passes_unchanged (g : list (list byte)) (history : list frame) :
  let gray : frame := map (map Extract.float32_of_byte) g in
  Forall (eq gray) history ->
  Smoother.smooth (Smoother.run history) gray
  = (repeat gray (Nat.min 3 (S (List.length history))), Some gray).
Proof.
  intros gray Hsame. unfold Smoother.smooth.
  rewrite run_last_frames, push_last_frames.
  assert (Hall : (history ++ [gray])%list = repeat gray (S (List.length history))).
  { rewrite (Forall_eq_repeat Hsame) at 1. cbn [repeat]. rewrite repeat_cons. reflexivity. }
  unfold Smoother.last_frames, Smoother.SMOOTH_FRAMES. rewrite Hall.
  rewrite repeat_length, skipn_repeat.
  replace (S (List.length history) - (S (List.length history)
             - Nat.min 3 (S (List.length history))))%nat
    with (Nat.min 3 (S (List.length history))) by lia.
  f_equal. apply mean_of_copies. lia.
Qed.

Lemma static_scene_passes_unchanged_witness :
  let gray : frame := map (map Extract.float32_of_byte) [[x10; x20]; [x30; xff]]%byte in
  Smoother.smooth (Smoother.run [gray; gray; gray; gray]) gray
  = (repeat gray (Nat.min 3 (S (List.length [gray; gray; gray; gray]))), Some gray).
Proof.
  apply (static_scene_passes_unchanged [[x10; x20]; [x30; xff]]%byte).
  repeat constructor.
Defined.

(** ** Keys *)

Lemma land_255 (a : Z) : Z.land a 255 = a mod 256.
Proof. change 255 with (Z.ones 8). rewrite Z.land_ones by lia. reflexivity. Qed.

(** X12.  Only the low byte of what [cv2.waitKey] returns counts:
    two codes that differ by a multiple of 256, such as a key with and
    without a modifier flag above bit 7, end the iteration in the same
    way. *)
Theorem key_code_is_masked_to_a_byte (p : promotion) (st : Session.state)
        (ret : bool) (raw_bytes : list byte) (waitKey k : Z) :
  Session.iteration p st ret raw_bytes (waitKey + 256 * k)
  = Session.iteration p st ret raw_bytes waitKey.
Proof.
  unfold Session.iteration. rewrite !land_255.
  replace ((waitKey + 256 * k) mod 256) with (waitKey mod 256); [reflexivity|].
  rewrite Z.mul_comm, Z.mod_add by lia. reflexivity.
Qed.

(** X13.  A key the loop does not bind changes nothing and does not
    end the loop; of the bound ones, [q] alone ends it, and neither
    [q] nor [s] changes the state.  So the palette and the contrast
    move only on [c], [+], [=] and [-]. *)
Theorem unbound_keys_change_nothing (key : Z) (st : Session.state) :
  (~ In key bound_keys -> Session.handle_key key st = (Session.Continue, st)) /\
  (fst (Session.handle_key key st) = Session.Break <-> key = Session.ord "q") /\
  (key = Session.ord "q" \/ key = Session.ord "s" -> snd (Session.handle_key key st) = st) /\
  fst (Session.handle_key key st) <> Session.Raise.
Proof.
  unfold Session.handle_key, bound_keys. cbn [map In].
  destruct (Z.eqb_spec key (Session.ord "q")) as [Hq|Hq];
    [|destruct (Z.eqb_spec key (Session.ord "s")) as [Hs|Hs];
      [|destruct (Z.eqb_spec key (Session.ord "c")) as [Hc|Hc];
        [|destruct (Z.eqb_spec key (Session.ord "+")) as [Hplus|Hplus];
          [|destruct (Z.eqb_spec key (Session.ord "=")) as [Heq|Heq];
            [|destruct (Z.eqb_spec key (Session.ord "-")) as [Hminus|Hminus]]]]]];
    cbn [orb fst snd];
    (split; [intros Hfree; first [reflexivity | exfalso; apply Hfree; subst key; auto 10]|]);
    (split; [split; [intros Hbreak; first [assumption | discriminate]
                    | intros Hkey; first [reflexivity | congruence]]|]);
    (split; [intros [Hkey | Hkey]; first [reflexivity | congruence] | discriminate]).
Qed.

(** ** The loop never raises *)

Lemma has_shape_map {A B} (f : A -> B) (rows cols : nat) (g : list (list A)) :
  has_shape rows cols g -> has_shape rows cols (map (map f) g).
Proof.
  intros [Hrows Hcols]. split; [rewrite length_map; exact Hrows|].
  apply Forall_forall. intros row Hrow. apply in_map_iff in Hrow.
  destruct Hrow as (row' & <- & Hin). rewrite length_map.
  rewrite Forall_forall in Hcols. apply Hcols, Hin.
Qed.

Lemma length_zip_with {A} (f : A -> A -> A) (a : list A) : forall b : list A,
  List.length (Smoother.zip_with f a b) = Nat.min (List.length a) (List.length b).
Proof.
  induction a as [|x a IH]; intros [|y b]; cbn; try reflexivity. rewrite IH. reflexivity.
Qed.

Lemma has_shape_add_frames (rows cols : nat) (a : frame) : forall b : frame,
  has_shape rows cols a -> has_shape rows cols b ->
  has_shape rows cols (Smoother.add_frames a b).
Proof.
  unfold has_shape, Smoother.add_frames. revert rows.
  induction a as [|ra a IH]; intros rows [|rb b] [Ha Hra] [Hb Hrb]; cbn in *;
    try (split; [congruence | constructor]); try congruence.
  inversion Hra as [|? ? Hra1 Hra2]; subst. inversion Hrb as [|? ? Hrb1 Hrb2]; subst.
  destruct (IH (List.length a) b) as [Hlen Hall]; [split; [reflexivity|assumption]|split; [congruence|assumption]|].
  split; [congruence|]. constructor; [|exact Hall].
  rewrite length_zip_with, Hrb1. apply Nat.min_id.
Qed.

Lemma has_shape_fold_add (rows cols : nat) (rest : list frame) : forall f0 : frame,
  has_shape rows cols f0 -> Forall (has_shape rows cols) rest ->
  has_shape rows cols (fold_left Smoother.add_frames rest f0).
Proof.
  induction rest as [|f rest IH]; intros f0 H0 Hrest; [exact H0|].
  inversion Hrest; subst. cbn [fold_left]. apply IH; [|assumption].
  apply has_shape_add_frames; assumption.
Qed.

Lemma mean_shape (rows cols : nat) (frames : list frame) :
  frames <> [] -> Forall (has_shape rows cols) frames ->
  exists thermal, Smoother.mean frames = Some thermal /\ has_shape rows cols thermal.
Proof.
  intros Hne Hall. destruct frames as [|f0 rest]; [contradiction|].
  inversion Hall; subst. eexists. split; [reflexivity|].
  apply has_shape_map, has_shape_fold_add; assumption.
Qed.

Lemma push_shape (rows cols : nat) (frame_buffer : list frame) (gray : frame) :
  Forall (has_shape rows cols) frame_buffer -> has_shape rows cols gray ->
  (List.length frame_buffer <= Smoother.SMOOTH_FRAMES)%nat ->
  Smoother.push frame_buffer gray <> [] /\
  Forall (has_shape rows cols) (Smoother.push frame_buffer gray) /\
  (List.length (Smoother.push frame_buffer gray) <= Smoother.SMOOTH_FRAMES)%nat.
Proof.
  intros Hall Hgray Hlen. unfold Smoother.push, Smoother.SMOOTH_FRAMES in *.
  assert (Happ : Forall (has_shape rows cols) (frame_buffer ++ [gray])).
  { apply Forall_app. split; [exact Hall | constructor; [exact Hgray | constructor]]. }
  rewrite length_app. cbn [List.length].
  destruct (Nat.ltb_spec 3 (List.length frame_buffer + 1)) as [Hfull | Hroom].
  - destruct frame_buffer as [|f0 [|f1 fb]]; cbn [List.length] in *; try lia.
    cbn [app tl] in *. inversion Happ; subst.
    repeat split; [discriminate | assumption |].
    cbn [List.length]. rewrite length_app. cbn [List.length]. lia.
  - repeat split; [|exact Happ | rewrite length_app; cbn [List.length]; lia].
    destruct frame_buffer; discriminate.
Qed.

Lemma concat_shape_nonempty {A} (rows cols : nat) (g : list (list A)) :
  (0 < rows)%nat -> (0 < cols)%nat -> has_shape rows cols g -> List.concat g <> [].
Proof.
  intros Hrows Hcols [Hlen Hall]. destruct g as [|row g]; cbn in Hlen; [lia|].
  inversion Hall; subst. destruct row; cbn in *; [lia | discriminate].
Qed.

Lemma normalize_shape (p : promotion) (rows cols : nat) (thermal : frame) (c : F64.t) :
  (0 < rows)%nat -> (0 < cols)%nat -> has_shape rows cols thermal ->
  exists thermal_8bit,
    Normalizer.normalize p thermal c = Some thermal_8bit /\
    has_shape rows cols thermal_8bit.
Proof.
  intros Hrows Hcols Hshape.
  pose proof (concat_shape_nonempty rows cols thermal Hrows Hcols Hshape) as Hne.
  unfold Normalizer.normalize, Normalizer.amin, Normalizer.amax, Normalizer.pick.
  destruct (List.concat thermal) as [|x rest]; [contradiction|].
  eexists. split; [reflexivity|]. apply has_shape_map, Hshape.
Qed.

Lemma palette_entry (idx : Z) :
  0 <= idx < Z.of_nat (List.length Session.COLORMAPS) ->
  exists entry, nth_error Session.COLORMAPS (Z.to_nat idx) = Some entry.
Proof.
  intros Hidx. destruct (nth_error Session.COLORMAPS (Z.to_nat idx)) as [e|] eqn:H.
  - exists e. reflexivity.
  - apply nth_error_None in H. lia.
Qed.

Lemma handle_key_well_formed (key : Z) (st : Session.state) :
  well_formed st ->
  well_formed (snd (Session.handle_key key st)) /\
  fst (Session.handle_key key st) <> Session.Raise.
Proof.
  intros (Hshape & Hlen & Hidx). unfold Session.handle_key.
  assert (Hsame : forall c : F64.t,
            well_formed {| Session.frame_buffer := Session.frame_buffer st;
                           Session.cmap_idx := Session.cmap_idx st;
                           Session.contrast_boost := c |})
    by (intros c; exact (conj Hshape (conj Hlen Hidx))).
  destruct (key =? Session.ord "q");
    [split; [exact (conj Hshape (conj Hlen Hidx)) | discriminate]|].
  destruct (key =? Session.ord "s");
    [split; [exact (conj Hshape (conj Hlen Hidx)) | discriminate]|].
  destruct (key =? Session.ord "c").
  { split; [|discriminate].
    split; [exact Hshape|]. split; [exact Hlen|]. apply next_palette_range. }
  destruct ((key =? Session.ord "+") || (key =? Session.ord "="));
    [split; [apply Hsame | discriminate]|].
  destruct (key =? Session.ord "-");
    (split; [first [apply Hsame | exact (conj Hshape (conj Hlen Hidx))] | discriminate]).
Qed.

Lemma sensor_size : (0 < Extract.h)%nat /\ (0 < Extract.w)%nat.
Proof. unfold Extract.h, Extract.w. lia. Qed.

Lemma iteration_good_capture (p : promotion) (st : Session.state)
      (raw_bytes : list byte) (waitKey : Z) :
  well_formed st ->
  (Extract.h * Extract.w * 2 <= List.length raw_bytes)%nat ->
  let buffer := Smoother.push (Session.frame_buffer st)
                              (luma_grid Extract.h Extract.w raw_bytes) in
  let st1 := {| Session.frame_buffer := buffer;
                Session.cmap_idx := Session.cmap_idx st;
                Session.contrast_boost := Session.contrast_boost st |} in
  exists thermal_8bit entry,
    has_shape Extract.h Extract.w thermal_8bit /\
    nth_error Session.COLORMAPS (Z.to_nat (Session.cmap_idx st)) = Some entry /\
    well_formed st1 /\
    Session.iteration p st true raw_bytes waitKey
    = (fst (Session.handle_key (Z.land waitKey 255) st1),
       snd (Session.handle_key (Z.land waitKey 255) st1),
       Some (thermal_8bit, Some entry)).
Proof.
  intros (Hshape & Hlen & Hidx) Hraw buffer st1.
  destruct sensor_size as [Hh Hw].
  pose proof (luma_grid_shape Extract.h Extract.w raw_bytes) as Hgray.
  destruct (push_shape _ _ _ _ Hshape Hgray Hlen) as (Hne & Hall & Hlen').
  fold buffer in Hne, Hall, Hlen'.
  destruct (mean_shape _ _ buffer Hne Hall) as (thermal & Hmean & Hthermal).
  destruct (normalize_shape p _ _ thermal (Session.contrast_boost st) Hh Hw Hthermal)
    as (thermal_8bit & Hnorm & Himg).
  destruct (palette_entry _ Hidx) as (entry & Hentry).
  exists thermal_8bit, entry.
  split; [exact Himg|]. split; [exact Hentry|]. split; [exact (conj Hall (conj Hlen' Hidx))|].
  unfold Session.iteration. cbn [negb].
  rewrite (extract_y_grid _ _ _ Hraw). unfold Smoother.smooth. fold buffer.
  rewrite Hmean. cbn [Session.contrast_boost Session.cmap_idx]. rewrite Hnorm, Hentry.
  fold st1. destruct (Session.handle_key (Z.land waitKey 255) st1) as [ctl st']. reflexivity.
Qed.

Lemma iteration_well_formed (p : promotion) (st : Session.state)
      (ret : bool) (raw_bytes : list byte) (waitKey : Z) :
  well_formed st ->
  fst (fst (Session.iteration p st ret raw_bytes waitKey)) <> Session.Raise /\
  well_formed (snd (fst (Session.iteration p st ret raw_bytes waitKey))).
Proof.
  intros Hst. destruct ret.
  - destruct (Nat.ltb_spec (List.length raw_bytes) (Extract.h * Extract.w * 2)) as [Hlt | Hge].
    + unfold Session.iteration. cbn [negb].
      rewrite (proj2 (extract_y_short _ _ _) Hlt). split; [discriminate | exact Hst].
    + destruct (iteration_good_capture p st raw_bytes waitKey Hst Hge)
        as (img & entry & _ & _ & Hst1 & ->).
      cbn [fst snd]. destruct (handle_key_well_formed (Z.land waitKey 255) _ Hst1) as [H1 H2].
      split; assumption.
  - split; [discriminate | exact Hst].
Qed.

(** X14.  A capture that passes both guards is always displayed.
    When the state is well formed, the iteration appends the extracted
    frame to the buffer, normalises the mean into an image of the
    sensor's shape, finds the palette entry, and hands the key to the
    key handler; it does not raise, and the state it leaves is well
    formed again. *)
Theorem good_capture_is_displayed (p : promotion) (st : Session.state)
        (raw_bytes : list byte) (waitKey : Z) :
  well_formed st ->
  (Extract.h * Extract.w * 2 <= List.length raw_bytes)%nat ->
  exists ctl st' thermal_8bit entry,
    Session.iteration p st true raw_bytes waitKey
    = (ctl, st', Some (thermal_8bit, Some entry)) /\
    ctl <> Session.Raise /\
    has_shape Extract.h Extract.w thermal_8bit /\
    nth_error Session.COLORMAPS (Z.to_nat (Session.cmap_idx st)) = Some entry /\
    Session.frame_buffer st'
    = Smoother.push (Session.frame_buffer st) (luma_grid Extract.h Extract.w raw_bytes) /\
    well_formed st'.
Proof.
  intros Hst Hraw.
  destruct (iteration_good_capture p st raw_bytes waitKey Hst Hraw)
    as (img & entry & Himg & Hentry & Hst1 & Hrun).
  cbv zeta in Hst1, Hrun.
  destruct (handle_key_well_formed (Z.land waitKey 255) _ Hst1) as [Hwf Hctl].
  eexists _, _, img, entry. split; [exact Hrun|].
  split; [exact Hctl|]. split; [exact Himg|]. split; [exact Hentry|].
  split; [|exact Hwf].
  unfold Session.handle_key.
  repeat match goal with |- context [if ?b then _ else _] => destruct b end; reflexivity.
Qed.

Lemma good_capture_is_displayed_witness :
  exists ctl st' thermal_8bit entry,
    Session.iteration Nep50 Session.initial true
      (repeat x00 (Extract.h * Extract.w * 2)) (-1)
    = (ctl, st', Some (thermal_8bit, Some entry)) /\
    ctl <> Session.Raise /\
    has_shape Extract.h Extract.w thermal_8bit /\
    nth_error Session.COLORMAPS (Z.to_nat (Session.cmap_idx Session.initial)) = Some entry /\
    Session.frame_buffer st'
    = Smoother.push (Session.frame_buffer Session.initial)
        (luma_grid Extract.h Extract.w (repeat x00 (Extract.h * Extract.w * 2))) /\
    well_formed st'.
Proof.
  apply (good_capture_is_displayed Nep50 Session.initial
           (repeat x00 (Extract.h * Extract.w * 2)) (-1)).
  - split; [constructor|]. split; [apply Nat.le_0_l|]. split; [reflexivity|reflexivity].
  - rewrite repeat_length. apply Nat.le_refl.
Defined.

(** X15.  From the initial state the loop never raises: whatever the
    captures and the key codes of its iterations, every iteration
    continues or breaks, and the state stays well formed, so that the
    mean is always taken over one to three frames of one shape and the
    palette index always points into the table. *)
Theorem main_loop_never_raises (p : promotion) (captures : list (bool * list byte * Z)) :
  fst (main_loop p Session.initial captures) <> Session.Raise /\
  well_formed (snd (main_loop p Session.initial captures)).
Proof.
  assert (Hinit : well_formed Session.initial).
  { split; [constructor|]. split; [apply Nat.le_0_l|]. split; reflexivity. }
  revert Hinit. generalize Session.initial as st.
  induction captures as [|[[ret raw_bytes] waitKey] rest IH]; intros st Hst.
  - split; [discriminate | exact Hst].
  - cbn [main_loop].
    destruct (iteration_well_formed p st ret raw_bytes waitKey Hst) as [Hctl Hwf].
    destruct (Session.iteration p st ret raw_bytes waitKey) as [[ctl st'] shown].
    cbn [fst snd] in Hctl, Hwf.
    destruct ctl; [apply IH, Hwf | split; [discriminate | exact Hwf] | contradiction].
Qed.

(** ** The contrast values within reach *)

Lemma contrast_paths_levels : map snd contrast_paths = Session.contrast_levels.
Proof. reflexivity. Qed.

Lemma contrast_paths_lead :
  forallb (fun kc => sf_same (Session.contrast_boost (Session.press (fst kc) Session.initial))
                             (snd kc))
          contrast_paths = true.
Proof. vm_compute. reflexivity. Qed.

Lemma contrast_levels_distinct : distinct Session.contrast_levels = true.
Proof. vm_compute. reflexivity. Qed.

Lemma distinct_NoDup (l : list F64.t) : distinct l = true -> NoDup l.
Proof.
  induction l as [|x l IH]; intros H; [constructor|].
  cbn [distinct] in H. apply andb_true_iff in H. destruct H as [Hx Hl].
  constructor; [|apply IH, Hl]. intros Hin.
  apply negb_true_iff in Hx.
  assert (Hex : existsb (sf_same x) l = true).
  { apply existsb_exists. exists x. split; [exact Hin | apply sf_same_refl]. }
  congruence.
Qed.

(** X16.  The contrast is one of 64 binary64 values, and each of them
    can be reached: a value is in reach of some key sequence from the
    initial state exactly when it is in the table [contrast_levels],
    which holds 64 values, no two the same.  They are more than the 24
    steps of 0.2 between 0.4 and 5.0 because [c + 0.2 - 0.2] need not
    be [c] in binary64. *)
Theorem contrast_has_64_reachable_values :
  (forall c : F64.t,
      In c Session.contrast_levels <->
      exists keys, c = Session.contrast_boost (Session.press keys Session.initial)) /\
  List.length Session.contrast_levels = 64%nat /\
  NoDup Session.contrast_levels.
Proof.
  split; [|split; [reflexivity | apply distinct_NoDup, contrast_levels_distinct]].
  intros c. split.
  - intros Hc. rewrite <- contrast_paths_levels in Hc. apply in_map_iff in Hc.
    destruct Hc as ([keys c'] & Hsnd & Hin). cbn [snd] in Hsnd. subst c'.
    pose proof contrast_paths_lead as Hlead. rewrite forallb_forall in Hlead.
    specialize (Hlead _ Hin). cbn [fst snd] in Hlead. apply sf_same_eq in Hlead.
    exists keys. symmetry. exact Hlead.
  - intros [keys ->]. apply press_level, initial_level.
Qed.

(** ** Frames of whole numbers at the initial contrast *)

Lemma order_whole : forallb (order_row whole32) whole32 = true.
Proof. vm_cast_no_check (eq_refl true). Qed.

Lemma in_whole32 (a : Z) : 0 <= a <= 255 -> In (a, F32.of_Z a) whole32.
Proof.
  intros Ha. unfold whole32. apply in_map_iff. exists a.
  split; [reflexivity | apply in_zrange; cbn; lia].
Qed.

(** Binary32 orders the whole numbers of a byte as the integers are
    ordered. *)
Lemma F32_ltb_whole (a b : Z) :
  0 <= a <= 255 -> 0 <= b <= 255 -> F32.ltb (F32.of_Z a) (F32.of_Z b) = (a <? b).
Proof.
  intros Ha Hb. pose proof order_whole as H. rewrite forallb_forall in H.
  specialize (H _ (in_whole32 a Ha)). unfold order_row in H. rewrite forallb_forall in H.
  specialize (H _ (in_whole32 b Hb)). cbn [fst snd] in H.
  apply Bool.eqb_prop in H. exact H.
Qed.

Lemma fold_min_whole (rest : list Z) : forall x : Z,
  0 <= x <= 255 -> (forall z, In z rest -> 0 <= z <= 255) ->
  fold_left (fun acc y => if F32.ltb y acc then y else acc) (map F32.of_Z rest) (F32.of_Z x)
  = F32.of_Z (fold_left Z.min rest x).
Proof.
  induction rest as [|y rest IH]; intros x Hx Hrest; [reflexivity|].
  cbn [map fold_left].
  pose proof (Hrest y (or_introl eq_refl)) as Hy.
  rewrite (F32_ltb_whole y x Hy Hx).
  replace (if y <? x then F32.of_Z y else F32.of_Z x) with (F32.of_Z (Z.min x y))
    by (destruct (Z.ltb_spec y x); f_equal; lia).
  apply IH; [lia|]. intros z Hz. apply Hrest. right. exact Hz.
Qed.

Lemma fold_max_whole (rest : list Z) : forall x : Z,
  0 <= x <= 255 -> (forall z, In z rest -> 0 <= z <= 255) ->
  fold_left (fun acc y => if F32.ltb acc y then y else acc) (map F32.of_Z rest) (F32.of_Z x)
  = F32.of_Z (fold_left Z.max rest x).
Proof.
  induction rest as [|y rest IH]; intros x Hx Hrest; [reflexivity|].
  cbn [map fold_left].
  pose proof (Hrest y (or_introl eq_refl)) as Hy.
  rewrite (F32_ltb_whole x y Hx Hy).
  replace (if x <? y then F32.of_Z y else F32.of_Z x) with (F32.of_Z (Z.max x y))
    by (destruct (Z.ltb_spec x y); f_equal; lia).
  apply IH; [lia|]. intros z Hz. apply Hrest. right. exact Hz.
Qed.

Lemma fold_min_least (rest : list Z) : forall x z : Z,
  In z (x :: rest) -> fold_left Z.min rest x <= z.
Proof.
  induction rest as [|y rest IH]; intros x z Hz; cbn [fold_left].
  - destruct Hz as [<- | []]. lia.
  - destruct Hz as [<- | [<- | Hz]].
    + transitivity (Z.min x y); [apply IH; left; reflexivity | lia].
    + transitivity (Z.min x y); [apply IH; left; reflexivity | lia].
    + apply IH. right. exact Hz.
Qed.

Lemma fold_max_greatest (rest : list Z) : forall x z : Z,
  In z (x :: rest) -> z <= fold_left Z.max rest x.
Proof.
  induction rest as [|y rest IH]; intros x z Hz; cbn [fold_left].
  - destruct Hz as [<- | []]. lia.
  - destruct Hz as [<- | [<- | Hz]].
    + transitivity (Z.max x y); [lia | apply IH; left; reflexivity].
    + transitivity (Z.max x y); [lia | apply IH; left; reflexivity].
    + apply IH. right. exact Hz.
Qed.

Lemma fold_min_in (rest : list Z) : forall x : Z, In (fold_left Z.min rest x) (x :: rest).
Proof.
  induction rest as [|y rest IH]; intros x; cbn [fold_left]; [left; reflexivity|].
  destruct (IH (Z.min x y)) as [H | H]; [|right; right; exact H].
  rewrite <- H. destruct (Z.min_spec x y) as [[_ ->] | [_ ->]];
    [left | right; left]; reflexivity.
Qed.

Lemma fold_max_in (rest : list Z) : forall x : Z, In (fold_left Z.max rest x) (x :: rest).
Proof.
  induction rest as [|y rest IH]; intros x; cbn [fold_left]; [left; reflexivity|].
  destruct (IH (Z.max x y)) as [H | H]; [|right; right; exact H].
  rewrite <- H. destruct (Z.max_spec x y) as [[_ ->] | [_ ->]];
    [right; left | left]; reflexivity.
Qed.

Lemma whole_is_window_mean (n : Z) : 0 <= n <= 255 -> Normalizer.window_mean (F32.of_Z n).
Proof.
  intros Hn. exists n, 1. split; [lia|]. split; [lia|].
  pose proof (forallb_zrange _ _ mean_of_equal_bytes n ltac:(cbn; lia)) as H.
  cbv beta in H. apply andb_true_iff in H. destruct H as [H _].
  apply andb_true_iff in H. destruct H as [H _]. apply sf_same_eq in H.
  symmetry. exact H.
Qed.

Lemma divisor_whole_nonzero :
  forallb (fun k => negb (F64.eqb (F64.of_Z (k + 1)) (F64.of_Z 0))) (zrange 255) = true.
Proof. vm_compute. reflexivity. Qed.

Lemma whole_frame_extremes (zs : list (list Z)) (x : Z) (rest : list Z) :
  List.concat zs = x :: rest ->
  (forall z, In z (List.concat zs) -> 0 <= z <= 255) ->
  Normalizer.amin (whole_frame zs) = Some (F32.of_Z (fold_left Z.min rest x)) /\
  Normalizer.amax (whole_frame zs) = Some (F32.of_Z (fold_left Z.max rest x)).
Proof.
  intros Hcat Hrange.
  unfold Normalizer.amin, Normalizer.amax, Normalizer.pick, whole_frame.
  rewrite <- concat_map, Hcat. cbn [map]. rewrite Hcat in Hrange.
  rewrite fold_min_whole, fold_max_whole;
    try (intros z Hz; apply Hrange; right; exact Hz);
    try (apply Hrange; left; reflexivity).
  split; reflexivity.
Qed.

Lemma normalize_whole (p : promotion) (zs : list (list Z)) (x : Z) (rest : list Z) :
  List.concat zs = x :: rest ->
  (forall z, In z (List.concat zs) -> 0 <= z <= 255) ->
  let lo := fold_left Z.min rest x in
  let hi := fold_left Z.max rest x in
  Normalizer.normalize p (whole_frame zs) Session.contrast_init
  = Some (map (map (stretch lo hi)) zs) /\
  Normalizer.divisor_nonzero
    p (Normalizer.bounds p (F32.of_Z lo) (F32.of_Z hi) Session.contrast_init) = true.
Proof.
  intros Hcat Hrange lo hi.
  destruct (whole_frame_extremes zs x rest Hcat Hrange) as [Hmin Hmax].
  fold lo in Hmin. fold hi in Hmax.
  assert (Hin : forall z, In z (List.concat zs) -> lo <= z <= hi).
  { intros z Hz. rewrite Hcat in Hz. split;
      [apply fold_min_least | apply fold_max_greatest]; exact Hz. }
  assert (Hlo : 0 <= lo <= 255).
  { apply Hrange. rewrite Hcat. apply fold_min_in. }
  assert (Hhi : 0 <= hi <= 255).
  { apply Hrange. rewrite Hcat. apply fold_max_in. }
  assert (Hle : lo <= hi).
  { assert (Hx : lo <= x <= hi) by (apply Hin; rewrite Hcat; left; reflexivity). lia. }
  unfold Normalizer.normalize. rewrite Hmin, Hmax. unfold whole_frame.
  destruct (Z.eqb_spec lo hi) as [Heq | Hne].
  - pose proof (flat_ok_reachable p (F32.of_Z lo) [] (whole_is_window_mean lo Hlo)) as Hflat.
    change (Session.contrast_boost (Session.press [] Session.initial))
      with Session.contrast_init in Hflat.
    unfold Normalizer.flat_ok in Hflat. cbv zeta in Hflat.
    apply andb_true_iff in Hflat. destruct Hflat as [Hdiv Hpix]. apply Z.eqb_eq in Hpix.
    rewrite <- Heq. split; [|exact Hdiv]. f_equal. rewrite map_map.
    apply map_ext_in. intros row Hrow. rewrite map_map. apply map_ext_in. intros z Hz.
    assert (Hz' : lo <= z <= hi) by (apply Hin, in_concat; exists row; split; assumption).
    replace z with lo by lia. unfold stretch. rewrite Z.eqb_refl. exact Hpix.
  - rewrite bounds_whole by lia. split.
    + f_equal. rewrite map_map. apply map_ext_in. intros row Hrow.
      rewrite map_map. apply map_ext_in. intros z Hz.
      assert (Hz' : 0 <= z <= 255) by (apply Hrange, in_concat; exists row; split; assumption).
      rewrite pixel_whole by lia. unfold stretch.
      destruct (Z.eqb_spec lo hi); [contradiction | reflexivity].
    + pose proof (forallb_zrange _ _ divisor_whole_nonzero (hi - lo - 1) ltac:(cbn; lia)) as H.
      cbv beta in H. replace (hi - lo - 1 + 1) with (hi - lo) in H by lia.
      unfold Normalizer.divisor_nonzero, Normalizer.divisor.
      destruct p; cbn [whole_scalar fst snd Np.sub Np.scalar_kind Np.at_kind Np.as32 Np.as64].
      * rewrite F64_sub_whole by (cbn; lia). exact H.
      * rewrite F32_sub_whole, F64_round_whole by (cbn; lia). exact H.
Qed.

(** X17.  On a frame of whole numbers between 0 and 255, as the
    extractor delivers it, at the initial contrast: the bounds of
    lines 193-194 are the frame's least and greatest sample, the
    division of line 196 is never by zero, and a sample [z] becomes
    127 when the frame is flat and otherwise the truncation of
    [(z - lo) / (hi - lo) * 255] computed in binary32.  The image is
    the same under both promotion rules of NumPy. *)
Theorem whole_frame_image_is_version_independent (zs : list (list Z))
        (x : Z) (rest : list Z) :
  List.concat zs = x :: rest ->
  (forall z, In z (List.concat zs) -> 0 <= z <= 255) ->
  let lo := fold_left Z.min rest x in
  let hi := fold_left Z.max rest x in
  (forall p : promotion,
      Normalizer.normalize p (whole_frame zs) Session.contrast_init
      = Some (map (map (stretch lo hi)) zs) /\
      Normalizer.divisor_nonzero
        p (Normalizer.bounds p (F32.of_Z lo) (F32.of_Z hi) Session.contrast_init) = true) /\
  Normalizer.normalize Legacy (whole_frame zs) Session.contrast_init
  = Normalizer.normalize Nep50 (whole_frame zs) Session.contrast_init.
Proof.
  intros Hcat Hrange lo hi. split.
  - intros p. apply normalize_whole; assumption.
  - rewrite (proj1 (normalize_whole Legacy zs x rest Hcat Hrange)).
    rewrite (proj1 (normalize_whole Nep50 zs x rest Hcat Hrange)). reflexivity.
Qed.

Lemma whole_frame_image_is_version_independent_witness :
  Normalizer.normalize Legacy (whole_frame [[10; 20]; [30; 40]]) Session.contrast_init
  = Normalizer.normalize Nep50 (whole_frame [[10; 20]; [30; 40]]) Session.contrast_init.
Proof.
  apply (whole_frame_image_is_version_independent [[10; 20]; [30; 40]] 10 [20; 30; 40]).
  - reflexivity.
  - intros z Hz. cbn in Hz. lia.
Defined.

(** ** Overlays *)

Lemma tripling_exact :
  forallb (fun n => (fst (Overlay.display_point (n, n)) =? 3 * n)
                    && (snd (Overlay.display_point (n, n)) =? 3 * n))
          (zrange 256) = true.
Proof. vm_compute. reflexivity. Qed.

(** X18.  The hot and cold markers are drawn at exactly three times
    the sensor coordinates [cv2.minMaxLoc] reports: column [x] and row
    [y] of the 256 by 192 grid go to [(3 * x, 3 * y)], the upper left
    corner of the pixel's block in the 768 by 576 image, and so never
    outside it. *)
Theorem markers_scale_by_three (x y : Z) :
  0 <= x < Z.of_nat Extract.w -> 0 <= y < Z.of_nat Extract.h ->
  Overlay.display_point (x, y) = (3 * x, 3 * y) /\
  0 <= 3 * x <= Overlay.OUT_W - 3 /\ 0 <= 3 * y <= Overlay.OUT_H - 3.
Proof.
  intros Hx Hy.
  assert (Hw : Z.of_nat Extract.w = 256) by reflexivity.
  assert (Hh : Z.of_nat Extract.h = 192) by reflexivity.
  pose proof (forallb_zrange _ _ tripling_exact x ltac:(cbn; lia)) as Hcol.
  pose proof (forallb_zrange _ _ tripling_exact y ltac:(cbn; lia)) as Hrow.
  cbv beta in Hcol, Hrow.
  apply andb_true_iff in Hcol. destruct Hcol as [Hcol _]. apply Z.eqb_eq in Hcol.
  apply andb_true_iff in Hrow. destruct Hrow as [_ Hrow]. apply Z.eqb_eq in Hrow.
  split; [|unfold Overlay.OUT_W, Overlay.OUT_H; lia].
  unfold Overlay.display_point in *. cbn [fst snd] in *. rewrite Hcol, Hrow. reflexivity.
Qed.

Lemma markers_scale_by_three_witness :
  Overlay.display_point (255, 191) = (3 * 255, 3 * 191) /\
  0 <= 3 * 255 <= Overlay.OUT_W - 3 /\ 0 <= 3 * 191 <= Overlay.OUT_H - 3.
Proof. apply (markers_scale_by_three 255 191); cbn; lia. Defined.

Lemma sixth_of_six_times :
  forallb (fun h => trunc (F64.div (F64.of_Z (h * 6)) (F64.of_Z 6)) =? h) (zrange 1201) = true.
Proof. vm_compute. reflexivity. Qed.

(** X19.  On a scale bar of [h] rows, for every height from 17 to
    1200, two labels are drawn: HOT with its tick at row 12 and COLD
    with its tick at row [h - 5].  Both ticks lie on the bar, and both
    texts, written four rows lower, end inside the image. *)
Theorem scale_bar_labels_stay_inside (h : Z) :
  17 <= h <= 1200 ->
  Overlay.drawn_labels h = [("HOT", 12); ("COLD", h - 5)]%string /\
  (forall label y, In (label, y) (Overlay.drawn_labels h) -> 0 <= y /\ y + 4 < h).
Proof.
  intros Hh.
  assert (Hrows : Overlay.drawn_labels h = [("HOT", 12); ("COLD", h - 5)]%string).
  { unfold Overlay.drawn_labels, Overlay.labels. cbn [Overlay.drawn_from String.eqb Ascii.eqb Bool.eqb].
    cbn [Z.add Pos.add Pos.succ].
    unfold Overlay.label_row. cbv zeta.
    change (Z.of_nat (List.length Overlay.labels) - 1) with 6.
    pose proof (forallb_zrange _ _ sixth_of_six_times h ltac:(cbn; lia)) as H6.
    cbv beta in H6. apply Z.eqb_eq in H6. rewrite H6.
    rewrite Z.mul_0_r.
    change (trunc (F64.div (F64.of_Z 0) (F64.of_Z 6))) with 0.
    replace (Z.max 12 (Z.min 0 (h - 5))) with 12 by lia.
    replace (Z.max 12 (Z.min h (h - 5))) with (h - 5) by lia. reflexivity. }
  split; [exact Hrows|]. rewrite Hrows.
  intros label y [H | [H | []]]; injection H as _ <-; lia.
Qed.

Lemma scale_bar_labels_stay_inside_witness :
  Overlay.drawn_labels Overlay.OUT_H = [("HOT", 12); ("COLD", Overlay.OUT_H - 5)]%string.
Proof. apply (scale_bar_labels_stay_inside Overlay.OUT_H). unfold Overlay.OUT_H. lia. Defined.

(** ** The first frame, end to end *)

Lemma luma_grid_whole (rows cols : nat) (raw_bytes : list byte) :
  luma_grid rows cols raw_bytes = whole_frame (luma_values rows cols raw_bytes).
Proof.
  unfold luma_grid, whole_frame, luma_values. rewrite map_map.
  apply map_ext. intros r. rewrite map_map. reflexivity.
Qed.

Lemma luma_grid_bytes (rows cols : nat) (raw_bytes : list byte) :
  luma_grid rows cols raw_bytes
  = map (map Extract.float32_of_byte)
        (map (fun r => map (fun c => nth (2 * (r * cols + c)) raw_bytes x00) (seq 0 cols))
             (seq 0 rows)).
Proof.
  unfold luma_grid. rewrite map_map. apply map_ext. intros r. rewrite map_map. reflexivity.
Qed.

Lemma luma_values_range (rows cols : nat) (raw_bytes : list byte) (z : Z) :
  In z (List.concat (luma_values rows cols raw_bytes)) -> 0 <= z <= 255.
Proof.
  intros Hz. apply in_concat in Hz. destruct Hz as (row & Hrow & Hz).
  unfold luma_values in Hrow. apply in_map_iff in Hrow. destruct Hrow as (r & <- & _).
  apply in_map_iff in Hz. destruct Hz as (c & <- & _). apply byte_value_range.
Qed.

(** X23.  The first capture that passes the guards, from the initial
    state: the buffer then holds that frame alone, the mean is the
    frame itself, and the image displayed is the frame's luma bytes
    stretched between their least and greatest value (127 everywhere
    when they are all equal), under the first palette, Inferno.  The
    result is the same under both promotion rules. *)
Theorem first_frame_is_stretched_luma (p : promotion) (raw_bytes : list byte) (waitKey : Z) :
  (Extract.h * Extract.w * 2 <= List.length raw_bytes)%nat ->
  let zs := luma_values Extract.h Extract.w raw_bytes in
  exists ctl st',
    Session.iteration p Session.initial true raw_bytes waitKey
    = (ctl, st',
       Some (map (map (stretch (grid_min zs) (grid_max zs))) zs,
             Some (14, "Inferno"%string))) /\
    Session.frame_buffer st' = [luma_grid Extract.h Extract.w raw_bytes].
Proof.
  intros Hraw zs.
  assert (Hne : List.concat zs <> []).
  { destruct sensor_size as [Hh Hw].
    apply (concat_shape_nonempty Extract.h Extract.w); [exact Hh | exact Hw |].
    unfold zs, luma_values, has_shape. split.
    - rewrite length_map, length_seq. reflexivity.
    - apply Forall_forall. intros row Hrow. apply in_map_iff in Hrow.
      destruct Hrow as (r & <- & _). rewrite length_map, length_seq. reflexivity. }
  destruct (List.concat zs) as [|x rest] eqn:Hcat; [contradiction|].
  assert (Hrange : forall z, In z (List.concat zs) -> 0 <= z <= 255)
    by (intros z; apply luma_values_range).
  destruct (normalize_whole p zs x rest Hcat Hrange) as [Hnorm _].
  cbv zeta in Hnorm.
  pose proof (luma_grid_whole Extract.h Extract.w raw_bytes) as Hwhole. fold zs in Hwhole.
  rewrite <- Hwhole in Hnorm.
  assert (Hmean : Smoother.mean [luma_grid Extract.h Extract.w raw_bytes]
                  = Some (luma_grid Extract.h Extract.w raw_bytes)).
  { rewrite luma_grid_bytes. apply (mean_of_copies _ 1). lia. }
  set (st1 := {| Session.frame_buffer := [luma_grid Extract.h Extract.w raw_bytes];
                 Session.cmap_idx := 0;
                 Session.contrast_boost := Session.contrast_init |}).
  assert (Hbuf : Session.frame_buffer (snd (Session.handle_key (Z.land waitKey 255) st1))
                 = [luma_grid Extract.h Extract.w raw_bytes]).
  { unfold Session.handle_key.
    repeat match goal with |- context [if ?b then _ else _] => destruct b end;
      reflexivity. }
  exists (fst (Session.handle_key (Z.land waitKey 255) st1)),
         (snd (Session.handle_key (Z.land waitKey 255) st1)).
  split; [|exact Hbuf].
  unfold Session.iteration. cbn [negb].
  rewrite (extract_y_grid _ _ _ Hraw). unfold Smoother.smooth.
  change (Smoother.push (Session.frame_buffer Session.initial)
                        (luma_grid Extract.h Extract.w raw_bytes))
    with [luma_grid Extract.h Extract.w raw_bytes].
  rewrite Hmean. cbn [Session.contrast_boost Session.cmap_idx Session.initial].
  rewrite Hnorm. fold st1.
  unfold grid_min, grid_max. rewrite Hcat.
  destruct (Session.handle_key (Z.land waitKey 255) st1) as [ctl st']. reflexivity.
Qed.

Lemma first_frame_is_stretched_luma_witness :
  let zs := luma_values Extract.h Extract.w (repeat x00 (Extract.h * Extract.w * 2)) in
  exists ctl st',
    Session.iteration Legacy Session.initial true
      (repeat x00 (Extract.h * Extract.w * 2)) (Session.ord "c")
    = (ctl, st',
       Some (map (map (stretch (grid_min zs) (grid_max zs))) zs,
             Some (14, "Inferno"%string))) /\
    Session.frame_buffer st'
    = [luma_grid Extract.h Extract.w (repeat x00 (Extract.h * Extract.w * 2))].
Proof.
  apply (first_frame_is_stretched_luma Legacy
           (repeat x00 (Extract.h * Extract.w * 2)) (Session.ord "c")).
  rewrite repeat_length. apply Nat.le_refl.
Defined.

(** ** Contrast and palette, key by key *)

Lemma contrast_keys_monotone :
  forallb (fun c => F64.leb c (Session.contrast_up c)
                    && F64.leb (Session.contrast_down c) c
                    && F64.leb (Session.contrast_up c) Session.contrast_hi
                    && F64.leb Session.contrast_lo (Session.contrast_down c))
          Session.contrast_levels = true.
Proof. vm_compute. reflexivity. Qed.

(** X24.  At every contrast the keys can reach, [+] never lowers the
    contrast and [-] never raises it, and neither leaves the range
    from 0.4 to 5.0; at 5.0 the key [+] changes nothing, and at 0.4
    the key [-] changes nothing. *)
Theorem contrast_keys_move_one_way (keys : list Z) :
  let c := Session.contrast_boost (Session.press keys Session.initial) in
  F64.leb c (Session.contrast_up c) = true /\
  F64.leb (Session.contrast_down c) c = true /\
  F64.leb (Session.contrast_up c) Session.contrast_hi = true /\
  F64.leb Session.contrast_lo (Session.contrast_down c) = true /\
  Session.contrast_up Session.contrast_hi = Session.contrast_hi /\
  Session.contrast_down Session.contrast_lo = Session.contrast_lo.
Proof.
  intros c.
  pose proof (press_level keys Session.initial initial_level) as Hin. fold c in Hin.
  pose proof contrast_keys_monotone as Hall. rewrite forallb_forall in Hall.
  specialize (Hall c Hin).
  apply andb_true_iff in Hall. destruct Hall as [Hall H4].
  apply andb_true_iff in Hall. destruct Hall as [Hall H3].
  apply andb_true_iff in Hall. destruct Hall as [H1 H2].
  repeat split; try assumption; vm_compute; reflexivity.
Qed.

Lemma press_palette (k : nat) : forall st : Session.state,
  Session.press (repeat (Session.ord "c") k) st
  = {| Session.frame_buffer := Session.frame_buffer st;
       Session.cmap_idx := Nat.iter k Session.next_palette (Session.cmap_idx st);
       Session.contrast_boost := Session.contrast_boost st |}.
Proof.
  induction k as [|k IH]; intros st; [destruct st; reflexivity|].
  cbn [repeat Session.press].
  change (Session.handle_key (Session.ord "c") st)
    with (Session.Continue,
          {| Session.frame_buffer := Session.frame_buffer st;
             Session.cmap_idx := Session.next_palette (Session.cmap_idx st);
             Session.contrast_boost := Session.contrast_boost st |}).
  cbv beta iota. rewrite IH. cbn [Session.frame_buffer Session.cmap_idx Session.contrast_boost].
  rewrite <- Nat.iter_succ_r. reflexivity.
Qed.

Lemma iter_next_palette (k : nat) (idx : Z) :
  Nat.iter k Session.next_palette idx = (idx + Z.of_nat k) mod 6 \/ k = 0%nat.
Proof.
  induction k as [|k IH]; [right; reflexivity|]. left.
  rewrite Nat.iter_succ. unfold Session.next_palette at 1. rewrite palette_count.
  destruct IH as [-> | ->].
  - rewrite Zplus_mod_idemp_l. f_equal. lia.
  - reflexivity.
Qed.

(** X25.  Pressing [c] [k] times from any state moves the palette
    index [k] places around the table of six and changes nothing
    else: the index becomes [(cmap_idx + k) mod 6]. *)
Theorem palette_after_k_presses (k : nat) (st : Session.state) :
  0 <= Session.cmap_idx st < 6 ->
  Session.press (repeat (Session.ord "c") k) st
  = {| Session.frame_buffer := Session.frame_buffer st;
       Session.cmap_idx := (Session.cmap_idx st + Z.of_nat k) mod 6;
       Session.contrast_boost := Session.contrast_boost st |}.
Proof.
  intros Hidx. rewrite press_palette. f_equal.
  destruct (iter_next_palette k (Session.cmap_idx st)) as [H | ->]; [exact H|].
  cbn [Nat.iter]. rewrite Z.add_0_r, Z.mod_small by lia. reflexivity.
Qed.

Lemma palette_after_k_presses_witness :
  Session.press (repeat (Session.ord "c") 8) Session.initial
  = {| Session.frame_buffer := [];
       Session.cmap_idx := 2;
       Session.contrast_boost := Session.contrast_init |}.
Proof.
  apply (palette_after_k_presses 8 Session.initial). cbn. lia.
Defined.
